(** * The streaming session controller of the chat view

    A shallow embedding of [src/components/chat/ChatView.tsx]: the
    [sendMessage] read loop (line framing, event decoding, folding of the
    events into the per-turn React state), [handlePermissionResponse],
    [stopStreaming] and the two deferred timers, over a model of the parts of
    the JavaScript platform the component calls ([TextDecoder], [JSON.parse],
    [JSON.stringify], string methods, number conversions). *)

From Stdlib Require Import Strings.String Strings.Ascii Strings.Byte.
From Stdlib Require Import List NArith ZArith QArith Qround Bool Lia.
Import ListNotations.

Set Implicit Arguments.
Local Open Scope N_scope.

(** ** JavaScript strings *)

(** A JavaScript string is a sequence of UTF-16 code units; [length], [slice],
    [split] and [startsWith] all count code units. *)
Module JSString.

Definition jsstring := list N.

(** A literal of the source, all of whose characters are ASCII. *)
Definition lit (s : string) : jsstring :=
  map N_of_ascii (list_ascii_of_string s).

Definition eqb (a b : jsstring) : bool :=
  if list_eq_dec N.eq_dec a b then true else false.

(** [s.startsWith(p)] *)
Fixpoint startsWith (p s : jsstring) : bool :=
  match p, s with
  | [], _ => true
  | c :: p', d :: s' => (c =? d) && startsWith p' s'
  | _ :: _, [] => false
  end.

(** [s.slice(n)] for a literal [n >= 0]. *)
Definition slice_from (n : nat) (s : jsstring) : jsstring := skipn n s.

(** [s.slice(-n)] for a literal [n > 0]: the last [n] code units, the whole
    string when it is shorter. *)
Definition slice_last (n : nat) (s : jsstring) : jsstring :=
  skipn (length s - n) s.

Definition LF : N := 10.

(** [s.split('\n')]: the pieces between line feeds, never an empty array. The
    accumulator [cur] is the piece being read, reversed. *)
Fixpoint split_go (cur : jsstring) (s : jsstring) : list jsstring :=
  match s with
  | [] => [rev cur]
  | c :: s' =>
      if c =? LF then rev cur :: split_go [] s' else split_go (c :: cur) s'
  end.

Definition split_LF (s : jsstring) : list jsstring := split_go [] s.

(** WhiteSpace and LineTerminator code units, what [trim] strips. *)
Definition is_space (c : N) : bool :=
  (c =? 9) || (c =? 10) || (c =? 11) || (c =? 12) || (c =? 13) || (c =? 32)
  || (c =? 160) || (c =? 5760) || ((8192 <=? c) && (c <=? 8202))
  || (c =? 8232) || (c =? 8233) || (c =? 8239) || (c =? 8287)
  || (c =? 12288) || (c =? 65279).

Fixpoint trimStart (s : jsstring) : jsstring :=
  match s with
  | c :: s' => if is_space c then trimStart s' else s
  | [] => []
  end.

Definition trimEnd (s : jsstring) : jsstring := rev (trimStart (rev s)).

(** [s.trim()] *)
Definition trim (s : jsstring) : jsstring := trimEnd (trimStart s).

(** Decimal digits of a natural number, as code units. *)
Fixpoint digits_go (fuel : nat) (n : N) (acc : jsstring) : jsstring :=
  match fuel with
  | O => acc
  | S fuel' =>
      let acc' := (48 + n mod 10) :: acc in
      if n <? 10 then acc' else digits_go fuel' (n / 10) acc'
  end.

Definition digits (n : N) : jsstring :=
  digits_go (S (N.to_nat (N.log2 n))) n [].

End JSString.
Export JSString.

(** ** JavaScript numbers *)

(** Number values are IEEE 754 binary64. [Fin neg m e] is
    [(-1)^neg * m * 2^e], kept canonical: [m = 0] and [e = 0] for the two
    zeros, [2^52 <= m < 2^53] and [-1074 <= e <= 971] for a normal number,
    [0 < m < 2^52] and [e = -1074] for a subnormal one. Conversions go
    through exact rationals. *)
Module JSNumber.

Inductive double : Type :=
| NaN
| Inf (neg : bool)
| Fin (neg : bool) (m : Z) (e : Z).

Definition zero (neg : bool) : double := Fin neg 0 0.

Definition Qpow (b : Z) (e : Z) : Q :=
  if (0 <=? e)%Z then inject_Z (b ^ e) else Qmake 1 (Z.to_pos (b ^ (- e))).

Definition Qlt_bool (a b : Q) : bool := negb (Qle_bool b a).

(** [floor (log2 v)] for [v > 0]. *)
Definition floor_log2 (v : Q) : Z :=
  let l := (Z.log2 (Qnum v) - Z.log2 (Zpos (Qden v)))%Z in
  if Qle_bool (Qpow 2 l) v then l else (l - 1)%Z.

(** Nearest integer, ties to even, for [v >= 0]. *)
Definition round_half_even (v : Q) : Z :=
  let f := Qfloor v in
  let r := Qminus v (inject_Z f) in
  match Qcompare r (Qmake 1 2) with
  | Lt => f
  | Gt => (f + 1)%Z
  | Eq => if Z.even f then f else (f + 1)%Z
  end.

(** The Number value for a non-negative real [v]: round to nearest, ties to
    even, overflow to infinity. *)
Definition of_Q (neg : bool) (v : Q) : double :=
  if Qle_bool v 0 then zero neg
  else
    let e := Z.max (floor_log2 v - 52) (-1074) in
    let m := round_half_even (Qdiv v (Qpow 2 e)) in
    let '(m, e) := if (m =? 2 ^ 53)%Z then ((2 ^ 52)%Z, (e + 1)%Z) else (m, e) in
    if (971 <? e)%Z then Inf neg
    else if (m =? 0)%Z then zero neg
    else Fin neg m e.

(** The Number value for the decimal [d * 10^E], [d] a natural number. Far
    outside the range of binary64 the answer is immediate. *)
Definition of_decimal (neg : bool) (d : N) (E : Z) : double :=
  if (d =? 0)%N then zero neg
  else
    let D := Z.of_nat (length (digits d)) in
    if (400 <? E + D)%Z then Inf neg
    else if (E + D <? -400)%Z then zero neg
    else of_Q neg (Qmult (inject_Z (Z.of_N d)) (Qpow 10 E)).

Definition of_Z (z : Z) : double :=
  of_Q (z <? 0)%Z (inject_Z (Z.abs z)).

Definition of_N (n : N) : double := of_Z (Z.of_N n).

(** The magnitude of a finite number. *)
Definition magnitude (m e : Z) : Q := Qmult (inject_Z m) (Qpow 2 e).

(** [x === y] on numbers: NaN differs from itself, the two zeros are equal. *)
Definition eqb (x y : double) : bool :=
  match x, y with
  | Inf a, Inf b => Bool.eqb a b
  | Fin a m e, Fin b m' e' =>
      (m =? m')%Z && (e =? e')%Z && ((m =? 0)%Z || Bool.eqb a b)
  | _, _ => false
  end.

(** ToBoolean on numbers. *)
Definition truthy (x : double) : bool :=
  match x with
  | NaN => false
  | Inf _ => true
  | Fin _ m _ => negb (m =? 0)%Z
  end.

(** *** Number::toString, radix 10 *)

Section Shortest.
Variables m e : Z.

Let v : Q := magnitude m e.

(** The reals that round to [v] lie between the midpoints to its two
    neighbours, the midpoints included when [m] is even. *)
Definition hi : Q := magnitude (2 * m + 1) (e - 1).
Definition lo : Q :=
  if (m =? 2 ^ 52)%Z && (-1074 <? e)%Z
  then magnitude (4 * m - 1) (e - 2)
  else magnitude (2 * m - 1) (e - 1).

Definition rounds_here (w : Q) : bool :=
  if Z.even m then Qle_bool lo w && Qle_bool w hi
  else Qlt_bool lo w && Qlt_bool w hi.

(** Moves [n] until [10^(n-1) <= v < 10^n]. *)
Fixpoint settle (fuel : nat) (n : Z) : Z :=
  match fuel with
  | O => n
  | S fuel' =>
      if Qlt_bool v (Qpow 10 (n - 1)) then settle fuel' (n - 1)%Z
      else if Qle_bool (Qpow 10 n) v then settle fuel' (n + 1)%Z
      else n
  end.

Definition decimal_exponent : Z :=
  settle 700 (floor_log2 v * 30103 / 100000 + 1)%Z.

(** The candidate with [k] digits nearest to [v], as [c * 10^p], when one
    rounds to [v]. *)
Definition candidate (k : Z) : option (Z * Z) :=
  let p := (decimal_exponent - k)%Z in
  let c1 := Qfloor (Qdiv v (Qpow 10 p)) in
  let c2 := (c1 + 1)%Z in
  let w1 := Qmult (inject_Z c1) (Qpow 10 p) in
  let w2 := Qmult (inject_Z c2) (Qpow 10 p) in
  match rounds_here w1, rounds_here w2 with
  | true, true =>
      match Qcompare (Qminus v w1) (Qminus w2 v) with
      | Lt => Some (c1, p)
      | Gt => Some (c2, p)
      | Eq => Some (if Z.even c1 then c1 else c2, p)
      end
  | true, false => Some (c1, p)
  | false, true => Some (c2, p)
  | false, false => None
  end.

Fixpoint shortest_from (fuel : nat) (k : Z) : Z * Z :=
  match fuel with
  | O => (Qfloor (Qdiv v (Qpow 10 (decimal_exponent - k))), (decimal_exponent - k)%Z)
  | S fuel' =>
      match candidate k with
      | Some r => r
      | None => shortest_from fuel' (k + 1)%Z
      end
  end.

Fixpoint strip_zeros (fuel : nat) (c p : Z) : Z * Z :=
  match fuel with
  | O => (c, p)
  | S fuel' =>
      if (c mod 10 =? 0)%Z then strip_zeros fuel' (c / 10)%Z (p + 1)%Z else (c, p)
  end.

(** The digits [s] and the exponent [n] of Number::toString: [k = length s]
    is least with [s * 10^(n-k)] rounding to [v]. *)
Definition shortest : jsstring * Z :=
  let '(c, p) := shortest_from 17 1 in
  let '(c, p) := strip_zeros 20 c p in
  let s := digits (Z.to_N c) in
  (s, (p + Z.of_nat (length s))%Z).
End Shortest.

Definition zeros (n : Z) : jsstring := repeat 48%N (Z.to_nat n).

Definition toString_pos (m e : Z) : jsstring :=
  let '(s, n) := shortest m e in
  let k := Z.of_nat (length s) in
  if (-5 <=? n)%Z && (n <=? 21)%Z then
    if (k <=? n)%Z then s ++ zeros (n - k)
    else if (0 <? n)%Z then firstn (Z.to_nat n) s ++ lit "." ++ skipn (Z.to_nat n) s
    else lit "0." ++ zeros (- n) ++ s
  else
    let x := (n - 1)%Z in
    let sign := if (x <? 0)%Z then lit "-" else lit "+" in
    let mant := match s with
                | [d] => [d]
                | d :: rest => d :: lit "." ++ rest
                | [] => []
                end in
    mant ++ lit "e" ++ sign ++ digits (Z.to_N (Z.abs x)).

Definition toString (x : double) : jsstring :=
  match x with
  | NaN => lit "NaN"
  | Inf false => lit "Infinity"
  | Inf true => lit "-Infinity"
  | Fin neg m e =>
      if (m =? 0)%Z then lit "0"
      else (if neg then lit "-" else []) ++ toString_pos m e
  end.

(** [Math.round]: the nearest integer, ties towards +infinity; the sign of a
    zero result is the sign of the argument. *)
Definition round (x : double) : double :=
  match x with
  | Fin neg m e =>
      if (0 <=? e)%Z then x
      else
        let v := magnitude m e in
        let signed := if neg then Qopp v else v in
        let r := Qfloor (Qplus signed (Qmake 1 2)) in
        if (r =? 0)%Z then zero neg else of_Z r
  | _ => x
  end.

End JSNumber.

(** ** JavaScript values *)

(** The values [JSON.parse] builds, and [undefined]. An object keeps its own
    properties in enumeration order, each key once. *)
Module JSValue.
Import JSNumber.

#[local] Set Warnings "-register-all".

Inductive value : Type :=
| Undefined
| Null
| Bool (b : bool)
| Num (x : double)
| Str (s : jsstring)
| Arr (items : list value)
| Obj (fields : list (jsstring * value)).

(** ToBoolean *)
Definition truthy (v : value) : bool :=
  match v with
  | Undefined | Null => false
  | Bool b => b
  | Num x => JSNumber.truthy x
  | Str s => match s with [] => false | _ => true end
  | Arr _ | Obj _ => true
  end.

(** [a || b] *)
Definition or_else (a b : value) : value := if truthy a then a else b.

Fixpoint lookup (key : jsstring) (fields : list (jsstring * value)) : option value :=
  match fields with
  | [] => None
  | (k, v) :: rest => if JSString.eqb k key then Some v else lookup key rest
  end.

(** ToString, after ToPrimitive. An array joins its elements with commas,
    [null] and [undefined] elements as the empty string. A plain object is
    ["[object Object]"], the result of [Object.prototype.toString], unless
    it has a property [toString] of its own: no value [JSON.parse] builds
    is callable, so neither [toString] nor [valueOf] gives a primitive and
    the conversion throws a TypeError, which is [None]. A property
    [valueOf] of its own changes nothing: the inherited [valueOf] gives no
    primitive either. *)
Fixpoint ToString (v : value) : option jsstring :=
  match v with
  | Undefined => Some (lit "undefined")
  | Null => Some (lit "null")
  | Bool true => Some (lit "true")
  | Bool false => Some (lit "false")
  | Num x => Some (JSNumber.toString x)
  | Str s => Some s
  | Arr items =>
      let element x :=
        match x with Undefined | Null => Some [] | _ => ToString x end in
      (fix join (l : list value) : option jsstring :=
         match l with
         | [] => Some []
         | [x] => element x
         | x :: rest =>
             match element x, join rest with
             | Some first, Some others => Some (first ++ lit "," ++ others)
             | _, _ => None
             end
         end) items
  | Obj fields =>
      match lookup (lit "toString") fields with
      | Some _ => None
      | None => Some (lit "[object Object]")
      end
  end.

(** [typeof v === 'string'] *)
Definition is_string (v : value) : bool :=
  match v with Str _ => true | _ => false end.

(** [a === b]. Two objects or arrays are equal only when they are the same
    object; the values compared in this component always come from
    different [JSON.parse] calls, so never are. *)
Definition strict_eq (a b : value) : bool :=
  match a, b with
  | Undefined, Undefined => true
  | Null, Null => true
  | Bool x, Bool y => Bool.eqb x y
  | Num x, Num y => JSNumber.eqb x y
  | Str x, Str y => JSString.eqb x y
  | _, _ => false
  end.

(** [v.key] for the property names this component reads ([type], [data],
    [id], [usage], ...), none of which is defined on a prototype or on a
    string or array exotic object: [None] is the TypeError of reading a
    property of [null] or [undefined]. *)
Definition Get (v : value) (key : string) : option value :=
  match v with
  | Undefined | Null => None
  | Obj fields =>
      Some (match lookup (lit key) fields with Some x => x | None => Undefined end)
  | _ => Some Undefined
  end.

(** *** StringToNumber *)

Definition digit_value (base : N) (c : N) : option N :=
  let d :=
    if (48 <=? c) && (c <=? 57) then Some (c - 48)
    else if (97 <=? c) && (c <=? 102) then Some (c - 87)
    else if (65 <=? c) && (c <=? 70) then Some (c - 55)
    else None in
  match d with
  | Some n => if n <? base then Some n else None
  | None => None
  end.

(** The longest prefix of digits: its value, its length, the rest. *)
Fixpoint scan_digits (base : N) (acc : N) (count : nat) (s : jsstring)
  : N * nat * jsstring :=
  match s with
  | c :: s' =>
      match digit_value base c with
      | Some d => scan_digits base (acc * base + d) (S count) s'
      | None => (acc, count, s)
      end
  | [] => (acc, count, s)
  end.

(** An optional exponent part [e±ddd]: [None] when an [e] is not followed by
    digits. *)
Definition scan_exponent (s : jsstring) : option (Z * jsstring) :=
  match s with
  | c :: s1 =>
      if (c =? 101) || (c =? 69) then
        let '(neg, s2) :=
          match s1 with
          | 45 :: s2 => (true, s2)
          | 43 :: s2 => (false, s2)
          | _ => (false, s1)
          end in
        let '(x, n, s3) := scan_digits 10 0 0 s2 in
        match n with
        | O => None
        | _ => Some (if neg then (- Z.of_N x)%Z else Z.of_N x, s3)
        end
      else Some (0%Z, s)
  | [] => Some (0%Z, s)
  end.

(** StrUnsignedDecimalLiteral other than [Infinity]. *)
Definition unsigned_decimal (neg : bool) (s : jsstring) : double :=
  let '(i, ni, s1) := scan_digits 10 0 0 s in
  let '(d, nf, s2) :=
    match s1 with
    | 46 :: s1' => scan_digits 10 i 0 s1'
    | _ => (i, O, s1)
    end in
  match (ni + nf)%nat with
  | O => NaN
  | _ =>
      match scan_exponent s2 with
      | Some (x, []) => of_decimal neg d (x - Z.of_nat nf)
      | _ => NaN
      end
  end.

Definition signed_decimal (neg : bool) (s : jsstring) : double :=
  if JSString.eqb s (lit "Infinity") then Inf neg else unsigned_decimal neg s.

Definition radix_literal (base : N) (s : jsstring) : double :=
  match scan_digits base 0 0 s with
  | (_, O, _) => NaN
  | (n, _, []) => of_N n
  | _ => NaN
  end.

Definition StringToNumber (s : jsstring) : double :=
  match trim s with
  | [] => zero false
  | 48 :: 120 :: r | 48 :: 88 :: r => radix_literal 16 r
  | 48 :: 111 :: r | 48 :: 79 :: r => radix_literal 8 r
  | 48 :: 98 :: r | 48 :: 66 :: r => radix_literal 2 r
  | 45 :: r => signed_decimal true r
  | 43 :: r => signed_decimal false r
  | r => signed_decimal false r
  end.

(** ToNumber; an array or object goes through its string form, and throws
    where that throws. *)
Definition ToNumber (v : value) : option double :=
  match v with
  | Undefined => Some NaN
  | Null => Some (zero false)
  | Bool true => Some (of_N 1)
  | Bool false => Some (zero false)
  | Num x => Some x
  | Str s => Some (StringToNumber s)
  | Arr _ | Obj _ => option_map StringToNumber (ToString v)
  end.

End JSValue.

(** ** JSON *)

Module JSON.
Import JSNumber JSValue.

Fixpoint skip_ws (s : jsstring) : jsstring :=
  match s with
  | c :: s' =>
      if (c =? 32) || (c =? 9) || (c =? 10) || (c =? 13) then skip_ws s' else s
  | [] => []
  end.

Definition hex4 (a b c d : N) : option N :=
  match digit_value 16 a, digit_value 16 b, digit_value 16 c, digit_value 16 d with
  | Some x, Some y, Some z, Some w => Some (((x * 16 + y) * 16 + z) * 16 + w)
  | _, _, _, _ => None
  end.

(** The characters of a string after its opening quote, up to the closing
    one. *)
Fixpoint string_body (acc : jsstring) (s : jsstring) : option (jsstring * jsstring) :=
  match s with
  | [] => None
  | c :: r =>
      if c =? 34 then Some (rev acc, r)
      else if c =? 92 then
        match r with
        | [] => None
        | x :: r1 =>
            let simple (u : N) := string_body (u :: acc) r1 in
            if (x =? 34) || (x =? 92) || (x =? 47) then simple x
            else if x =? 98 then simple 8
            else if x =? 102 then simple 12
            else if x =? 110 then simple 10
            else if x =? 114 then simple 13
            else if x =? 116 then simple 9
            else if x =? 117 then
              match r1 with
              | h1 :: h2 :: h3 :: h4 :: r2 =>
                  match hex4 h1 h2 h3 h4 with
                  | Some u => string_body (u :: acc) r2
                  | None => None
                  end
              | _ => None
              end
            else None
        end
      else if c <? 32 then None
      else string_body (c :: acc) r
  end.

(** A number: an optional minus sign; a zero, or digits that do not start
    with a zero; an optional fraction, a point and digits; an optional
    exponent. *)
Definition number (s : jsstring) : option (value * jsstring) :=
  let '(neg, s0) := match s with c :: r => if c =? 45 then (true, r) else (false, s) | [] => (false, s) end in
  let int :=
    match s0 with
    | c :: r =>
        if c =? 48 then Some (0, r)
        else match scan_digits 10 0 0 s0 with
             | (_, O, _) => None
             | (i, _, r') => Some (i, r')
             end
    | [] => None
    end in
  match int with
  | None => None
  | Some (i, s1) =>
      let frac :=
        match s1 with
        | c :: r =>
            if c =? 46 then
              match scan_digits 10 i 0 r with
              | (_, O, _) => None
              | (d, nf, r') => Some (d, nf, r')
              end
            else Some (i, O, s1)
        | [] => Some (i, O, s1)
        end in
      match frac with
      | None => None
      | Some (d, nf, s2) =>
          match scan_exponent s2 with
          | Some (x, s3) => Some (Num (of_decimal neg d (x - Z.of_nat nf)), s3)
          | None => None
          end
      end
  end.

(** An array index: the canonical decimal form of an integer below
    [2^32 - 1]. Such keys come first in an object, in ascending order. *)
Definition array_index (k : jsstring) : option N :=
  match scan_digits 10 0 0 k with
  | (n, S _, []) =>
      if JSString.eqb (digits n) k && (n <? 4294967295) then Some n else None
  | _ => None
  end.

Fixpoint replace_field (k : jsstring) (v : value) (fields : list (jsstring * value))
  : option (list (jsstring * value)) :=
  match fields with
  | [] => None
  | (k', v') :: rest =>
      if JSString.eqb k' k then Some ((k, v) :: rest)
      else match replace_field k v rest with
           | Some rest' => Some ((k', v') :: rest')
           | None => None
           end
  end.

Fixpoint insert_index (i : N) (k : jsstring) (v : value)
  (fields : list (jsstring * value)) : list (jsstring * value) :=
  match fields with
  | [] => [(k, v)]
  | (k', v') :: rest =>
      match array_index k' with
      | Some j => if i <? j then (k, v) :: fields else (k', v') :: insert_index i k v rest
      | None => (k, v) :: fields
      end
  end.

(** CreateDataProperty on an ordinary object: a repeated key keeps its place
    and takes the new value. *)
Definition define (k : jsstring) (v : value) (fields : list (jsstring * value))
  : list (jsstring * value) :=
  match replace_field k v fields with
  | Some fields' => fields'
  | None =>
      match array_index k with
      | Some i => insert_index i k v fields
      | None => fields ++ [(k, v)]
      end
  end.

(** A reader that gives back less than it was given; two readers that agree
    on the texts of length [n] at most. *)
Definition consuming (p : jsstring -> option (value * jsstring)) : Prop :=
  forall s v r, p s = Some (v, r) -> (length r < length s)%nat.

Definition agree (n : nat) (p q : jsstring -> option (value * jsstring)) : Prop :=
  forall s, (length s <= n)%nat -> p s = q s.

(** The rest of an array after its opening bracket, each element read by
    [value_at]; [first] says that the closing bracket may come at once, and
    [acc] holds the elements read so far, last first. *)
Fixpoint elements (value_at : jsstring -> option (value * jsstring))
  (fuel : nat) (first : bool) (acc : list value) (s : jsstring)
  : option (value * jsstring) :=
  match fuel with
  | O => None
  | S fuel' =>
      match skip_ws s with
      | c :: r =>
          if (c =? 93) && first then Some (Arr [], r)
          else
            match value_at (c :: r) with
            | None => None
            | Some (v, s1) =>
                match skip_ws s1 with
                | d :: r1 =>
                    if d =? 44 then elements value_at fuel' false (v :: acc) r1
                    else if d =? 93 then Some (Arr (rev (v :: acc)), r1)
                    else None
                | [] => None
                end
            end
      | [] => None
      end
  end.

(** The rest of an object after its opening brace. *)
Fixpoint members (value_at : jsstring -> option (value * jsstring))
  (fuel : nat) (first : bool) (acc : list (jsstring * value)) (s : jsstring)
  : option (value * jsstring) :=
  match fuel with
  | O => None
  | S fuel' =>
      match skip_ws s with
      | c :: r =>
          if (c =? 125) && first then Some (Obj [], r)
          else if c =? 34 then
            match string_body [] r with
            | None => None
            | Some (k, s1) =>
                match skip_ws s1 with
                | d :: r1 =>
                    if d =? 58 then
                      match value_at r1 with
                      | None => None
                      | Some (v, s2) =>
                          match skip_ws s2 with
                          | x :: r2 =>
                              if x =? 44
                              then members value_at fuel' false (define k v acc) r2
                              else if x =? 125 then Some (Obj (define k v acc), r2)
                              else None
                          | [] => None
                          end
                      end
                    else None
                | [] => None
                end
            end
          else None
      | [] => None
      end
  end.

(** One of the three literal names. *)
Definition literal (s : jsstring) : option (value * jsstring) :=
  if startsWith (lit "true") s then Some (Bool true, skipn 4 s)
  else if startsWith (lit "false") s then Some (Bool false, skipn 5 s)
  else if startsWith (lit "null") s then Some (Null, skipn 4 s)
  else None.

(** One JSON value at the head of [s], after white space. The fuel bounds
    the depth of nesting and the number of elements; any fuel above the
    length of [s] gives the same result ([JSONFacts.parse_value_fuel]). *)
Fixpoint parse_value (fuel : nat) (s : jsstring) : option (value * jsstring) :=
  match fuel with
  | O => None
  | S fuel' =>
      match skip_ws s with
      | [] => None
      | c :: r =>
          if c =? 123 then members (parse_value fuel') fuel' true [] r
          else if c =? 91 then elements (parse_value fuel') fuel' true [] r
          else if c =? 34 then
            match string_body [] r with
            | Some (str, r') => Some (Str str, r')
            | None => None
            end
          else
            match literal (c :: r) with
            | Some found => Some found
            | None => number (c :: r)
            end
      end
  end.

(** [JSON.parse(text)] on a string: [None] is the SyntaxError. *)
Definition parse_text (s : jsstring) : option value :=
  match parse_value (S (length s)) s with
  | Some (v, rest) => match skip_ws rest with [] => Some v | _ => None end
  | None => None
  end.

(** [JSON.parse(v)]: the argument is first converted to a string; [None]
    is the TypeError of the conversion or the SyntaxError of the text. *)
Definition parse (v : value) : option value :=
  match ToString v with
  | Some s => parse_text s
  | None => None
  end.

(** *** JSON.stringify *)

Definition hex_digit (n : N) : N := if n <? 10 then 48 + n else 87 + n.

Definition backslash : N := 92.

(** A backslash, [u] and four lower-case hexadecimal digits. *)
Definition unicode_escape (c : N) : jsstring :=
  [backslash; 117; hex_digit (c / 4096 mod 16); hex_digit (c / 256 mod 16);
   hex_digit (c / 16 mod 16); hex_digit (c mod 16)].

Definition is_high_surrogate (c : N) : bool := (55296 <=? c) && (c <=? 56319).
Definition is_low_surrogate (c : N) : bool := (56320 <=? c) && (c <=? 57343).

(** The characters of QuoteJSONString: control characters and lone
    surrogates are escaped, a surrogate pair is kept. *)
Fixpoint quote_body (s : jsstring) : jsstring :=
  match s with
  | [] => []
  | c :: r =>
      if c =? 8 then backslash :: 98 :: quote_body r
      else if c =? 9 then backslash :: 116 :: quote_body r
      else if c =? 10 then backslash :: 110 :: quote_body r
      else if c =? 12 then backslash :: 102 :: quote_body r
      else if c =? 13 then backslash :: 114 :: quote_body r
      else if c =? 34 then backslash :: 34 :: quote_body r
      else if c =? 92 then backslash :: 92 :: quote_body r
      else if c <? 32 then unicode_escape c ++ quote_body r
      else if is_high_surrogate c then
        match r with
        | d :: r' =>
            if is_low_surrogate d then c :: d :: quote_body r'
            else unicode_escape c ++ quote_body r
        | [] => unicode_escape c
        end
      else if is_low_surrogate c then unicode_escape c ++ quote_body r
      else c :: quote_body r
  end.

Definition quote (s : jsstring) : jsstring := [34] ++ quote_body s ++ [34].

Fixpoint join (sep : jsstring) (parts : list jsstring) : jsstring :=
  match parts with
  | [] => []
  | [x] => x
  | x :: rest => x ++ sep ++ join sep rest
  end.

(** SerializeJSONProperty without replacer or indentation; [None] is
    [undefined]. An [undefined] array element is written [null], an
    [undefined] property is left out, a number that is not finite is
    [null]. *)
Fixpoint serialize (v : value) : option jsstring :=
  match v with
  | Undefined => None
  | Null => Some (lit "null")
  | Bool true => Some (lit "true")
  | Bool false => Some (lit "false")
  | Num (Fin _ _ _ as x) => Some (JSNumber.toString x)
  | Num _ => Some (lit "null")
  | Str s => Some (quote s)
  | Arr items =>
      let element x :=
        match serialize x with Some t => t | None => lit "null" end in
      Some (lit "[" ++
            join (lit ",")
              ((fix each (l : list value) : list jsstring :=
                  match l with
                  | [] => []
                  | x :: rest => element x :: each rest
                  end) items) ++
            lit "]")
  | Obj fields =>
      Some (lit "{" ++
            join (lit ",")
              ((fix each (l : list (jsstring * value)) : list jsstring :=
                  match l with
                  | [] => []
                  | (k, x) :: rest =>
                      match serialize x with
                      | Some t => (quote k ++ lit ":" ++ t) :: each rest
                      | None => each rest
                      end
                  end) fields) ++
            lit "}")
  end.

(** [JSON.stringify(v)] as a JavaScript value: a string, or [undefined]. *)
Definition stringify (v : value) : value :=
  match serialize v with
  | Some s => Str s
  | None => Undefined
  end.

End JSON.

(** ** TextDecoder *)

(** The UTF-8 decoder of the Encoding standard, as [new TextDecoder()] makes
    it (replacement on error, byte order mark stripped), fed with
    [decode(chunk, { stream: true })]: the decoder reads one byte at a time
    and keeps its state between calls, and the end of a chunk is not the end
    of the stream. *)
Module TextDecoder.

Record decoder : Type := {
  code_point : N;
  bytes_seen : N;
  bytes_needed : N;
  lower_boundary : N;
  upper_boundary : N;
  BOM_seen : bool
}.

Definition fresh : decoder :=
  {| code_point := 0; bytes_seen := 0; bytes_needed := 0;
     lower_boundary := 128; upper_boundary := 191; BOM_seen := false |}.

Definition reset (d : decoder) : decoder :=
  {| code_point := 0; bytes_seen := 0; bytes_needed := 0;
     lower_boundary := 128; upper_boundary := 191; BOM_seen := BOM_seen d |}.

Definition expect (d : decoder) (needed lower upper cp : N) : decoder :=
  {| code_point := cp; bytes_seen := 0; bytes_needed := needed;
     lower_boundary := lower; upper_boundary := upper; BOM_seen := BOM_seen d |}.

(** The handler on a lead byte: the decoder's next state and the code points
    it emits. *)
Definition lead (d : decoder) (b : N) : decoder * list N :=
  if b <=? 127 then (d, [b])
  else if (194 <=? b) && (b <=? 223) then (expect d 1 128 191 (N.land b 31), [])
  else if (224 <=? b) && (b <=? 239) then
    (expect d 2 (if b =? 224 then 160 else 128) (if b =? 237 then 159 else 191)
       (N.land b 15), [])
  else if (240 <=? b) && (b <=? 244) then
    (expect d 3 (if b =? 240 then 144 else 128) (if b =? 244 then 143 else 191)
       (N.land b 7), [])
  else (d, [65533]).

(** The handler on any byte. A byte that cannot continue the sequence under
    way ends it with U+FFFD and is read again as a lead byte. *)
Definition handler (d : decoder) (b : N) : decoder * list N :=
  if bytes_needed d =? 0 then lead d b
  else if (b <? lower_boundary d) || (upper_boundary d <? b) then
    let '(d', out) := lead (reset d) b in (d', 65533 :: out)
  else
    let cp := N.lor (N.shiftl (code_point d) 6) (N.land b 63) in
    let seen := bytes_seen d + 1 in
    if seen =? bytes_needed d then (reset d, [cp])
    else ({| code_point := cp; bytes_seen := seen; bytes_needed := bytes_needed d;
             lower_boundary := 128; upper_boundary := 191;
             BOM_seen := BOM_seen d |}, []).

(** A code point as UTF-16 code units. *)
Definition code_units (cp : N) : jsstring :=
  if cp <? 65536 then [cp]
  else let c := cp - 65536 in [55296 + N.shiftr c 10; 56320 + N.land c 1023].

(** Output of code points: the first one of the stream is dropped when it is
    the byte order mark. *)
Fixpoint emit (d : decoder) (cps : list N) : decoder * jsstring :=
  match cps with
  | [] => (d, [])
  | cp :: rest =>
      let d1 :=
        {| code_point := code_point d; bytes_seen := bytes_seen d;
           bytes_needed := bytes_needed d; lower_boundary := lower_boundary d;
           upper_boundary := upper_boundary d; BOM_seen := true |} in
      let '(d2, out) := emit d1 rest in
      if negb (BOM_seen d) && (cp =? 65279) then (d2, out)
      else (d2, code_units cp ++ out)
  end.

Definition step (d : decoder) (b : byte) : decoder * jsstring :=
  let '(d1, cps) := handler d (Byte.to_N b) in emit d1 cps.

(** [decoder.decode(chunk, { stream: true })] *)
Fixpoint decode (d : decoder) (chunk : list byte) : decoder * jsstring :=
  match chunk with
  | [] => (d, [])
  | b :: rest =>
      let '(d1, out1) := step d b in
      let '(d2, out2) := decode d1 rest in
      (d2, out1 ++ out2)
  end.

End TextDecoder.

(** ** The chat view *)

Module ChatView.
Import JSNumber JSValue.

(** *** Data *)

Module Message.
Inductive Role : Type := user | assistant.

(** [created_at] is the time value of [new Date()], in milliseconds; the
    source stores its ISO 8601 text, which determines it. [token_usage] is
    a string or [null]. *)
Record t : Type := {
  id : jsstring;
  session_id : jsstring;
  role : Role;
  content : jsstring;
  created_at : N;
  token_usage : value
}.
End Message.

Module ToolUseInfo.
Record t : Type := { id : value; name : value; input : value }.
End ToolUseInfo.

Module ToolResultInfo.
Record t : Type := { tool_use_id : value; content : value }.
End ToolResultInfo.

(** The argument of [handlePermissionResponse]. *)
Module Decision.
Inductive t : Type := allow | allow_session | deny.
End Decision.

(** The state [permissionResolved], when it is not [null]. *)
Module Resolved.
Inductive t : Type := allow | deny.
End Resolved.

Inductive AbortController : Type := controller.

(** What a rejected promise of the turn carries: the DOMException named
    AbortError, another Error with its message, or a value that is not an
    Error. *)
Inductive Thrown : Type :=
| AbortError
| Error (message : jsstring)
| NotAnError.

(** The [await] at which the running [sendMessage] call is suspended. *)
Inductive Await : Type := fetch_response | response_json | reader_read.

(** The local variables of the running [sendMessage] call. *)
Record Turn : Type := {
  awaiting : Await;
  accumulated : jsstring;
  tokenUsage : value;
  buffer : jsstring;
  decoder : TextDecoder.decoder
}.

(** The two callbacks given to [setTimeout]. *)
Inductive Callback : Type := clear_status | clear_permission.

Record Timer : Type := { due : N; callback : Callback }.

(** A call of [fetch]: the address, the method, the body. *)
Record Request : Type := { url : jsstring; method : jsstring; body : value }.

(** The component: its props, its [useState] cells, its refs, what it keeps in
    the panel context, the [sendMessage] call in flight, and its
    surroundings (the clock, the pending timers, the requests issued so far,
    the permission requests not yet settled). Every handler runs against the
    state of the latest render, and every update is rendered before the next
    event is delivered.

    [mounted] turns false when a state updater throws while React renders,
    which unmounts the component: from then on no update has any effect and
    the other fields describe nothing on screen. *)
Record State : Type := {
  sessionId : jsstring;
  messages : list Message.t;
  streamingContent : jsstring;
  isStreaming : bool;
  toolUses : list ToolUseInfo.t;
  toolResults : list ToolResultInfo.t;
  statusText : value;
  mode : jsstring;
  currentModel : jsstring;
  pendingPermission : value;
  permissionResolved : option Resolved.t;
  streamingToolOutput : jsstring;
  abortControllerRef : option AbortController;
  accumulatedRef : jsstring;
  initializedRef : bool;
  streamingSessionId : jsstring;
  pendingApprovalSessionId : jsstring;
  turn : option Turn;
  clock : N;
  timers : list Timer;
  fetches : list Request;
  permissionFetches : nat;
  mounted : bool
}.

Definition setMessages (x : list Message.t) (s : State) : State :=
  {| sessionId := sessionId s; messages := x;
     streamingContent := streamingContent s; isStreaming := isStreaming s;
     toolUses := toolUses s; toolResults := toolResults s;
     statusText := statusText s; mode := mode s;
     currentModel := currentModel s;
     pendingPermission := pendingPermission s;
     permissionResolved := permissionResolved s;
     streamingToolOutput := streamingToolOutput s;
     abortControllerRef := abortControllerRef s;
     accumulatedRef := accumulatedRef s;
     initializedRef := initializedRef s;
     streamingSessionId := streamingSessionId s;
     pendingApprovalSessionId := pendingApprovalSessionId s; turn := turn s;
     clock := clock s; timers := timers s; fetches := fetches s;
     permissionFetches := permissionFetches s; mounted := mounted s |}.

Definition setStreamingContent (x : jsstring) (s : State) : State :=
  {| sessionId := sessionId s; messages := messages s; streamingContent := x;
     isStreaming := isStreaming s; toolUses := toolUses s;
     toolResults := toolResults s; statusText := statusText s;
     mode := mode s; currentModel := currentModel s;
     pendingPermission := pendingPermission s;
     permissionResolved := permissionResolved s;
     streamingToolOutput := streamingToolOutput s;
     abortControllerRef := abortControllerRef s;
     accumulatedRef := accumulatedRef s;
     initializedRef := initializedRef s;
     streamingSessionId := streamingSessionId s;
     pendingApprovalSessionId := pendingApprovalSessionId s; turn := turn s;
     clock := clock s; timers := timers s; fetches := fetches s;
     permissionFetches := permissionFetches s; mounted := mounted s |}.

Definition setIsStreaming (x : bool) (s : State) : State :=
  {| sessionId := sessionId s; messages := messages s;
     streamingContent := streamingContent s; isStreaming := x;
     toolUses := toolUses s; toolResults := toolResults s;
     statusText := statusText s; mode := mode s;
     currentModel := currentModel s;
     pendingPermission := pendingPermission s;
     permissionResolved := permissionResolved s;
     streamingToolOutput := streamingToolOutput s;
     abortControllerRef := abortControllerRef s;
     accumulatedRef := accumulatedRef s;
     initializedRef := initializedRef s;
     streamingSessionId := streamingSessionId s;
     pendingApprovalSessionId := pendingApprovalSessionId s; turn := turn s;
     clock := clock s; timers := timers s; fetches := fetches s;
     permissionFetches := permissionFetches s; mounted := mounted s |}.

Definition setToolUses (x : list ToolUseInfo.t) (s : State) : State :=
  {| sessionId := sessionId s; messages := messages s;
     streamingContent := streamingContent s; isStreaming := isStreaming s;
     toolUses := x; toolResults := toolResults s; statusText := statusText s;
     mode := mode s; currentModel := currentModel s;
     pendingPermission := pendingPermission s;
     permissionResolved := permissionResolved s;
     streamingToolOutput := streamingToolOutput s;
     abortControllerRef := abortControllerRef s;
     accumulatedRef := accumulatedRef s;
     initializedRef := initializedRef s;
     streamingSessionId := streamingSessionId s;
     pendingApprovalSessionId := pendingApprovalSessionId s; turn := turn s;
     clock := clock s; timers := timers s; fetches := fetches s;
     permissionFetches := permissionFetches s; mounted := mounted s |}.

Definition setToolResults (x : list ToolResultInfo.t) (s : State) : State :=
  {| sessionId := sessionId s; messages := messages s;
     streamingContent := streamingContent s; isStreaming := isStreaming s;
     toolUses := toolUses s; toolResults := x; statusText := statusText s;
     mode := mode s; currentModel := currentModel s;
     pendingPermission := pendingPermission s;
     permissionResolved := permissionResolved s;
     streamingToolOutput := streamingToolOutput s;
     abortControllerRef := abortControllerRef s;
     accumulatedRef := accumulatedRef s;
     initializedRef := initializedRef s;
     streamingSessionId := streamingSessionId s;
     pendingApprovalSessionId := pendingApprovalSessionId s; turn := turn s;
     clock := clock s; timers := timers s; fetches := fetches s;
     permissionFetches := permissionFetches s; mounted := mounted s |}.

Definition setStatusText (x : value) (s : State) : State :=
  {| sessionId := sessionId s; messages := messages s;
     streamingContent := streamingContent s; isStreaming := isStreaming s;
     toolUses := toolUses s; toolResults := toolResults s; statusText := x;
     mode := mode s; currentModel := currentModel s;
     pendingPermission := pendingPermission s;
     permissionResolved := permissionResolved s;
     streamingToolOutput := streamingToolOutput s;
     abortControllerRef := abortControllerRef s;
     accumulatedRef := accumulatedRef s;
     initializedRef := initializedRef s;
     streamingSessionId := streamingSessionId s;
     pendingApprovalSessionId := pendingApprovalSessionId s; turn := turn s;
     clock := clock s; timers := timers s; fetches := fetches s;
     permissionFetches := permissionFetches s; mounted := mounted s |}.

Definition setPendingPermission (x : value) (s : State) : State :=
  {| sessionId := sessionId s; messages := messages s;
     streamingContent := streamingContent s; isStreaming := isStreaming s;
     toolUses := toolUses s; toolResults := toolResults s;
     statusText := statusText s; mode := mode s;
     currentModel := currentModel s; pendingPermission := x;
     permissionResolved := permissionResolved s;
     streamingToolOutput := streamingToolOutput s;
     abortControllerRef := abortControllerRef s;
     accumulatedRef := accumulatedRef s;
     initializedRef := initializedRef s;
     streamingSessionId := streamingSessionId s;
     pendingApprovalSessionId := pendingApprovalSessionId s; turn := turn s;
     clock := clock s; timers := timers s; fetches := fetches s;
     permissionFetches := permissionFetches s; mounted := mounted s |}.

Definition setPermissionResolved (x : option Resolved.t) (s : State) : State :=
  {| sessionId := sessionId s; messages := messages s;
     streamingContent := streamingContent s; isStreaming := isStreaming s;
     toolUses := toolUses s; toolResults := toolResults s;
     statusText := statusText s; mode := mode s;
     currentModel := currentModel s;
     pendingPermission := pendingPermission s; permissionResolved := x;
     streamingToolOutput := streamingToolOutput s;
     abortControllerRef := abortControllerRef s;
     accumulatedRef := accumulatedRef s;
     initializedRef := initializedRef s;
     streamingSessionId := streamingSessionId s;
     pendingApprovalSessionId := pendingApprovalSessionId s; turn := turn s;
     clock := clock s; timers := timers s; fetches := fetches s;
     permissionFetches := permissionFetches s; mounted := mounted s |}.

Definition setStreamingToolOutput (x : jsstring) (s : State) : State :=
  {| sessionId := sessionId s; messages := messages s;
     streamingContent := streamingContent s; isStreaming := isStreaming s;
     toolUses := toolUses s; toolResults := toolResults s;
     statusText := statusText s; mode := mode s;
     currentModel := currentModel s;
     pendingPermission := pendingPermission s;
     permissionResolved := permissionResolved s; streamingToolOutput := x;
     abortControllerRef := abortControllerRef s;
     accumulatedRef := accumulatedRef s;
     initializedRef := initializedRef s;
     streamingSessionId := streamingSessionId s;
     pendingApprovalSessionId := pendingApprovalSessionId s; turn := turn s;
     clock := clock s; timers := timers s; fetches := fetches s;
     permissionFetches := permissionFetches s; mounted := mounted s |}.

Definition set_abortControllerRef (x : option AbortController) (s : State) : State :=
  {| sessionId := sessionId s; messages := messages s;
     streamingContent := streamingContent s; isStreaming := isStreaming s;
     toolUses := toolUses s; toolResults := toolResults s;
     statusText := statusText s; mode := mode s;
     currentModel := currentModel s;
     pendingPermission := pendingPermission s;
     permissionResolved := permissionResolved s;
     streamingToolOutput := streamingToolOutput s; abortControllerRef := x;
     accumulatedRef := accumulatedRef s;
     initializedRef := initializedRef s;
     streamingSessionId := streamingSessionId s;
     pendingApprovalSessionId := pendingApprovalSessionId s; turn := turn s;
     clock := clock s; timers := timers s; fetches := fetches s;
     permissionFetches := permissionFetches s; mounted := mounted s |}.

Definition set_accumulatedRef (x : jsstring) (s : State) : State :=
  {| sessionId := sessionId s; messages := messages s;
     streamingContent := streamingContent s; isStreaming := isStreaming s;
     toolUses := toolUses s; toolResults := toolResults s;
     statusText := statusText s; mode := mode s;
     currentModel := currentModel s;
     pendingPermission := pendingPermission s;
     permissionResolved := permissionResolved s;
     streamingToolOutput := streamingToolOutput s;
     abortControllerRef := abortControllerRef s; accumulatedRef := x;
     initializedRef := initializedRef s;
     streamingSessionId := streamingSessionId s;
     pendingApprovalSessionId := pendingApprovalSessionId s; turn := turn s;
     clock := clock s; timers := timers s; fetches := fetches s;
     permissionFetches := permissionFetches s; mounted := mounted s |}.

Definition setStreamingSessionId (x : jsstring) (s : State) : State :=
  {| sessionId := sessionId s; messages := messages s;
     streamingContent := streamingContent s; isStreaming := isStreaming s;
     toolUses := toolUses s; toolResults := toolResults s;
     statusText := statusText s; mode := mode s;
     currentModel := currentModel s;
     pendingPermission := pendingPermission s;
     permissionResolved := permissionResolved s;
     streamingToolOutput := streamingToolOutput s;
     abortControllerRef := abortControllerRef s;
     accumulatedRef := accumulatedRef s;
     initializedRef := initializedRef s; streamingSessionId := x;
     pendingApprovalSessionId := pendingApprovalSessionId s; turn := turn s;
     clock := clock s; timers := timers s; fetches := fetches s;
     permissionFetches := permissionFetches s; mounted := mounted s |}.

Definition setPendingApprovalSessionId (x : jsstring) (s : State) : State :=
  {| sessionId := sessionId s; messages := messages s;
     streamingContent := streamingContent s; isStreaming := isStreaming s;
     toolUses := toolUses s; toolResults := toolResults s;
     statusText := statusText s; mode := mode s;
     currentModel := currentModel s;
     pendingPermission := pendingPermission s;
     permissionResolved := permissionResolved s;
     streamingToolOutput := streamingToolOutput s;
     abortControllerRef := abortControllerRef s;
     accumulatedRef := accumulatedRef s;
     initializedRef := initializedRef s;
     streamingSessionId := streamingSessionId s;
     pendingApprovalSessionId := x; turn := turn s; clock := clock s;
     timers := timers s; fetches := fetches s;
     permissionFetches := permissionFetches s; mounted := mounted s |}.

Definition set_turn (x : option Turn) (s : State) : State :=
  {| sessionId := sessionId s; messages := messages s;
     streamingContent := streamingContent s; isStreaming := isStreaming s;
     toolUses := toolUses s; toolResults := toolResults s;
     statusText := statusText s; mode := mode s;
     currentModel := currentModel s;
     pendingPermission := pendingPermission s;
     permissionResolved := permissionResolved s;
     streamingToolOutput := streamingToolOutput s;
     abortControllerRef := abortControllerRef s;
     accumulatedRef := accumulatedRef s;
     initializedRef := initializedRef s;
     streamingSessionId := streamingSessionId s;
     pendingApprovalSessionId := pendingApprovalSessionId s; turn := x;
     clock := clock s; timers := timers s; fetches := fetches s;
     permissionFetches := permissionFetches s; mounted := mounted s |}.

Definition set_clock (x : N) (s : State) : State :=
  {| sessionId := sessionId s; messages := messages s;
     streamingContent := streamingContent s; isStreaming := isStreaming s;
     toolUses := toolUses s; toolResults := toolResults s;
     statusText := statusText s; mode := mode s;
     currentModel := currentModel s;
     pendingPermission := pendingPermission s;
     permissionResolved := permissionResolved s;
     streamingToolOutput := streamingToolOutput s;
     abortControllerRef := abortControllerRef s;
     accumulatedRef := accumulatedRef s;
     initializedRef := initializedRef s;
     streamingSessionId := streamingSessionId s;
     pendingApprovalSessionId := pendingApprovalSessionId s; turn := turn s;
     clock := x; timers := timers s; fetches := fetches s;
     permissionFetches := permissionFetches s; mounted := mounted s |}.

Definition set_timers (x : list Timer) (s : State) : State :=
  {| sessionId := sessionId s; messages := messages s;
     streamingContent := streamingContent s; isStreaming := isStreaming s;
     toolUses := toolUses s; toolResults := toolResults s;
     statusText := statusText s; mode := mode s;
     currentModel := currentModel s;
     pendingPermission := pendingPermission s;
     permissionResolved := permissionResolved s;
     streamingToolOutput := streamingToolOutput s;
     abortControllerRef := abortControllerRef s;
     accumulatedRef := accumulatedRef s;
     initializedRef := initializedRef s;
     streamingSessionId := streamingSessionId s;
     pendingApprovalSessionId := pendingApprovalSessionId s; turn := turn s;
     clock := clock s; timers := x; fetches := fetches s;
     permissionFetches := permissionFetches s; mounted := mounted s |}.

Definition set_fetches (x : list Request) (s : State) : State :=
  {| sessionId := sessionId s; messages := messages s;
     streamingContent := streamingContent s; isStreaming := isStreaming s;
     toolUses := toolUses s; toolResults := toolResults s;
     statusText := statusText s; mode := mode s;
     currentModel := currentModel s;
     pendingPermission := pendingPermission s;
     permissionResolved := permissionResolved s;
     streamingToolOutput := streamingToolOutput s;
     abortControllerRef := abortControllerRef s;
     accumulatedRef := accumulatedRef s;
     initializedRef := initializedRef s;
     streamingSessionId := streamingSessionId s;
     pendingApprovalSessionId := pendingApprovalSessionId s; turn := turn s;
     clock := clock s; timers := timers s; fetches := x;
     permissionFetches := permissionFetches s; mounted := mounted s |}.

Definition set_permissionFetches (x : nat) (s : State) : State :=
  {| sessionId := sessionId s; messages := messages s;
     streamingContent := streamingContent s; isStreaming := isStreaming s;
     toolUses := toolUses s; toolResults := toolResults s;
     statusText := statusText s; mode := mode s;
     currentModel := currentModel s;
     pendingPermission := pendingPermission s;
     permissionResolved := permissionResolved s;
     streamingToolOutput := streamingToolOutput s;
     abortControllerRef := abortControllerRef s;
     accumulatedRef := accumulatedRef s;
     initializedRef := initializedRef s;
     streamingSessionId := streamingSessionId s;
     pendingApprovalSessionId := pendingApprovalSessionId s; turn := turn s;
     clock := clock s; timers := timers s; fetches := fetches s;
     permissionFetches := x; mounted := mounted s |}.

Definition set_initializedRef (x : bool) (s : State) : State :=
  {| sessionId := sessionId s; messages := messages s;
     streamingContent := streamingContent s; isStreaming := isStreaming s;
     toolUses := toolUses s; toolResults := toolResults s;
     statusText := statusText s; mode := mode s;
     currentModel := currentModel s;
     pendingPermission := pendingPermission s;
     permissionResolved := permissionResolved s;
     streamingToolOutput := streamingToolOutput s;
     abortControllerRef := abortControllerRef s;
     accumulatedRef := accumulatedRef s; initializedRef := x;
     streamingSessionId := streamingSessionId s;
     pendingApprovalSessionId := pendingApprovalSessionId s; turn := turn s;
     clock := clock s; timers := timers s; fetches := fetches s;
     permissionFetches := permissionFetches s; mounted := mounted s |}.

Definition set_mounted (x : bool) (s : State) : State :=
  {| sessionId := sessionId s; messages := messages s;
     streamingContent := streamingContent s; isStreaming := isStreaming s;
     toolUses := toolUses s; toolResults := toolResults s;
     statusText := statusText s; mode := mode s;
     currentModel := currentModel s;
     pendingPermission := pendingPermission s;
     permissionResolved := permissionResolved s;
     streamingToolOutput := streamingToolOutput s;
     abortControllerRef := abortControllerRef s;
     accumulatedRef := accumulatedRef s;
     initializedRef := initializedRef s;
     streamingSessionId := streamingSessionId s;
     pendingApprovalSessionId := pendingApprovalSessionId s; turn := turn s;
     clock := clock s; timers := timers s; fetches := fetches s;
     permissionFetches := permissionFetches s; mounted := x |}.

(** The component once mounted: [useState(initialMessages)],
    [useState(initialMode || 'code')], [useState(modelName || 'sonnet')]; a
    prop left out is [None]. The effects of lines 89-101 have run on the
    props of the first render: they set what the state holds already, and
    [initializedRef.current] when [initialMessages] is not empty. *)
Definition or_default (prop : option jsstring) (default : string) : jsstring :=
  match prop with
  | Some (c :: rest) => c :: rest
  | _ => lit default
  end.

Definition initial (sessionId : jsstring) (initialMessages : list Message.t)
  (modelName initialMode : option jsstring) (now : N) : State :=
  {| sessionId := sessionId; messages := initialMessages;
     streamingContent := []; isStreaming := false; toolUses := [];
     toolResults := []; statusText := Undefined;
     mode := or_default initialMode "code";
     currentModel := or_default modelName "sonnet";
     pendingPermission := Null; permissionResolved := None;
     streamingToolOutput := []; abortControllerRef := None;
     accumulatedRef := [];
     initializedRef := match initialMessages with [] => false | _ => true end;
     streamingSessionId := [];
     pendingApprovalSessionId := []; turn := None; clock := now;
     timers := []; fetches := []; permissionFetches := 0; mounted := true |}.

(** *** Timers *)

(** Timers are kept in the order in which they fire: by due time, and in the
    order of their [setTimeout] calls when due together. *)
Fixpoint insert_timer (t : Timer) (l : list Timer) : list Timer :=
  match l with
  | [] => [t]
  | t' :: rest =>
      if due t' <=? due t then t' :: insert_timer t rest else t :: l
  end.

(** [setTimeout(callback, delay)] *)
Definition setTimeout (c : Callback) (delay : N) (s : State) : State :=
  set_timers (insert_timer {| due := clock s + delay; callback := c |} (timers s)) s.

(** [() => setStatusText(undefined)] (line 273) and
    [() => { setPendingPermission(null); setPermissionResolved(null); }]
    (lines 137-140). *)
Definition fire (c : Callback) (s : State) : State :=
  match c with
  | clear_status => setStatusText Undefined s
  | clear_permission => setPermissionResolved None (setPendingPermission Null s)
  end.

(** The timers that are due fire, in order; the others stay. *)
Fixpoint expire (l : list Timer) (s : State) : State :=
  match l with
  | [] => s
  | t :: rest =>
      if due t <=? clock s then expire rest (fire (callback t) s) else expire rest s
  end.

Definition pending_at (now : N) (t : Timer) : bool := now <? due t.

(** [ms] milliseconds pass: the timers that come due fire. *)
Definition elapse (ms : N) (s : State) : State :=
  let now := clock s + ms in
  set_timers (filter (pending_at now) (timers s))
    (expire (timers s) (set_clock now s)).

(** [Date.now()] in a template or a concatenation. *)
Definition Date_now (s : State) : jsstring := JSNumber.toString (of_N (clock s)).

(** *** The read loop of [sendMessage] *)

(** The [event.type] values of the [switch] (lines 205-322). *)
Inductive EventType : Type :=
| text | tool_use | tool_result | tool_output | status | result
| permission_request | error | done.

Definition event_types : list (string * EventType) :=
  [("text", text); ("tool_use", tool_use); ("tool_result", tool_result);
   ("tool_output", tool_output); ("status", status); ("result", result);
   ("permission_request", permission_request); ("error", error);
   ("done", done)]%string.

(** The case the [switch] selects, by [===] against each label in turn. *)
Definition switch (type : value) : option EventType :=
  option_map snd
    (find (fun c => strict_eq type (Str (lit (fst c)))) event_types).

Definition with_accumulated (x : jsstring) (t : Turn) : Turn :=
  {| awaiting := awaiting t; accumulated := x; tokenUsage := tokenUsage t;
     buffer := buffer t; decoder := decoder t |}.

Definition with_tokenUsage (x : value) (t : Turn) : Turn :=
  {| awaiting := awaiting t; accumulated := accumulated t; tokenUsage := x;
     buffer := buffer t; decoder := decoder t |}.

Definition with_awaiting (x : Await) (t : Turn) : Turn :=
  {| awaiting := x; accumulated := accumulated t; tokenUsage := tokenUsage t;
     buffer := buffer t; decoder := decoder t |}.

(** A property of a value that cannot be [null] or [undefined] here. *)
Definition prop (v : value) (key : string) : value :=
  match Get v key with Some x => x | None => Undefined end.

(** Lines 206-211 and 311-316: [accumulated += ...] with its two mirrors. *)
Definition append_text (addition : jsstring) (st : State * Turn) : State * Turn :=
  let '(s, t) := st in
  let acc := accumulated t ++ addition in
  (setStreamingContent acc (set_accumulatedRef acc s), with_accumulated acc t).

(** Lines 218-226, the updater given to [setToolUses]: [None] when it throws
    (reading [toolData.id] of [null]). *)
Definition add_tool_use (toolData : value) (prev : list ToolUseInfo.t)
  : option (list ToolUseInfo.t) :=
  match Get toolData "id" with
  | None => None
  | Some id =>
      if existsb (fun t => strict_eq (ToolUseInfo.id t) id) prev then Some prev
      else Some (prev ++ [{| ToolUseInfo.id := id;
                             ToolUseInfo.name := prop toolData "name";
                             ToolUseInfo.input := prop toolData "input" |}])
  end.

(** Lines 237-240, the updater given to [setToolResults]. *)
Definition add_tool_result (resultData : value) (prev : list ToolResultInfo.t)
  : option (list ToolResultInfo.t) :=
  match Get resultData "tool_use_id" with
  | None => None
  | Some id =>
      Some (prev ++ [{| ToolResultInfo.tool_use_id := id;
                        ToolResultInfo.content := prop resultData "content" |}])
  end.

(** Lines 260-263, the updater given to [setStreamingToolOutput]: [None]
    when it throws (a payload that has no string form). *)
Definition add_tool_output (data : value) (prev : jsstring) : option jsstring :=
  match ToString data with
  | Some payload =>
      let next := prev ++ (match prev with [] => [] | _ => [LF] end) ++ payload in
      Some (if (5000 <? length next)%nat then slice_last 5000 next else next)
  | None => None
  end.

(** Line 253: the status of a progress heartbeat; [None] when the template
    throws, on a [tool_name] or an [elapsed_time_seconds] that has no
    string form. *)
Definition running (parsed : value) : option jsstring :=
  match ToString (prop parsed "tool_name") with
  | Some tool_name =>
      match ToNumber (prop parsed "elapsed_time_seconds") with
      | Some seconds =>
          Some (lit "Running " ++ tool_name ++ lit "... (" ++
                JSNumber.toString (JSNumber.round seconds) ++ lit "s)")
      | None => None
      end
  | None => None
  end.

(** Lines 249-258: the status a [tool_output] payload sets as a progress
    heartbeat, when it parses to a value with a true [_progress]. Whatever
    throws inside the [try], the template of line 253 included, is caught,
    and the payload is then handled as raw output. *)
Definition heartbeat (data : value) : option jsstring :=
  match JSON.parse data with
  | Some parsed =>
      match Get parsed "_progress" with
      | Some p => if truthy p then running parsed else None
      | None => None
      end
  | None => None
  end.

(** Line 272: [None] when the template throws, on a [model] that has no
    string form. *)
Definition connected (statusData : value) : option jsstring :=
  match ToString (or_else (prop statusData "model") (Str (lit "claude"))) with
  | Some model => Some (lit "Connected (" ++ model ++ lit ")")
  | None => None
  end.

(** One case of the [switch], on [event.data]. A concatenation that throws
    in the [text] or the [error] case is caught by the [catch] of line 323
    before anything is assigned; the template of line 272 that throws is
    caught by the [catch] of line 280, before the timer is set; the updater
    of line 260 that throws does so while React renders. *)
Definition fold_event (type : EventType) (data : value) (st : State * Turn)
  : State * Turn :=
  let '(s, t) := st in
  match type with
  | text =>
      match ToString data with
      | Some addition => append_text addition st
      | None => st
      end
  | tool_use =>
      match JSON.parse data with
      | Some toolData =>
          let s1 := setStreamingToolOutput [] s in
          match add_tool_use toolData (toolUses s1) with
          | Some l => (setToolUses l s1, t)
          | None => (set_mounted false s1, t)
          end
      | None => st
      end
  | tool_result =>
      match JSON.parse data with
      | Some resultData =>
          let s1 := setStreamingToolOutput [] s in
          match add_tool_result resultData (toolResults s1) with
          | Some l => (setToolResults l s1, t)
          | None => (set_mounted false s1, t)
          end
      | None => st
      end
  | tool_output =>
      match heartbeat data with
      | Some progress => (setStatusText (Str progress) s, t)
      | None =>
          match add_tool_output data (streamingToolOutput s) with
          | Some next => (setStreamingToolOutput next s, t)
          | None => (set_mounted false s, t)
          end
      end
  | status =>
      let fallback := (setStatusText (or_else data Undefined) s, t) in
      match JSON.parse data with
      | Some statusData =>
          match Get statusData "session_id" with
          | Some session_id =>
              if truthy session_id then
                match connected statusData with
                | Some init =>
                    (setTimeout clear_status 2000 (setStatusText (Str init) s), t)
                | None => fallback
                end
              else if truthy (prop statusData "notification") then
                (setStatusText
                   (or_else (or_else (prop statusData "message")
                                     (prop statusData "title")) Undefined) s, t)
              else (setStatusText (if is_string data then data else Undefined) s, t)
          | None => fallback
          end
      | None => fallback
      end
  | result =>
      let t1 :=
        match JSON.parse data with
        | Some resultData =>
            match Get resultData "usage" with
            | Some usage => if truthy usage then with_tokenUsage usage t else t
            | None => t
            end
        | None => t
        end in
      (setStatusText Undefined s, t1)
  | permission_request =>
      match JSON.parse data with
      | Some permData =>
          (setPendingApprovalSessionId (sessionId s)
             (setPermissionResolved None (setPendingPermission permData s)), t)
      | None => st
      end
  | error =>
      match ToString data with
      | Some message => append_text ([LF; LF] ++ lit "**Error:** " ++ message) st
      | None => st
      end
  | done => st
  end.

(** Line 200: a frame is a line that starts with the marker. *)
Definition is_frame (line : jsstring) : bool := startsWith (lit "data: ") line.

(** Lines 200-325, the body of [for (const line of lines)]: a line that is
    not a frame is skipped; so is a frame whose payload [JSON.parse] rejects,
    or parses to [null] (either throws inside the [try]); a value without a
    [type] the [switch] knows selects no case. *)
Definition handle_line (line : jsstring) (st : State * Turn) : State * Turn :=
  if negb (mounted (fst st)) then st
  else if negb (is_frame line) then st
  else
    match JSON.parse_text (slice_from 6 line) with
    | Some event =>
        match Get event "type" with
        | Some type =>
            match switch type with
            | Some case => fold_event case (prop event "data") st
            | None => st
            end
        | None => st
        end
    | None => st
    end.

(** Lines 194-197: the decoded chunk joins the held-back text, which is split
    at line feeds; the last piece is held back in turn. *)
Definition frame (value : list byte) (t : Turn) : list jsstring * Turn :=
  let '(d, decoded) := TextDecoder.decode (decoder t) value in
  let lines := split_LF (buffer t ++ decoded) in
  (removelast lines,
   {| awaiting := awaiting t; accumulated := accumulated t;
      tokenUsage := tokenUsage t; buffer := last lines []; decoder := d |}).

(** The lines the loop hands to its body over successive chunks, and the
    locals of the framing afterwards. *)
Fixpoint framer (chunks : list (list byte)) (t : Turn) : list jsstring * Turn :=
  match chunks with
  | [] => ([], t)
  | value :: rest =>
      let '(lines, t1) := frame value t in
      let '(more, t2) := framer rest t1 in
      (lines ++ more, t2)
  end.

(** The frames among them, in order. *)
Definition frames (chunks : list (list byte)) (t : Turn) : list jsstring :=
  filter is_frame (fst (framer chunks t)).

(** Lines 186-188: the locals when the loop starts. *)
Definition reading (accumulated : jsstring) : Turn :=
  {| awaiting := reader_read; accumulated := accumulated; tokenUsage := Null;
     buffer := []; decoder := TextDecoder.fresh |}.

(** Lines 194-326: one round of the [while] loop on a chunk. *)
Definition read_chunk (value : list byte) (st : State * Turn) : State * Turn :=
  let '(s, t) := st in
  let '(lines, t1) := frame value t in
  fold_left (fun st line => handle_line line st) lines (s, t1).

(** *** The ends of a turn *)

Definition assistant_message (prefix : string) (content : jsstring)
  (token_usage : value) (s : State) : Message.t :=
  {| Message.id := lit prefix ++ Date_now s;
     Message.session_id := sessionId s;
     Message.role := Message.assistant;
     Message.content := content;
     Message.created_at := clock s;
     Message.token_usage := token_usage |}.

(** Lines 329-340, after the loop: the assistant message, when the trimmed
    text is not empty. *)
Definition commit (t : Turn) (s : State) : State :=
  match trim (accumulated t) with
  | [] => s
  | content =>
      setMessages
        (messages s ++
         [assistant_message "temp-assistant-" content
            (if truthy (tokenUsage t) then JSON.stringify (tokenUsage t) else Null) s])
        s
  end.

Definition generation_stopped : jsstring := [LF; LF] ++ lit "*(generation stopped)*".

(** Lines 341-366, the [catch] block. *)
Definition catch (e : Thrown) (t : Turn) (s : State) : State :=
  match e with
  | AbortError =>
      match trim (accumulated t) with
      | [] => s
      | content =>
          setMessages
            (messages s ++
             [assistant_message "temp-assistant-" (content ++ generation_stopped) Null s])
            s
      end
  | _ =>
      let errMsg :=
        match e with
        | Error message => message
        | _ => lit "Unknown error"
        end in
      setMessages
        (messages s ++
         [assistant_message "temp-error-" (lit "**Error:** " ++ errMsg) Null s])
        s
  end.

(** Lines 367-380, the [finally] block, after which the call returns. *)
Definition finally (s : State) : State :=
  set_turn None
    (set_abortControllerRef None
       (setPendingApprovalSessionId []
          (setPermissionResolved None
             (setPendingPermission Null
                (setStatusText Undefined
                   (setStreamingToolOutput []
                      (setToolResults []
                         (setToolUses []
                            (set_accumulatedRef []
                               (setStreamingContent []
                                  (setStreamingSessionId []
                                     (setIsStreaming false s)))))))))))).

(** The three ways out of the [try]. *)
Definition completes (t : Turn) (s : State) : State := finally (commit t s).
Definition throws (e : Thrown) (t : Turn) (s : State) : State := finally (catch e t s).

(** *** [sendMessage], up to its first [await] (lines 143-176) *)

Definition chat_request (content : jsstring) (s : State) : Request :=
  {| url := lit "/api/chat"; method := lit "POST";
     body := JSON.stringify
               (Obj [(lit "session_id", Str (sessionId s));
                     (lit "content", Str content);
                     (lit "mode", Str (mode s));
                     (lit "model", Str (currentModel s))]) |}.

Definition userMessage (content : jsstring) (s : State) : Message.t :=
  {| Message.id := lit "temp-" ++ Date_now s;
     Message.session_id := sessionId s;
     Message.role := Message.user;
     Message.content := content;
     Message.created_at := clock s;
     Message.token_usage := Null |}.

Definition new_turn : Turn :=
  {| awaiting := fetch_response; accumulated := []; tokenUsage := Null;
     buffer := []; decoder := TextDecoder.fresh |}.

Definition sendMessage (content : jsstring) (s : State) : State :=
  if isStreaming s then s
  else
    set_turn (Some new_turn)
      (set_fetches (fetches s ++ [chat_request content s])
         (set_abortControllerRef (Some controller)
            (setStatusText Undefined
               (setToolResults []
                  (setToolUses []
                     (set_accumulatedRef []
                        (setStreamingContent []
                           (setStreamingSessionId (sessionId s)
                              (setIsStreaming true
                                 (setMessages (messages s ++ [userMessage content s])
                                    s)))))))))).

(** *** The settled promises of the turn *)

Inductive Settled (A : Type) : Type :=
| fulfilled (x : A)
| rejected (e : Thrown).
Arguments fulfilled {A} x.
Arguments rejected {A} e.

(** What the component reads of the Response: [ok], and whether [body] is
    there. *)
Record Response : Type := { ok : bool; has_body : bool }.

(** The result of [reader.read()]: [{ done, value }] *)
Inductive ReadResult : Type :=
| chunk (value : list byte)
| end_of_stream.

(** Lines 171-188: [fetch] has settled. *)
Definition fetch_settled (r : Settled Response) (t : Turn) (s : State) : State :=
  match r with
  | rejected e => throws e t s
  | fulfilled response =>
      if negb (ok response) then set_turn (Some (with_awaiting response_json t)) s
      else if negb (has_body response) then throws (Error (lit "No response stream")) t s
      else set_turn (Some (reading (accumulated t))) s
  end.

(** The message of the TypeError for [err.error] when [err] is [null], in
    the wording of V8. *)
Definition cannot_read_error_of_null : jsstring :=
  lit "Cannot read properties of null (reading 'error')".

(** The message of the TypeError for a value that has no string form, in
    the wording of V8. *)
Definition cannot_convert_to_primitive : jsstring :=
  lit "Cannot convert object to primitive value".

(** Lines 179-180: [response.json()] has settled. [new Error(message)]
    converts its argument to a string. *)
Definition json_settled (r : Settled value) (t : Turn) (s : State) : State :=
  match r with
  | rejected e => throws e t s
  | fulfilled err =>
      match Get err "error" with
      | Some e =>
          match ToString (or_else e (Str (lit "Failed to send message"))) with
          | Some message => throws (Error message) t s
          | None => throws (Error cannot_convert_to_primitive) t s
          end
      | None => throws (Error cannot_read_error_of_null) t s
      end
  end.

(** Lines 191-327: [reader.read()] has settled. *)
Definition read_settled (r : Settled ReadResult) (t : Turn) (s : State) : State :=
  match r with
  | rejected e => throws e t s
  | fulfilled end_of_stream => completes t s
  | fulfilled (chunk value) =>
      let '(s1, t1) := read_chunk value (s, t) in set_turn (Some t1) s1
  end.

(** *** [stopStreaming] (lines 103-106) *)

(** Aborting the controller rejects the promise the turn awaits with an
    AbortError. *)
Definition stopStreaming (s : State) : State :=
  match abortControllerRef s with
  | Some _ =>
      let s1 := set_abortControllerRef None s in
      match turn s1 with
      | Some t => throws AbortError t s1
      | None => s1
      end
  | None => s
  end.

(** *** [handlePermissionResponse] (lines 108-141) *)

Definition permission_body (decision : Decision.t) (pending : value) : value :=
  Obj [(lit "permissionRequestId", prop pending "permissionRequestId");
       (lit "decision",
        match decision with
        | Decision.deny =>
            Obj [(lit "behavior", Str (lit "deny"));
                 (lit "message", Str (lit "User denied permission"))]
        | Decision.allow_session =>
            if truthy (prop pending "suggestions")
            then Obj [(lit "behavior", Str (lit "allow"));
                      (lit "updatedPermissions", prop pending "suggestions")]
            else Obj [(lit "behavior", Str (lit "allow"))]
        | Decision.allow => Obj [(lit "behavior", Str (lit "allow"))]
        end)].

(** Up to the [await] (lines 109-131). *)
Definition handlePermissionResponse (decision : Decision.t) (s : State) : State :=
  if negb (truthy (pendingPermission s)) then s
  else
    set_permissionFetches (S (permissionFetches s))
      (set_fetches
         (fetches s ++
          [{| url := lit "/api/chat/permission"; method := lit "POST";
              body := JSON.stringify (permission_body decision (pendingPermission s)) |}])
         (setPendingApprovalSessionId []
            (setPermissionResolved
               (Some match decision with
                     | Decision.deny => Resolved.deny
                     | _ => Resolved.allow
                     end) s))).

(** After the [await], whether the request was delivered or not
    (lines 132-140). *)
Definition permission_settled (s : State) : State :=
  match permissionFetches s with
  | O => s
  | S n => setTimeout clear_permission 1000 (set_permissionFetches n s)
  end.

(** *** The component as a machine *)

Inductive Event : Type :=
| Send (content : jsstring)
| Stop
| Decide (decision : Decision.t)
| PermissionSettled (delivered : bool)
| FetchSettled (r : Settled Response)
| JsonSettled (r : Settled value)
| ReadSettled (r : Settled ReadResult)
| Elapse (ms : N).

(** An event the state is not waiting for changes nothing. *)
Definition step (s : State) (e : Event) : State :=
  if negb (mounted s) then s
  else
    match e with
    | Send content => sendMessage content s
    | Stop => stopStreaming s
    | Decide decision => handlePermissionResponse decision s
    | PermissionSettled _ => permission_settled s
    | Elapse ms => elapse ms s
    | FetchSettled r =>
        match turn s with
        | Some t =>
            match awaiting t with fetch_response => fetch_settled r t s | _ => s end
        | None => s
        end
    | JsonSettled r =>
        match turn s with
        | Some t =>
            match awaiting t with response_json => json_settled r t s | _ => s end
        | None => s
        end
    | ReadSettled r =>
        match turn s with
        | Some t =>
            match awaiting t with reader_read => read_settled r t s | _ => s end
        | None => s
        end
    end.

Definition run (s : State) (events : list Event) : State := fold_left step events s.

(** *** What the properties speak of *)

(** The turn state is reset: text, invocations, results, live output,
    status. *)
Definition turn_reset (s : State) : Prop :=
  streamingContent s = [] /\ accumulatedRef s = [] /\ toolUses s = [] /\
  toolResults s = [] /\ streamingToolOutput s = [] /\ statusText s = Undefined.

(** The permission gate is idle. *)
Definition gate_idle (s : State) : Prop :=
  pendingPermission s = Null /\ permissionResolved s = None /\
  pendingApprovalSessionId s = [].

(** The state the [finally] block leaves. *)
Definition cleaned (s : State) : Prop :=
  turn_reset s /\ gate_idle s /\ isStreaming s = false /\
  streamingSessionId s = [] /\ abortControllerRef s = None /\ turn s = None.

(** [sendMessage(content)] takes effect in [s]: the user message is appended,
    the request is issued, a turn starts. *)
Definition accepted (content : jsstring) (s : State) : Prop :=
  let s' := step s (Send content) in
  messages s' = messages s ++ [userMessage content s] /\
  fetches s' = fetches s ++ [chat_request content s] /\
  isStreaming s' = true /\ turn s' = Some new_turn.

(** The live turn has ended at this step. *)
Definition exits (s : State) (e : Event) : Prop :=
  turn s <> None /\ turn (step s e) = None.

(** The exits of a turn, as the machine takes them. *)
Inductive leaves (s : State) : State -> Prop :=
| leaves_completes t : leaves s (completes t s)
| leaves_throws e t : leaves s (throws e t s)
| leaves_after_stop e t : leaves s (throws e t (set_abortControllerRef None s)).

(** The text of the turn, in its three copies. *)
Definition same_text (s s' : State) : Prop :=
  streamingContent s' = streamingContent s /\
  accumulatedRef s' = accumulatedRef s /\ turn s' = turn s.

(** The live-output buffer is within its bound. *)
Definition bounded (s : State) : Prop := (length (streamingToolOutput s) <= 5000)%nat.

(** A turn is live exactly while the streaming flag is up, and then the ref
    holds its controller. *)
Definition coherent (s : State) : Prop :=
  (isStreaming s = true <-> turn s <> None) /\
  (turn s <> None -> abortControllerRef s <> None).

(** A line is a frame of type [text] whose payload is the string
    [payload]. *)
Definition text_frame (line payload : jsstring) : Prop :=
  is_frame line = true /\
  exists event,
    JSON.parse_text (slice_from 6 line) = Some event /\
    Get event "type" = Some (Str (lit "text")) /\
    Get event "data" = Some (Str payload).

(** What the loop body leaves alone in the component. *)
Definition loop_frame (s s' : State) : Prop :=
  sessionId s' = sessionId s /\ messages s' = messages s /\
  isStreaming s' = isStreaming s /\ mode s' = mode s /\
  currentModel s' = currentModel s /\
  abortControllerRef s' = abortControllerRef s /\
  streamingSessionId s' = streamingSessionId s /\ turn s' = turn s /\
  clock s' = clock s /\ fetches s' = fetches s /\
  permissionFetches s' = permissionFetches s.

End ChatView.

(** ** Inputs for the examples *)

Module Scenario.
Import JSValue ChatView.

(** The bytes of a text in which an apostrophe stands for a double quote. *)
Definition raw (s : string) : list byte :=
  map (fun b => match b with x27 => x22 | _ => b end) (list_byte_of_string s).

(** One line of the stream, with its line feed. *)
Definition sse (s : string) : list byte := raw s ++ [x0a].

Definition json (s : string) : jsstring :=
  map (fun c => if c =? 39 then 34 else c) (lit s).

(** A component just mounted, with no history. *)
Definition start : State :=
  initial (lit "session-1") [] None None 1700000000000.

Definition opened : Event :=
  FetchSettled (fulfilled {| ok := true; has_body := true |}).

Definition received (bytes : list byte) : Event :=
  ReadSettled (fulfilled (chunk bytes)).

Definition closed : Event := ReadSettled (fulfilled end_of_stream).

(** A turn under way: the request sent and the stream open. *)
Definition streaming : State := run start [Send (lit "hi"); opened].

(** A stream with a text frame that holds a euro sign (three bytes), a blank
    line and a [done] frame; whole, and cut inside the euro sign. *)
Definition euro_stream : list byte :=
  raw "data: {'type':'text','data':'" ++ [xe2; x82; xac] ++ sse "'}" ++
  sse "" ++ sse "data: {'type':'done','data':''}".

Definition euro_whole : list (list byte) := [euro_stream].

Definition euro_cut : list (list byte) :=
  [firstn 30 euro_stream; firstn 20 (skipn 30 euro_stream);
   skipn 50 euro_stream].

(** Two text frames around a frame that is not JSON. *)
Definition hello : jsstring := json "data: {'type':'text','data':'Hello'}".
Definition not_json : jsstring := lit "data: {not json".
Definition world : jsstring := json "data: {'type':'text','data':' world'}".

Definition sandwich : list byte :=
  sse "data: {'type':'text','data':'Hello'}" ++ sse "data: {not json" ++
  sse "data: {'type':'text','data':' world'}".

(** A tool invocation, some output of it, and the invocation once more. *)
Definition bash_1 : list byte :=
  sse "data: {'type':'tool_use','data':'{\'id\':\'1\',\'name\':\'bash\',\'input\':{}}'}".

Definition bash_1_data : value :=
  Str (json "{'id':'1','name':'bash','input':{}}").

Definition output_out : list byte := sse "data: {'type':'tool_output','data':'out'}".

Definition tool_running : State := run streaming [received (bash_1 ++ output_out)].

(** A live output of 4999 code units, and three more to add. *)
Definition nearly_full : State :=
  setStreamingToolOutput (repeat 97 4999) streaming.

(** Text that is only a space; text that ends in a line feed. *)
Definition space_only : State :=
  run streaming [received (sse "data: {'type':'text','data':' '}")].

Definition partial : State :=
  run streaming [received (sse "data: {'type':'text','data':'partial\n'}")].

Definition hello_world : State :=
  run streaming
    [received (sse "data: {'type':'text','data':'Hello'}");
     received (sse "data: {'type':'text','data':' world'}");
     received (sse "data: {'type':'done','data':''}")].

(** The locals of the live turn. *)
Definition live (s : State) : Turn :=
  match turn s with Some t => t | None => new_turn end.


(** The init status of a first turn, the turn over half a second later, a
    second turn started and showing its own status. *)
Definition init_status : list byte :=
  sse "data: {'type':'status','data':'{\'session_id\':\'abc\'}'}".

Definition second_turn : State :=
  run streaming
    [received init_status; Elapse 500; closed; Send (lit "again"); opened;
     received (sse "data: {'type':'status','data':'Thinking'}")].

(** The init status of a turn and, a second later, the heartbeat of a tool
    that runs. *)
Definition tool_progress : State :=
  run streaming
    [received init_status; Elapse 1000;
     received (sse "data: {'type':'tool_output','data':'{\'_progress\':true,\'tool_name\':\'bash\',\'elapsed_time_seconds\':1}'}")].

(** A result whose usage is the number zero, after some text. *)
Definition zero_usage_data : value := Str (json "{'usage':0}").

Definition zero_usage : State :=
  run streaming
    [received (sse "data: {'type':'text','data':'Hi'}" ++
               sse "data: {'type':'result','data':'{\'usage\':0}'}")].

(** Two results with a usage, after some text. *)
Definition two_usages : State :=
  run streaming
    [received (sse "data: {'type':'text','data':'Hi'}" ++
               sse "data: {'type':'result','data':'{\'usage\':{\'input_tokens\':1}}'}" ++
               sse "data: {'type':'status','data':'Working'}" ++
               sse "data: {'type':'result','data':'{\'usage\':{\'input_tokens\':2}}'}")].

End Scenario.

(** ** The other handlers of the chat view *)

(** [handleCommand], [handleModeChange], the visibility listener,
    [setCurrentModel] as [MessageInput] calls it and the two effects that
    follow the props [initialMessages] and [initialMode], of
    [src/components/chat/ChatView.tsx], and the component as a machine over
    all of its handlers. *)
Module Handlers.
Import JSNumber JSValue ChatView.

Definition setMode (x : jsstring) (s : State) : State :=
  {| sessionId := sessionId s; messages := messages s;
     streamingContent := streamingContent s; isStreaming := isStreaming s;
     toolUses := toolUses s; toolResults := toolResults s;
     statusText := statusText s; mode := x; currentModel := currentModel s;
     pendingPermission := pendingPermission s;
     permissionResolved := permissionResolved s;
     streamingToolOutput := streamingToolOutput s;
     abortControllerRef := abortControllerRef s;
     accumulatedRef := accumulatedRef s;
     initializedRef := initializedRef s;
     streamingSessionId := streamingSessionId s;
     pendingApprovalSessionId := pendingApprovalSessionId s; turn := turn s;
     clock := clock s; timers := timers s; fetches := fetches s;
     permissionFetches := permissionFetches s; mounted := mounted s |}.

Definition setCurrentModel (x : jsstring) (s : State) : State :=
  {| sessionId := sessionId s; messages := messages s;
     streamingContent := streamingContent s; isStreaming := isStreaming s;
     toolUses := toolUses s; toolResults := toolResults s;
     statusText := statusText s; mode := mode s; currentModel := x;
     pendingPermission := pendingPermission s;
     permissionResolved := permissionResolved s;
     streamingToolOutput := streamingToolOutput s;
     abortControllerRef := abortControllerRef s;
     accumulatedRef := accumulatedRef s;
     initializedRef := initializedRef s;
     streamingSessionId := streamingSessionId s;
     pendingApprovalSessionId := pendingApprovalSessionId s; turn := turn s;
     clock := clock s; timers := timers s; fetches := fetches s;
     permissionFetches := permissionFetches s; mounted := mounted s |}.

(** A template literal of several lines, its [\n] escapes between them. *)
Fixpoint text_lines (l : list string) : jsstring :=
  match l with
  | [] => []
  | [x] => lit x
  | x :: rest => lit x ++ [LF] ++ text_lines rest
  end.

(** Line 392 *)
Definition help_content : jsstring :=
  text_lines
    ["## Available Commands";
     "";
     "- **/help** - Show this help message";
     "- **/clear** - Clear conversation history";
     "- **/compact** - Compress conversation context";
     "- **/cost** - Show token usage statistics";
     "- **/doctor** - Check system health";
     "- **/init** - Initialize CLAUDE.md";
     "- **/review** - Start code review";
     "- **/terminal-setup** - Configure terminal";
     "";
     "**Tips:**";
     "- Type `@` to mention files";
     "- Use Shift+Enter for new line";
     "- Select a project folder to enable file operations"]%string.

(** Line 407 *)
Definition cost_content : jsstring :=
  text_lines
    ["## Token Usage";
     "";
     "Token usage tracking is available after sending messages. Check the token count displayed at the bottom of each assistant response."]%string.

(** Lines 388-395 and 403-410: the message of a command answered in
    place. *)
Definition command_message (content : jsstring) (s : State) : Message.t :=
  assistant_message "cmd-" content Null s.

(** [handleCommand] (lines 385-417) *)
Definition handleCommand (command : jsstring) (s : State) : State :=
  if JSString.eqb command (lit "/help") then
    setMessages (messages s ++ [command_message help_content s]) s
  else if JSString.eqb command (lit "/clear") then setMessages [] s
  else if JSString.eqb command (lit "/cost") then
    setMessages (messages s ++ [command_message cost_content s]) s
  else sendMessage command s.

(** The listener of [visibilitychange] and of [focus] (lines 74-78);
    [visible] is [document.visibilityState === 'visible']. *)
Definition handleVisibilityChange (visible : bool) (s : State) : State :=
  if visible && truthy (Str (accumulatedRef s))
  then setStreamingContent (accumulatedRef s) s
  else s.

(** [handleModeChange] (lines 41-53), up to the [fetch] it leaves
    unawaited; what follows the request touches nothing of the component. *)
Definition handleModeChange (newMode : jsstring) (s : State) : State :=
  let s1 := setMode newMode s in
  if truthy (Str (sessionId s)) then
    set_fetches
      (fetches s1 ++
       [{| url := lit "/api/chat/sessions/" ++ sessionId s;
           method := lit "PATCH";
           body := JSON.stringify (Obj [(lit "mode", Str newMode)]) |}])
      s1
  else s1.

(** The effect of lines 89-94, as it runs when the parent renders the
    component with another [initialMessages]: the first list that is not
    empty replaces the whole history, whatever it holds by then. *)
Definition initialMessagesEffect (initialMessages : list Message.t) (s : State)
  : State :=
  match initialMessages with
  | [] => s
  | _ =>
      if initializedRef s then s
      else setMessages initialMessages (set_initializedRef true s)
  end.

(** The effect of lines 97-101, as it runs when the parent renders the
    component with another [initialMode]; a prop left out is [None]. *)
Definition initialModeEffect (initialMode : option jsstring) (s : State) : State :=
  match initialMode with
  | Some (c :: rest) => setMode (c :: rest) s
  | _ => s
  end.

(** What can happen to the component: an event of the turn machinery, a
    call of one of the handlers above, or a render with another
    [initialMessages] or [initialMode], after which the effect of that prop
    runs. *)
Inductive Action : Type :=
| Machine (e : Event)
| Command (command : jsstring)
| VisibilityChange (visible : bool)
| ModeChange (newMode : jsstring)
| ModelChange (model : jsstring)
| InitialMessages (initialMessages : list Message.t)
| InitialMode (initialMode : option jsstring).

Definition act (s : State) (a : Action) : State :=
  if negb (mounted s) then s
  else
    match a with
    | Machine e => step s e
    | Command command => handleCommand command s
    | VisibilityChange visible => handleVisibilityChange visible s
    | ModeChange newMode => handleModeChange newMode s
    | ModelChange model => setCurrentModel model s
    | InitialMessages initialMessages => initialMessagesEffect initialMessages s
    | InitialMode initialMode => initialModeEffect initialMode s
    end.

Definition perform (s : State) (actions : list Action) : State :=
  fold_left act actions s.

(** *** What the properties speak of *)

(** The events that end a live turn: cancellation while the controller is
    held, a rejection of the promise awaited, a response without a body, the
    body of an error response, the end of the stream. *)
Definition ends_turn (s : State) (e : Event) : bool :=
  match turn s with
  | None => false
  | Some t =>
      mounted s &&
      match e, awaiting t with
      | Stop, _ => match abortControllerRef s with Some _ => true | None => false end
      | FetchSettled (rejected _), fetch_response => true
      | FetchSettled (fulfilled response), fetch_response =>
          ok response && negb (has_body response)
      | JsonSettled _, response_json => true
      | ReadSettled (rejected _), reader_read => true
      | ReadSettled (fulfilled end_of_stream), reader_read => true
      | _, _ => false
      end
  end.

(** No two invocations of the list have the same [id], by [===]. *)
Fixpoint distinct_ids (l : list ToolUseInfo.t) : Prop :=
  match l with
  | [] => True
  | u :: rest =>
      Forall (fun v => strict_eq (ToolUseInfo.id u) (ToolUseInfo.id v) = false) rest /\
      distinct_ids rest
  end.

(** The text on screen, the ref and the local of the live turn hold the same
    text. *)
Definition synced (s : State) : Prop :=
  streamingContent s = accumulatedRef s /\
  forall t, turn s = Some t -> accumulatedRef s = accumulated t.

(** A decoder between two bytes: inside a sequence it expects a continuation
    byte, and the code point under way is not zero unless the lead byte was
    E0 or F0, which force the next byte high enough. *)
Definition sound (d : TextDecoder.decoder) : Prop :=
  TextDecoder.bytes_needed d = 0 \/
  (128 <= TextDecoder.lower_boundary d /\ TextDecoder.upper_boundary d <= 191 /\
   (1 <= TextDecoder.code_point d \/
    (TextDecoder.bytes_seen d + 1 < TextDecoder.bytes_needed d /\
     144 <= TextDecoder.lower_boundary d))).

(** The framing locals of the live turn: the text held back has no line
    feed, and the decoder is between two bytes. *)
Definition framed (s : State) : Prop :=
  forall t, turn s = Some t -> ~ In LF (buffer t) /\ sound (decoder t).

(** The locals of a turn with other framing locals. *)
Definition relocate (b : jsstring) (d : TextDecoder.decoder) (t : Turn) : Turn :=
  {| awaiting := awaiting t; accumulated := accumulated t;
     tokenUsage := tokenUsage t; buffer := b; decoder := d |}.

(** The loop body over the lines of a chunk. *)
Definition feed (lines : list jsstring) (st : State * Turn) : State * Turn :=
  fold_left (fun st line => handle_line line st) lines st.

(** The ways a step changes the component. *)
Inductive moves (s : State) : State -> Prop :=
| moves_nothing : moves s s
| moves_send content : isStreaming s = false -> moves s (sendMessage content s)
| moves_stop_idle : turn s = None -> moves s (set_abortControllerRef None s)
| moves_leaves s' : turn s <> None -> leaves s s' -> moves s s'
| moves_decide decision : moves s (handlePermissionResponse decision s)
| moves_permission : moves s (permission_settled s)
| moves_error_response t :
    turn s = Some t -> moves s (set_turn (Some (with_awaiting response_json t)) s)
| moves_reading t :
    turn s = Some t -> moves s (set_turn (Some (reading (accumulated t))) s)
| moves_chunk t value s1 t1 :
    turn s = Some t -> read_chunk value (s, t) = (s1, t1) ->
    moves s (set_turn (Some t1) s1)
| moves_elapse ms : moves s (elapse ms s).

(** The message the [catch] block commits for a failure. *)
Definition failure_message (e : Thrown) : jsstring :=
  match e with
  | Error message => message
  | _ => lit "Unknown error"
  end.

End Handlers.

(** ** Inputs for the examples of the handlers *)

Module Replay.
Import JSValue ChatView Handlers Scenario.

(** A whole turn: the request, the stream opened, two text frames, the end
    of the stream. *)
Definition whole_turn : list Action :=
  map Machine
    [Send (lit "hi"); opened;
     received (sse "data: {'type':'text','data':'Hello'}");
     received (sse "data: {'type':'text','data':' world'}"); closed].

(** A turn under way, some text received. *)
Definition under_way : list Action :=
  map Machine
    [Send (lit "hi"); opened;
     received (sse "data: {'type':'text','data':'Hello'}")].

(** A frame that is not followed by a line feed. *)
Definition unterminated : list byte := raw "data: {'type':'text','data':' lost'}".

Definition more_text : Action :=
  Machine (received (sse "data: {'type':'text','data':' world'}")).

(** A message of the session, as the parent loads it from the server. *)
Definition loaded : Message.t :=
  {| Message.id := lit "m1"; Message.session_id := lit "session-1";
     Message.role := Message.user; Message.content := lit "earlier";
     Message.created_at := 1690000000000; Message.token_usage := Null |}.

End Replay.

(** ** Paths *)

(** [path.join] of Node, in its POSIX form: the arguments that are not empty
    are joined by slashes and the result is normalized. *)
Module Path.

Definition slash : N := 47.

(** [s.split('/')] *)
Fixpoint split_slash (cur : jsstring) (s : jsstring) : list jsstring :=
  match s with
  | [] => [rev cur]
  | c :: s' =>
      if c =? slash then rev cur :: split_slash [] s' else split_slash (c :: cur) s'
  end.

Definition nonempty (s : jsstring) : bool :=
  match s with [] => false | _ => true end.

(** [l.join('/')] *)
Fixpoint join_slash (l : list jsstring) : jsstring :=
  match l with
  | [] => []
  | [x] => x
  | x :: rest => x ++ [slash] ++ join_slash rest
  end.

(** One segment in [normalizeString]: an empty segment and [.] are dropped,
    [..] takes away the segment before it, or is kept when there is none to
    take away and the path is relative; [stack] holds the segments kept,
    the last one first. *)
Definition push (allowAboveRoot : bool) (stack : list jsstring) (segment : jsstring)
  : list jsstring :=
  if JSString.eqb segment [] || JSString.eqb segment (lit ".") then stack
  else if JSString.eqb segment (lit "..") then
    match stack with
    | top :: rest =>
        if JSString.eqb top (lit "..")
        then (if allowAboveRoot then segment :: stack else stack)
        else rest
    | [] => if allowAboveRoot then [segment] else []
    end
  else segment :: stack.

Definition segments (allowAboveRoot : bool) (path : jsstring) : list jsstring :=
  rev (fold_left (push allowAboveRoot) (split_slash [] path) []).

(** [path.normalize] *)
Definition normalize (path : jsstring) : jsstring :=
  match path with
  | [] => lit "."
  | c :: _ =>
      let isAbsolute := c =? slash in
      let trailingSeparator := last path 0 =? slash in
      match join_slash (segments (negb isAbsolute) path) with
      | [] => if isAbsolute then lit "/" else if trailingSeparator then lit "./" else lit "."
      | body =>
          (if isAbsolute then [slash] else []) ++ body ++
          (if trailingSeparator then [slash] else [])
      end
  end.

(** [path.join] *)
Definition join (args : list jsstring) : jsstring :=
  match join_slash (filter nonempty args) with
  | [] => lit "."
  | joined => normalize joined
  end.

(** *** What the properties speak of *)

(** A segment that [normalizeString] keeps as it is. *)
Definition plain (s : jsstring) : Prop :=
  s <> [] /\ s <> lit "." /\ s <> lit ".." /\ ~ In slash s.

(** The stacks [normalizeString] builds: no empty segment and no [.], and
    [..] only above nothing but [..], in a relative path. *)
Fixpoint normal (allowAboveRoot : bool) (stack : list jsstring) : Prop :=
  match stack with
  | [] => True
  | top :: rest =>
      top <> [] /\ top <> lit "." /\ ~ In slash top /\
      (top = lit ".." ->
       allowAboveRoot = true /\ Forall (fun x => x = lit "..") rest) /\
      normal allowAboveRoot rest
  end.

End Path.

(** ** The message input *)

(** The handlers of [src/components/chat/MessageInput.tsx] over the state of
    the popover and of the text: [closePopover], [insertItem],
    [handleInputChange] with its two trigger patterns, [handleSubmit],
    [handleKeyDown], [fetchSkills], [filteredItems], [folderShortName]. The
    calls a handler makes on its props, and the requests it issues, are
    returned beside the new state, in order. *)
Module MessageInput.
Import JSValue.

Inductive PopoverMode : Type := file | skill.

(** [description] is [undefined] and [builtIn] is [None] where the item
    leaves them out. *)
Record PopoverItem : Type := {
  label : jsstring;
  value : jsstring;
  description : JSValue.value;
  builtIn : option bool
}.

(** Lines 51-60 *)
Definition built_in (label description : string) : PopoverItem :=
  {| label := lit label; value := lit "/" ++ lit label;
     description := Str (lit description); builtIn := Some true |}.

Definition BUILT_IN_COMMANDS : list PopoverItem :=
  [built_in "help" "Show help information";
   built_in "clear" "Clear conversation";
   built_in "compact" "Compress conversation context";
   built_in "cost" "Show token usage";
   built_in "doctor" "Check system health";
   built_in "init" "Initialize CLAUDE.md";
   built_in "review" "Code review";
   built_in "terminal-setup" "Terminal configuration"].

(** The [useState] cells the handlers below read and write. [selectedIndex]
    is a number: [None] stands for NaN. *)
Record Input : Type := {
  popoverMode : option PopoverMode;
  popoverItems : list PopoverItem;
  popoverFilter : jsstring;
  selectedIndex : option nat;
  triggerPos : option nat;
  inputValue : jsstring
}.

(** The component as first rendered (lines 100-108). *)
Definition empty : Input :=
  {| popoverMode := None; popoverItems := []; popoverFilter := [];
     selectedIndex := Some O; triggerPos := None; inputValue := [] |}.

Definition setInputValue (x : jsstring) (i : Input) : Input :=
  {| popoverMode := popoverMode i; popoverItems := popoverItems i;
     popoverFilter := popoverFilter i; selectedIndex := selectedIndex i;
     triggerPos := triggerPos i; inputValue := x |}.

Definition setPopoverItems (x : list PopoverItem) (i : Input) : Input :=
  {| popoverMode := popoverMode i; popoverItems := x;
     popoverFilter := popoverFilter i; selectedIndex := selectedIndex i;
     triggerPos := triggerPos i; inputValue := inputValue i |}.

Definition setSelectedIndex (x : option nat) (i : Input) : Input :=
  {| popoverMode := popoverMode i; popoverItems := popoverItems i;
     popoverFilter := popoverFilter i; selectedIndex := x;
     triggerPos := triggerPos i; inputValue := inputValue i |}.

(** What a handler calls: a prop of the component, one of the two fetches
    of the popover, the deferred focus of the textarea. *)
Inductive Call : Type :=
| onSend (content : jsstring)
| onCommand (command : jsstring)
| fetch_files (filter : jsstring)
| fetch_skills (filter : jsstring)
| focus.

(** [closePopover] (lines 163-169) *)
Definition closePopover (i : Input) : Input :=
  {| popoverMode := None; popoverItems := []; popoverFilter := [];
     selectedIndex := Some O; triggerPos := None; inputValue := inputValue i |}.

(** [insertItem] (lines 172-194); [has_onCommand] tells whether the prop is
    given. *)
Definition insertItem (has_onCommand : bool) (item : PopoverItem) (i : Input)
  : Input * list Call :=
  match triggerPos i with
  | None => (i, [])
  | Some pos =>
      if match builtIn item with Some true => has_onCommand | _ => false end then
        (closePopover (setInputValue [] i), [onCommand (value item)])
      else
        let currentVal := inputValue i in
        let before := firstn pos currentVal in
        let cursorEnd := (pos + (length (popoverFilter i) + 1))%nat in
        let after := skipn cursorEnd currentVal in
        let insertText :=
          match popoverMode i with
          | Some file => lit "@" ++ value item ++ lit " "
          | _ => value item ++ lit " "
          end in
        (closePopover (setInputValue (before ++ insertText ++ after) i), [focus])
  end.

(** The longest suffix of a text whose code units all satisfy [p], and what
    stands before it, reversed; the text is given reversed. *)
Fixpoint span_end (p : N -> bool) (reversed suffix : jsstring) : jsstring * jsstring :=
  match reversed with
  | c :: rest => if p c then span_end p rest (c :: suffix) else (suffix, reversed)
  | [] => (suffix, [])
  end.

(** [s.match(...)] with the pattern of line 207: an [@], then as many code
    units as there are that are neither white space nor [@], then the end of
    the text. The result is the first capture, when the pattern matches. A
    match ends at the end of the text, so its capture is the longest suffix
    without white space and [@], and an [@] stands before it; the whole
    match is the [@] and the capture. *)
Definition mention_char (c : N) : bool := negb (is_space c || (c =? 64)).

Definition at_match (s : jsstring) : option jsstring :=
  let '(capture, before) := span_end mention_char (rev s) [] in
  match before with
  | c :: _ => if c =? 64 then Some capture else None
  | [] => None
  end.

(** [s.match(...)] with the pattern of line 220: the start of the text or a
    white space, then a slash, then as many code units as there are that are
    not white space, then the end of the text. The result is the second
    capture, when the pattern matches. The slash and the capture make a
    suffix without white space that starts the text or follows white space:
    the longest suffix without white space. *)
Definition command_char (c : N) : bool := negb (is_space c).

Definition slash_match (s : jsstring) : option jsstring :=
  let '(word, _) := span_end command_char (rev s) [] in
  match word with
  | c :: capture => if c =? 47 then Some capture else None
  | [] => None
  end.

(** The two patterns, read as patterns: the text ends with an [@] and a run
    of code units that are neither white space nor [@]; the text ends with
    a slash and a run of code units that are not white space, and the slash
    starts the text or follows a white space. *)
Definition mentions (text filter : jsstring) : Prop :=
  exists before,
    text = before ++ lit "@" ++ filter /\ forallb mention_char filter = true.

Definition commands (text filter : jsstring) : Prop :=
  exists before,
    text = before ++ lit "/" ++ filter /\ forallb command_char filter = true /\
    (before = [] \/ exists b c, before = b ++ [c] /\ is_space c = true).

(** [handleInputChange] (lines 197-235), up to the [await] of the fetch;
    [selectionStart] is the cursor of the textarea, [None] when the ref
    holds no textarea. *)
Definition handleInputChange (val : jsstring) (selectionStart : option nat)
  (i : Input) : Input * list Call :=
  let i1 := setInputValue val i in
  match selectionStart with
  | None => (i1, [])
  | Some cursorPos =>
      let beforeCursor := firstn cursorPos val in
      match at_match beforeCursor with
      | Some filter =>
          ({| popoverMode := Some file; popoverItems := popoverItems i1;
              popoverFilter := filter; selectedIndex := Some O;
              triggerPos := Some (cursorPos - (length filter + 1))%nat;
              inputValue := val |},
           [fetch_files filter])
      | None =>
          match slash_match beforeCursor with
          | Some filter =>
              ({| popoverMode := Some skill; popoverItems := popoverItems i1;
                  popoverFilter := filter; selectedIndex := Some O;
                  triggerPos := Some (cursorPos - length filter - 1)%nat;
                  inputValue := val |},
               [fetch_skills filter])
          | None =>
              match popoverMode i with
              | Some _ => (closePopover i1, [])
              | None => (i1, [])
              end
          end
      end
  end.

(** After the [await]: [setPopoverItems(items)] (lines 215 and 228). *)
Definition items_fetched (items : list PopoverItem) (i : Input) : Input :=
  setPopoverItems items i.


(** [s.includes(x)] *)
Fixpoint includes (x s : jsstring) : bool :=
  startsWith x s ||
  match s with
  | [] => false
  | _ :: rest => includes x rest
  end.

(** [folderShortName] (lines 330-332) *)
Definition folderShortName (workingDirectory : option jsstring) : jsstring :=
  match workingDirectory with
  | Some (c :: rest) =>
      let wd := c :: rest in
      match last (filter Path.nonempty (Path.split_slash [] wd)) [] with
      | [] => wd
      | name => name
      end
  | _ => []
  end.

Section CaseMapping.

(** [String.prototype.toLowerCase], which the component applies to labels
    and filters; the properties below hold whatever it maps a text to. *)
Variable toLowerCase : jsstring -> jsstring.

Definition matches (filter : jsstring) (label : jsstring) : bool :=
  includes (toLowerCase filter) (toLowerCase label).

(** [filteredItems] (lines 322-324) *)
Definition filteredItems (i : Input) : list PopoverItem :=
  filter (fun item => matches (popoverFilter i) (label item)) (popoverItems i).

(** The keys [handleKeyDown] tells apart. *)
Inductive Key : Type := ArrowDown | ArrowUp | Enter | Tab | Escape | other.

(** [(prev + 1) % n] and [(prev - 1 + n) % n] on numbers: NaN when [n] is
    zero or [prev] is NaN; [prev] is a natural number otherwise. *)
Definition next_index (n : nat) (prev : option nat) : option nat :=
  match prev, n with
  | Some p, S _ => Some ((p + 1) mod n)%nat
  | _, _ => None
  end.

Definition previous_index (n : nat) (prev : option nat) : option nat :=
  match prev, n with
  | Some p, S _ => Some ((p + n - 1) mod n)%nat
  | _, _ => None
  end.

(** [handleKeyDown] (lines 255-284) *)
Definition handleKeyDown (has_onCommand : bool) (key : Key) (i : Input)
  : Input * list Call :=
  match popoverMode i, popoverItems i with
  | Some _, _ :: _ =>
      let shown := filteredItems i in
      match key with
      | ArrowDown => (setSelectedIndex (next_index (length shown) (selectedIndex i)) i, [])
      | ArrowUp => (setSelectedIndex (previous_index (length shown) (selectedIndex i)) i, [])
      | Enter | Tab =>
          match selectedIndex i with
          | Some n =>
              match nth_error shown n with
              | Some item => insertItem has_onCommand item i
              | None => (i, [])
              end
          | None => (i, [])
          end
      | Escape => (closePopover i, [])
      | other => (i, [])
      end
  | _, _ => (i, [])
  end.

(** What [fetch('/api/skills')] and [res.json()] come to: the request fails,
    the response is not [ok], its body is not JSON, or it is this value. *)
Inductive SkillsResponse : Type :=
| failed
| not_ok
| not_json
| json (data : JSValue.value).

(** Lines 146-153: the filter and the map over [data.skills || []]; [None]
    when one of them throws. *)
Fixpoint api_items (filter : jsstring) (skills : list JSValue.value)
  : option (list PopoverItem) :=
  match skills with
  | [] => Some []
  | s :: rest =>
      match Get s "enabled" with
      | None => None
      | Some enabled =>
          if truthy enabled then
            match Get s "name" with
            | Some (Str name) =>
                if matches filter name then
                  option_map
                    (cons {| label := name; value := lit "/" ++ name;
                             description :=
                               match Get s "description" with
                               | Some d => d
                               | None => Undefined
                               end;
                             builtIn := Some false |})
                    (api_items filter rest)
                else api_items filter rest
            | _ => None
            end
          else api_items filter rest
      end
  end.

(** [fetchSkills] (lines 135-160) *)
Definition fetchSkills (filter : jsstring) (response : SkillsResponse)
  : list PopoverItem :=
  let builtIn := List.filter (fun cmd => matches filter (label cmd)) BUILT_IN_COMMANDS in
  let apiSkills :=
    match response with
    | json data =>
        match Get data "skills" with
        | Some skills =>
            match (if truthy skills then skills else Arr []) with
            | Arr l =>
                match api_items filter l with
                | Some items => items
                | None => []
                end
            | _ => []
            end
        | None => []
        end
    | _ => []
    end in
  firstn 20 (builtIn ++ apiSkills).

End CaseMapping.

End MessageInput.

(** ** The input inside the chat view *)

(** [MessageInput] as [ChatView] renders it (lines 433-446): [onSend] is
    [sendMessage], [onCommand] is [handleCommand], [disabled] is [false]. *)
Module Page.
Import ChatView Handlers MessageInput.



(** A file of the project, as the popover lists it. *)
Definition a_file : PopoverItem :=
  {| label := lit "route.ts"; value := lit "src/app/api/skills/route.ts";
     description := JSValue.Undefined; builtIn := None |}.

(** A popover of three items, the second selected. *)
Definition three_shown : Input :=
  {| popoverMode := Some file;
     popoverItems := [a_file; a_file; a_file];
     popoverFilter := lit "ro"; selectedIndex := Some 1%nat;
     triggerPos := Some 4%nat; inputValue := lit "see @ro" |}.

End Page.

(** ** The skills route *)

(** [src/app/api/skills/route.ts]: the directories of the commands, the scan
    of a commands directory, the two handlers. The file system is what its
    calls answer: a directory is the list of its entries, or cannot be
    listed; a file is its text, or cannot be read. *)
Module SkillsRoute.
Import JSValue.

#[local] Set Warnings "-register-all".

Inductive Source : Type := global | project | plugin | installed.

Definition source_name (s : Source) : jsstring :=
  match s with
  | global => lit "global"
  | project => lit "project"
  | plugin => lit "plugin"
  | installed => lit "installed"
  end.

Record SkillFile : Type := {
  name : jsstring;
  description : jsstring;
  content : jsstring;
  source : Source;
  filePath : jsstring
}.

(** What a file system call or [request.json()] throws: an Error with its
    message, or a value that is not an Error. *)
Inductive Failure : Type :=
| Error (message : jsstring)
| NotAnError.

(** An entry of a directory: one that is a directory, with its own entries
    ([None] where it cannot be listed), or one that is not, with the text
    [fs.readFileSync] returns ([None] where it throws). *)
Inductive Dirent : Type :=
| Folder (entry_name : jsstring) (listing : option (list Dirent))
| Regular (entry_name : jsstring) (text : option jsstring).

Definition entry_name (entry : Dirent) : jsstring :=
  match entry with
  | Folder n _ => n
  | Regular n _ => n
  end.

(** What the server runs on: [os.homedir()], [process.cwd()], and the
    answers of the file system. [exists_] is [fs.existsSync]; [mkdir_error]
    and [write_error] hold what [fs.mkdirSync] and [fs.writeFileSync] throw
    on a path, if they throw; [entries] is [fs.readdirSync] with file types,
    [None] where the directory is missing or cannot be listed; [read_file]
    is [fs.readFileSync] on a path, [None] where it throws. The two
    messages are those of the TypeError of the engine for destructuring
    [null], and of Node for data that is not a string. *)
Record Env : Type := {
  homedir : jsstring;
  cwd : jsstring;
  exists_ : jsstring -> bool;
  mkdir_error : jsstring -> option Failure;
  write_error : jsstring -> option Failure;
  entries : jsstring -> option (list Dirent);
  read_file : jsstring -> option jsstring;
  destructure_message : jsstring;
  invalid_data_message : value -> jsstring
}.

(** [getGlobalCommandsDir], [getProjectCommandsDir], [getInstalledSkillsDir]
    (lines 14-20 and 47-49) *)
Definition getGlobalCommandsDir (env : Env) : jsstring :=
  Path.join [homedir env; lit ".claude"; lit "commands"].

Definition getProjectCommandsDir (given : option jsstring) (env : Env) : jsstring :=
  Path.join [match given with Some (c :: rest) => c :: rest | _ => cwd env end;
             lit ".claude"; lit "commands"].

Definition getInstalledSkillsDir (env : Env) : jsstring :=
  Path.join [homedir env; lit ".agents"; lit "skills"].

(** [s.endsWith(x)] *)
Definition endsWith (x s : jsstring) : bool := startsWith (rev x) (rev s).

Definition hash : N := 35.

Fixpoint drop_hashes (s : jsstring) : jsstring :=
  match s with
  | c :: s' => if c =? hash then drop_hashes s' else s
  | [] => []
  end.

(** [content.split("\n")[0]?.trim() || ""] *)
Definition first_line (content : jsstring) : jsstring :=
  trim (hd [] (split_LF content)).

(** Lines 162-164 and 250-252: a heading loses its hashes and the white
    space after them; a line that is empty gives way to the default. *)
Definition describe (firstLine name : jsstring) : jsstring :=
  if startsWith (lit "#") firstLine then trimStart (drop_hashes firstLine)
  else
    match firstLine with
    | [] => lit "Skill: /" ++ name
    | _ => firstLine
    end.

(** [entry.name.replace(...)] of line 157, on a name that ends in [.md]. *)
Definition baseName (entry_name : jsstring) : jsstring :=
  firstn (length entry_name - 3) entry_name.

(** [prefix ? `${prefix}:${x}` : x] (lines 151 and 158) *)
Definition prefixed (prefix x : jsstring) : jsstring :=
  match prefix with
  | [] => x
  | _ => prefix ++ lit ":" ++ x
  end.

(** The body of the loop of [scanDirectory] (lines 145-165) on one entry: the
    skills it pushes, and whether the loop goes on ([false] when
    [readFileSync] throws, which ends the scan of this directory). *)
Fixpoint scan_entry (dir : jsstring) (source : Source) (prefix : jsstring)
  (entry : Dirent) {struct entry} : list SkillFile * bool :=
  if startsWith (lit ".") (entry_name entry) then ([], true)
  else
    let fullPath := Path.join [dir; entry_name entry] in
    match entry with
    | Folder entry_name listing =>
        let subPrefix := prefixed prefix entry_name in
        (match listing with
         | Some sub =>
             (fix loop (l : list Dirent) : list SkillFile :=
                match l with
                | [] => []
                | e :: rest =>
                    let '(found, go_on) := scan_entry fullPath source subPrefix e in
                    if go_on then found ++ loop rest else found
                end) sub
         | None => []
         end, true)
    | Regular entry_name text =>
        if negb (endsWith (lit ".md") entry_name) then ([], true)
        else
          let name := prefixed prefix (baseName entry_name) in
          match text with
          | Some content =>
              ([{| name := name;
                   description := describe (first_line content) name;
                   content := content; source := source; filePath := fullPath |}],
               true)
          | None => ([], false)
          end
    end.

(** The loop of [scanDirectory] over the entries of a directory. *)
Fixpoint scan_entries (dir : jsstring) (source : Source) (prefix : jsstring)
  (l : list Dirent) : list SkillFile :=
  match l with
  | [] => []
  | e :: rest =>
      let '(found, go_on) := scan_entry dir source prefix e in
      if go_on then found ++ scan_entries dir source prefix rest else found
  end.

(** [scanDirectory] (lines 134-171) *)
Definition scanDirectory (dir : jsstring) (source : Source) (prefix : jsstring)
  (env : Env) : list SkillFile :=
  match entries env dir with
  | Some l => scan_entries dir source prefix l
  | None => []
  end.

(** [getPluginCommandsDirs] (lines 22-45): [fs.readdirSync] without file
    types gives the names of the entries; when it throws on the plugins of a
    marketplace the directories found so far are returned. *)
Definition names (env : Env) (dir : jsstring) : option (list jsstring) :=
  option_map (map entry_name) (entries env dir).

Fixpoint plugin_commands (env : Env) (marketplacesDir : jsstring)
  (marketplaces : list jsstring) : list jsstring :=
  match marketplaces with
  | [] => []
  | marketplace :: rest =>
      let pluginsDir := Path.join [marketplacesDir; marketplace; lit "plugins"] in
      if negb (exists_ env pluginsDir) then plugin_commands env marketplacesDir rest
      else
        match names env pluginsDir with
        | Some plugins =>
            filter (exists_ env)
              (map (fun plugin => Path.join [pluginsDir; plugin; lit "commands"]) plugins)
            ++ plugin_commands env marketplacesDir rest
        | None => []
        end
  end.

Definition getPluginCommandsDirs (env : Env) : list jsstring :=
  let marketplacesDir :=
    Path.join [homedir env; lit ".claude"; lit "plugins"; lit "marketplaces"] in
  if negb (exists_ env marketplacesDir) then []
  else
    match names env marketplacesDir with
    | Some marketplaces => plugin_commands env marketplacesDir marketplaces
    | None => []
    end.

(** *** The front matter of an installed skill *)

Definition CR : N := 13.

Fixpoint take_while (p : N -> bool) (s : jsstring) : jsstring :=
  match s with
  | c :: s' => if p c then c :: take_while p s' else []
  | [] => []
  end.

Fixpoint drop_while (p : N -> bool) (s : jsstring) : jsstring :=
  match s with
  | c :: s' => if p c then drop_while p s' else s
  | [] => []
  end.

(** What a dot of a pattern matches: any code unit but a line terminator. *)
Definition dot_char (c : N) : bool :=
  negb ((c =? LF) || (c =? CR) || (c =? 8232) || (c =? 8233)).

(** The closing of the front matter in the pattern of line 57: the capture
    is lazy and holds one code unit at least, so it is the shortest text
    that is not empty and is followed by a line feed, or a carriage return
    and a line feed, and three hyphens. [group] is the capture so far,
    reversed. *)
Fixpoint front_matter_end (group : jsstring) (s : jsstring) : option jsstring :=
  match s with
  | [] => None
  | c :: rest =>
      if startsWith ([CR; LF] ++ lit "---") rest || startsWith ([LF] ++ lit "---") rest
      then Some (rev (c :: group))
      else front_matter_end (c :: group) rest
  end.

(** [content.match(...)] of line 57: the capture, when the content starts
    with three hyphens and a line end, and the front matter is closed. *)
Definition front_matter (content : jsstring) : option jsstring :=
  if startsWith (lit "---" ++ [CR; LF]) content then front_matter_end [] (skipn 5 content)
  else if startsWith (lit "---" ++ [LF]) content then front_matter_end [] (skipn 4 content)
  else None.

(** [frontMatter.split(...)] of line 61: at every line feed, together with
    the carriage return before it if there is one. *)
Fixpoint split_lines (cur : jsstring) (s : jsstring) : list jsstring :=
  match s with
  | [] => [rev cur]
  | c :: rest =>
      if c =? LF then rev cur :: split_lines [] rest
      else
        match rest with
        | d :: rest' =>
            if (c =? CR) && (d =? LF) then rev cur :: split_lines [] rest'
            else split_lines (c :: cur) rest
        | [] => split_lines (c :: cur) rest
        end
  end.

(** [line.match(...)] for the patterns of lines 68 and 91: the prefix at
    the start of the line, then white space, [least] code units of it at
    least, then a capture of one code unit or more, none of them a line
    terminator. The white space is taken greedily; when nothing follows it
    the pattern gives the last of its code units that is not a line
    terminator to the capture, which is then that one code unit. *)
Definition capture (prefix : jsstring) (least : nat) (line : jsstring)
  : option jsstring :=
  if startsWith prefix line then
    let after := skipn (length prefix) line in
    let spaces := take_while is_space after in
    match drop_while is_space after with
    | c :: rest =>
        if (least <=? length spaces)%nat then Some (take_while dot_char (c :: rest))
        else None
    | [] =>
        match find dot_char (rev (skipn least spaces)) with
        | Some c => Some [c]
        | None => None
        end
    end
  else None.

(** The test of line 75: [description:], white space, a vertical bar. *)
Definition block_scalar (line : jsstring) : bool :=
  startsWith (lit "description:") line &&
  startsWith (lit "|") (drop_while is_space (skipn 12 line)).

(** The test of line 78: the line starts with white space. *)
Definition indented (line : jsstring) : bool :=
  match line with
  | c :: _ => is_space c
  | [] => false
  end.

Fixpoint take_indented (lines : list jsstring) : list jsstring :=
  match lines with
  | l :: rest => if indented l then trim l :: take_indented rest else []
  | [] => []
  end.

(** [l.join(" ")] *)
Fixpoint join_space (l : list jsstring) : jsstring :=
  match l with
  | [] => []
  | [x] => x
  | x :: rest => x ++ lit " " ++ join_space rest
  end.

(** The result of [parseSkillFrontMatter]: a field is [None] where it is
    left undefined. *)
Record FrontMatter : Type := {
  meta_name : option jsstring;
  meta_description : option jsstring
}.

(** The loop of lines 64-95 from a line on. *)
Fixpoint parse_lines (lines : list jsstring) (result : FrontMatter) : FrontMatter :=
  match lines with
  | [] => result
  | line :: rest =>
      match capture (lit "name:") 0 line with
      | Some nameMatch =>
          parse_lines rest
            {| meta_name := Some (trim nameMatch);
               meta_description := meta_description result |}
      | None =>
          if block_scalar line then
            match take_indented rest with
            | [] => parse_lines rest result
            | descLines =>
                parse_lines rest
                  {| meta_name := meta_name result;
                     meta_description :=
                       Some (join_space (filter Path.nonempty descLines)) |}
            end
          else
            match capture (lit "description:") 1 line with
            | Some descMatch =>
                parse_lines rest
                  {| meta_name := meta_name result;
                     meta_description := Some (trim descMatch) |}
            | None => parse_lines rest result
            end
      end
  end.

(** [parseSkillFrontMatter] (lines 55-97) *)
Definition parseSkillFrontMatter (content : jsstring) : FrontMatter :=
  match front_matter content with
  | Some frontMatter =>
      parse_lines (split_lines [] frontMatter)
        {| meta_name := None; meta_description := None |}
  | None => {| meta_name := None; meta_description := None |}
  end.

(** [a || b] on a field that is a string or undefined. *)
Definition or_text (a : option jsstring) (b : jsstring) : jsstring :=
  match a with
  | Some (c :: rest) => c :: rest
  | _ => b
  end.

(** The loop of [scanInstalledSkills] (lines 110-127): a throw of
    [readFileSync] ends it. *)
Fixpoint installed_skills (env : Env) (dir : jsstring) (l : list Dirent)
  : list SkillFile :=
  match l with
  | [] => []
  | entry :: rest =>
      match entry with
      | Folder entry_name _ =>
          if startsWith (lit ".") entry_name then installed_skills env dir rest
          else
            let skillMdPath := Path.join [dir; entry_name; lit "SKILL.md"] in
            if negb (exists_ env skillMdPath) then installed_skills env dir rest
            else
              match read_file env skillMdPath with
              | Some content =>
                  let meta := parseSkillFrontMatter content in
                  let name := or_text (meta_name meta) entry_name in
                  let description :=
                    or_text (meta_description meta) (lit "Installed skill: /" ++ name) in
                  {| name := name; description := description; content := content;
                     source := installed; filePath := skillMdPath |}
                  :: installed_skills env dir rest
              | None => []
              end
      | Regular _ _ => installed_skills env dir rest
      end
  end.

(** [scanInstalledSkills] (lines 103-132) *)
Definition scanInstalledSkills (env : Env) : list SkillFile :=
  let dir := getInstalledSkillsDir env in
  match entries env dir with
  | Some l => installed_skills env dir l
  | None => []
  end.

(** The JSON of a skill, as [NextResponse.json] sends it. *)
Definition skill_value (f : SkillFile) : value :=
  Obj [(lit "name", Str (name f)); (lit "description", Str (description f));
       (lit "content", Str (content f)); (lit "source", Str (source_name (source f)));
       (lit "filePath", Str (filePath f))].

Record Response : Type := { status : N; body : value }.

(** [GET] (lines 173-205) *)
Definition GET_skills (given_cwd : option jsstring) (env : Env) : list SkillFile :=
  let globalSkills := scanDirectory (getGlobalCommandsDir env) global [] env in
  let projectSkills := scanDirectory (getProjectCommandsDir given_cwd env) project [] env in
  let installedSkills := scanInstalledSkills env in
  let pluginSkills :=
    flat_map (fun dir => scanDirectory dir plugin [] env) (getPluginCommandsDirs env) in
  globalSkills ++ projectSkills ++ installedSkills ++ pluginSkills.

Definition GET (given_cwd : option jsstring) (env : Env) : Response :=
  {| status := 200;
     body := Obj [(lit "skills", Arr (map skill_value (GET_skills given_cwd env)))] |}.

(** The class of line 224: letters, digits, underscore, hyphen. *)
Definition safe_char (c : N) : bool :=
  ((97 <=? c) && (c <=? 122)) || ((65 <=? c) && (c <=? 90)) ||
  ((48 <=? c) && (c <=? 57)) || (c =? 95) || (c =? 45).

(** [name.replace(...)] of line 224: every code unit outside the class
    becomes a hyphen. *)
Definition sanitize (name : jsstring) : jsstring :=
  map (fun c => if safe_char c then c else 45) name.

(** What a handler does to the file system. *)
Inductive Effect : Type :=
| MkDir (path : jsstring)
| WriteFile (path data : jsstring).

Definition error_response (status : N) (message : jsstring) : Response :=
  {| status := status; body := Obj [(lit "error", Str message)] |}.

(** The [catch] of [POST] (lines 266-271) *)
Definition caught (e : Failure) : Response :=
  error_response 500
    match e with
    | Error message => message
    | NotAnError => lit "Failed to create skill"
    end.

Inductive Request : Type :=
| body_of (v : value)
| no_body (e : Failure).

(** [POST] (lines 207-272): the response, and what was done to the file
    system, in order. *)
Definition POST (request : Request) (env : Env) : Response * list Effect :=
  match request with
  | no_body e => (caught e, [])
  | body_of v =>
      match Get v "name", Get v "content", Get v "scope" with
      | Some name, Some content, Some scope =>
          match name with
          | Str (c :: rest) =>
              let safeName := sanitize (c :: rest) in
              match safeName with
              | [] => (error_response 400 (lit "Invalid skill name"), [])
              | _ =>
                  let dir :=
                    if strict_eq scope (Str (lit "project"))
                    then getProjectCommandsDir None env
                    else getGlobalCommandsDir env in
                  let made :=
                    if exists_ env dir then inr []
                    else
                      match mkdir_error env dir with
                      | Some e => inl e
                      | None => inr [MkDir dir]
                      end in
                  match made with
                  | inl e => (caught e, [])
                  | inr done =>
                      let filePath := Path.join [dir; safeName ++ lit ".md"] in
                      if exists_ env filePath then
                        (error_response 409 (lit "A skill with this name already exists"),
                         done)
                      else
                        match or_else content (Str []) with
                        | Str data =>
                            match write_error env filePath with
                            | Some e => (caught e, done)
                            | None =>
                                ({| status := 201;
                                    body :=
                                      Obj [(lit "skill",
                                            Obj [(lit "name", Str safeName);
                                                 (lit "description",
                                                  Str (describe (first_line data)
                                                         safeName));
                                                 (lit "content", Str data);
                                                 (lit "source",
                                                  or_else scope (Str (lit "global")));
                                                 (lit "filePath", Str filePath)])] |},
                                 done ++ [WriteFile filePath data])
                            end
                        | data =>
                            (caught (Error (invalid_data_message env data)), done)
                        end
                  end
              end
          | _ => (error_response 400 (lit "Skill name is required"), [])
          end
      | _, _, _ => (caught (Error (destructure_message env)), [])
      end
  end.

(** *** What the properties speak of *)

(** An entry the scan passes over: its name starts with a dot, or it is not
    a directory and its name does not end in [.md]. *)
Definition passed_over (entry : Dirent) : Prop :=
  startsWith (lit ".") (entry_name entry) = true \/
  exists n text, entry = Regular n text /\ endsWith (lit ".md") n = false.

(** A text with every line feed turned into a carriage return and a line
    feed. *)
Fixpoint crlf (s : jsstring) : jsstring :=
  match s with
  | c :: rest => if c =? LF then CR :: LF :: crlf rest else c :: crlf rest
  | [] => []
  end.

(** A skill as a scan for [source] under [prefix] lists it: of that source,
    described by its own first line, named by the prefix and something
    more. *)
Definition well_scanned (source : Source) (prefix : jsstring) (f : SkillFile) : Prop :=
  SkillsRoute.source f = source /\
  description f = describe (first_line (content f)) (name f) /\
  exists x, x <> [] /\ name f = prefixed prefix x.

Definition is_write (e : Effect) : bool :=
  match e with WriteFile _ _ => true | MkDir _ => false end.

End SkillsRoute.

(** ** Inputs for the examples of the route *)

Module Server.
Import JSValue SkillsRoute.

(** A server whose file system is empty and refuses nothing. *)
Definition blank : Env :=
  {| homedir := lit "/home/dev"; cwd := lit "/srv/app";
     exists_ := fun _ => false;
     mkdir_error := fun _ => None; write_error := fun _ => None;
     entries := fun _ => None; read_file := fun _ => None;
     destructure_message := lit "Cannot destructure property 'name' of 'body' as it is null.";
     invalid_data_message := fun _ => lit "The data argument must be of type string" |}.

(** A request to create a skill whose name holds a slash and dots. *)
Definition create_escaping : Request :=
  body_of (Obj [(lit "name", Str (lit "../x"));
                (lit "content", Str (lit "# Title"))]).

(** A skill file with front matter. *)
Definition skill_md : jsstring :=
  lit "---" ++ [LF] ++ lit "name: deploy" ++ [LF] ++
  lit "description: Ship it" ++ [LF] ++ lit "---" ++ [LF] ++ lit "Steps".



Definition hidden_folder : Dirent :=
  Folder (lit ".git") (Some [Regular (lit "notes.md") (Some (lit "# Notes"))]).

Definition review_pr : list Dirent :=
  [Folder (lit "review") (Some [Regular (lit "pr.md") (Some (lit "# Review a PR"))])].

Definition review_pr_skill : SkillFile :=
  {| name := lit "review:pr"; description := lit "Review a PR";
     content := lit "# Review a PR"; source := global;
     filePath := lit "/home/dev/.claude/commands/review/pr.md" |}.

End Server.

(** * Properties *)

Unset Implicit Arguments.

Module StringFacts.

Lemma eqb_eq (a b : jsstring) : JSString.eqb a b = true <-> a = b.
Proof.
  unfold JSString.eqb. destruct (list_eq_dec N.eq_dec a b); split; congruence.
Qed.

Lemma eqb_refl (a : jsstring) : JSString.eqb a a = true.
Proof. now apply eqb_eq. Qed.

Lemma split_go_nonempty (s cur : jsstring) : split_go cur s <> [].
Proof.
  revert cur. induction s as [|c s IH]; intros cur; simpl.
  - discriminate.
  - destruct (c =? LF); [discriminate | apply IH].
Qed.

Lemma last_cons (A : Type) (a d : A) (l : list A) :
  l <> [] -> last (a :: l) d = last l d.
Proof. destruct l; [congruence | reflexivity]. Qed.

Lemma last_app (A : Type) (d : A) (l l' : list A) :
  l' <> [] -> last (l ++ l') d = last l' d.
Proof.
  intros H. induction l as [|a l IH]; [reflexivity|].
  simpl app. rewrite last_cons; [exact IH|].
  destruct l; [exact H | discriminate].
Qed.

Lemma removelast_cons (A : Type) (a : A) (l : list A) :
  l <> [] -> removelast (a :: l) = a :: removelast l.
Proof. destruct l; [congruence | reflexivity]. Qed.

(** Splitting a concatenation: the complete pieces of the first part, then
    the split of the second part, whose first piece continues the last piece
    of the first part. *)
Lemma split_go_app (x y cur : jsstring) :
  split_go cur (x ++ y) =
  removelast (split_go cur x) ++ split_go (rev (last (split_go cur x) [])) y.
Proof.
  revert cur. induction x as [|c x IH]; intros cur; simpl.
  - now rewrite rev_involutive.
  - destruct (c =? LF).
    + rewrite IH, removelast_cons, last_cons by apply split_go_nonempty.
      reflexivity.
    + apply IH.
Qed.

Lemma split_go_no_LF (b y cur : jsstring) :
  ~ In LF b -> split_go cur (b ++ y) = split_go (rev b ++ cur) y.
Proof.
  revert cur. induction b as [|c b IH]; intros cur H; simpl.
  - reflexivity.
  - destruct (N.eqb_spec c LF) as [->|Hc].
    + exfalso. apply H. now left.
    + rewrite IH by (intro; apply H; now right).
      now rewrite <- app_assoc.
Qed.

Lemma last_split_go_no_LF (s cur : jsstring) :
  ~ In LF cur -> ~ In LF (last (split_go cur s) []).
Proof.
  revert cur. induction s as [|c s IH]; intros cur H; simpl.
  - now rewrite <- in_rev.
  - destruct (N.eqb_spec c LF) as [->|Hc].
    + rewrite last_cons by apply split_go_nonempty. apply IH. intros [].
    + apply IH. intros [->|Hin]; [now apply Hc | now apply H].
Qed.

(** The pieces, each but the last followed by a line feed, make up the
    string. *)
Lemma split_go_join (s cur : jsstring) :
  concat (map (fun l => l ++ [LF]) (removelast (split_go cur s))) ++
  last (split_go cur s) [] = rev cur ++ s.
Proof.
  revert cur. induction s as [|c s IH]; intros cur; simpl.
  - now rewrite app_nil_r.
  - destruct (N.eqb_spec c LF) as [->|Hc].
    + rewrite removelast_cons, last_cons by apply split_go_nonempty.
      simpl. rewrite <- !app_assoc. f_equal. simpl. f_equal. apply (IH []).
    + rewrite IH. simpl. now rewrite <- app_assoc.
Qed.

(** Holding back the last piece and splitting again with the next text gives
    the split of the whole. *)
Lemma split_LF_app (b x y : jsstring) :
  ~ In LF b ->
  split_LF (b ++ x ++ y) =
  removelast (split_LF (b ++ x)) ++ split_LF (last (split_LF (b ++ x)) [] ++ y).
Proof.
  intros Hb. unfold split_LF. rewrite app_assoc, split_go_app. f_equal.
  rewrite (@split_go_no_LF (last (split_go [] (b ++ x)) []) y []).
  - now rewrite app_nil_r.
  - apply last_split_go_no_LF. intros [].
Qed.

End StringFacts.

Module JSONFacts.
Import JSNumber JSValue JSON.

Ltac break_match :=
  match goal with
  | H : context [match ?x with _ => _ end] |- _ => destruct x eqn:?
  | |- context [match ?x with _ => _ end] => destruct x eqn:?
  end.

Ltac inv_some :=
  repeat match goal with
         | H : Some _ = Some _ |- _ => injection H as; subst
         | H : None = Some _ |- _ => discriminate H
         | H : (_, _) = (_, _) |- _ => injection H as; subst
         end.

Lemma skip_ws_length (s : jsstring) : (length (skip_ws s) <= length s)%nat.
Proof.
  induction s as [|c s IH]; simpl; [lia|].
  destruct ((c =? 32) || (c =? 9) || (c =? 10) || (c =? 13)); simpl; lia.
Qed.

Lemma string_body_length (s acc k r : jsstring) :
  string_body acc s = Some (k, r) -> (length r < length s)%nat.
Proof.
  revert acc.
  induction s as [s IH] using (well_founded_induction
                                 (Wf_nat.well_founded_ltof _ (@length N))).
  unfold Wf_nat.ltof in IH. intros acc H.
  destruct s as [|c s]; simpl in H; [discriminate|].
  repeat break_match; inv_some; simpl; try lia;
    match goal with
    | H : string_body _ ?x = Some _ |- _ => apply IH in H; simpl in *; lia
    end.
Qed.

Lemma scan_digits_length (base acc : N) (n : nat) (s : jsstring) x m r :
  scan_digits base acc n s = (x, m, r) -> (length r + m = length s + n)%nat.
Proof.
  revert acc n. induction s as [|c s IH]; intros acc n H; simpl in H.
  - inv_some. lia.
  - destruct (digit_value base c).
    + apply IH in H. simpl. lia.
    + inv_some. simpl. lia.
Qed.

Lemma scan_exponent_length (s : jsstring) x r :
  scan_exponent s = Some (x, r) -> (length r <= length s)%nat.
Proof.
  unfold scan_exponent. intros H.
  destruct s as [|c s1]; [inv_some; lia|].
  destruct ((c =? 101) || (c =? 69)); [|inv_some; lia].
  repeat break_match; inv_some;
    match goal with
    | H : scan_digits _ _ _ _ = _ |- _ => apply scan_digits_length in H; simpl in *; lia
    end.
Qed.

Lemma number_length (s : jsstring) v r :
  number s = Some (v, r) -> (length r < length s)%nat.
Proof.
  unfold number. intros H.
  repeat break_match; inv_some;
    repeat match goal with
           | H : scan_digits _ _ _ _ = _ |- _ => apply scan_digits_length in H
           | H : scan_exponent _ = _ |- _ => apply scan_exponent_length in H
           end; simpl in *; first [discriminate | lia].
Qed.

Lemma startsWith_length (p s : jsstring) :
  startsWith p s = true -> (length p <= length s)%nat.
Proof.
  revert s. induction p as [|c p IH]; intros s H; simpl; [lia|].
  destruct s as [|d s]; simpl in H; [discriminate|].
  apply andb_prop in H. destruct H as [_ H]. apply IH in H. simpl. lia.
Qed.

Lemma skipn_shorter (p s : jsstring) :
  p <> [] -> startsWith p s = true ->
  (length (skipn (length p) s) < length s)%nat.
Proof.
  intros Hp H. apply startsWith_length in H. rewrite length_skipn.
  destruct p; [congruence | simpl in *; lia].
Qed.

Lemma literal_length (s : jsstring) v r :
  literal s = Some (v, r) -> (length r < length s)%nat.
Proof.
  unfold literal. intros H.
  destruct (startsWith (lit "true") s) eqn:E1.
  { injection H as _ <-. apply (skipn_shorter (lit "true")); [discriminate | exact E1]. }
  destruct (startsWith (lit "false") s) eqn:E2.
  { injection H as _ <-. apply (skipn_shorter (lit "false")); [discriminate | exact E2]. }
  destruct (startsWith (lit "null") s) eqn:E3; [|discriminate].
  injection H as _ <-. apply (skipn_shorter (lit "null")); [discriminate | exact E3].
Qed.

Section Readers.
Variables value_at value_at' : jsstring -> option (value * jsstring).
Hypothesis value_at_consumes : consuming value_at.

Lemma elements_length (fuel : nat) (first : bool) (acc : list value) (s : jsstring) v r :
  elements value_at fuel first acc s = Some (v, r) -> (length r < length s)%nat.
Proof.
  revert first acc s. induction fuel as [|fuel IH]; intros first acc s H; simpl in H;
    [discriminate|].
  pose proof (skip_ws_length s).
  repeat break_match; inv_some;
    repeat match goal with
           | H : value_at _ = Some _ |- _ => apply value_at_consumes in H
           | H : elements _ _ _ _ _ = Some _ |- _ => apply IH in H
           | H : skip_ws ?x = _ :: _ |- _ =>
               let L := fresh in
               pose proof (skip_ws_length x) as L; rewrite H in L; clear H
           end; simpl in *; lia.
Qed.

Lemma members_length (fuel : nat) (first : bool) (acc : list (jsstring * value))
  (s : jsstring) v r :
  members value_at fuel first acc s = Some (v, r) -> (length r < length s)%nat.
Proof.
  revert first acc s. induction fuel as [|fuel IH]; intros first acc s H; simpl in H;
    [discriminate|].
  pose proof (skip_ws_length s).
  repeat break_match; inv_some;
    repeat match goal with
           | H : value_at _ = Some _ |- _ => apply value_at_consumes in H
           | H : string_body _ _ = Some _ |- _ => apply string_body_length in H
           | H : members _ _ _ _ _ = Some _ |- _ => apply IH in H
           | H : skip_ws ?x = _ :: _ |- _ =>
               let L := fresh in
               pose proof (skip_ws_length x) as L; rewrite H in L; clear H
           end; simpl in *; lia.
Qed.

(** With readers of values that agree on every input no longer than [s], the
    rest of an array or object is read alike under any two fuels above the
    length of [s]. *)
Lemma elements_fuel (fuel fuel' : nat) (first : bool) (acc : list value) (s : jsstring) :
  agree (length s) value_at value_at' ->
  (length s < fuel)%nat -> (length s < fuel')%nat ->
  elements value_at fuel first acc s = elements value_at' fuel' first acc s.
Proof.
  revert fuel' first acc s.
  induction fuel as [|fuel IH]; intros fuel' first acc s Ha Hf Hf'; [lia|].
  destruct fuel' as [|fuel']; [lia|]. simpl.
  pose proof (skip_ws_length s) as Hs.
  destruct (skip_ws s) as [|c r] eqn:E; [reflexivity|].
  destruct ((c =? 93) && first); [reflexivity|].
  rewrite <- (Ha (c :: r)) by exact Hs.
  destruct (value_at (c :: r)) as [[v s1]|] eqn:Ev; [|reflexivity].
  apply value_at_consumes in Ev.
  pose proof (skip_ws_length s1) as Hs1.
  destruct (skip_ws s1) as [|d r1]; [reflexivity|].
  destruct (d =? 44); [|reflexivity].
  simpl in *. apply IH; try lia.
  intros x Hx. apply Ha. lia.
Qed.

Lemma members_fuel (fuel fuel' : nat) (first : bool) (acc : list (jsstring * value))
  (s : jsstring) :
  agree (length s) value_at value_at' ->
  (length s < fuel)%nat -> (length s < fuel')%nat ->
  members value_at fuel first acc s = members value_at' fuel' first acc s.
Proof.
  revert fuel' first acc s.
  induction fuel as [|fuel IH]; intros fuel' first acc s Ha Hf Hf'; [lia|].
  destruct fuel' as [|fuel']; [lia|]. simpl.
  pose proof (skip_ws_length s) as Hs.
  destruct (skip_ws s) as [|c r] eqn:E; [reflexivity|].
  destruct ((c =? 125) && first); [reflexivity|].
  destruct (c =? 34); [|reflexivity].
  destruct (string_body [] r) as [[k s1]|] eqn:Ek; [|reflexivity].
  apply string_body_length in Ek.
  pose proof (skip_ws_length s1) as Hs1.
  destruct (skip_ws s1) as [|d r1]; [reflexivity|].
  destruct (d =? 58); [|reflexivity].
  simpl in *.
  rewrite <- (Ha r1) by lia.
  destruct (value_at r1) as [[v s2]|] eqn:Ev; [|reflexivity].
  apply value_at_consumes in Ev.
  pose proof (skip_ws_length s2) as Hs2.
  destruct (skip_ws s2) as [|x r2]; [reflexivity|].
  destruct (x =? 44); [|reflexivity].
  simpl in *. apply IH; try lia.
  intros y Hy. apply Ha. lia.
Qed.

End Readers.

Lemma parse_value_length (fuel : nat) : consuming (parse_value fuel).
Proof.
  induction fuel as [|fuel IH]; intros s v r H; simpl in H; [discriminate|].
  pose proof (skip_ws_length s) as Hs.
  destruct (skip_ws s) as [|c s'] eqn:E; [discriminate|].
  destruct (c =? 123); [apply (members_length _ IH) in H; simpl in *; lia|].
  destruct (c =? 91); [apply (elements_length _ IH) in H; simpl in *; lia|].
  destruct (c =? 34).
  - destruct (string_body [] s') as [[str r']|] eqn:Ek; [|discriminate].
    apply string_body_length in Ek. inv_some. simpl in *. lia.
  - destruct (literal (c :: s')) as [found|] eqn:El.
    + inv_some. apply literal_length in El. simpl in *. lia.
    + apply number_length in H. simpl in *. lia.
Qed.

(** The fuel does not matter once it is above the length of the text: what
    [parse_value] rejects it rejects for its syntax. *)
Theorem parse_value_fuel (fuel fuel' : nat) (s : jsstring) :
  (length s < fuel)%nat -> (length s < fuel')%nat ->
  parse_value fuel s = parse_value fuel' s.
Proof.
  revert fuel' s. induction fuel as [|fuel IH]; intros fuel' s Hf Hf'; [lia|].
  destruct fuel' as [|fuel']; [lia|]. simpl.
  pose proof (skip_ws_length s) as Hs.
  destruct (skip_ws s) as [|c r] eqn:E; [reflexivity|]. simpl in Hs.
  assert (Ha : agree (length r) (parse_value fuel) (parse_value fuel'))
    by (intros x Hx; apply IH; lia).
  destruct (c =? 123).
  { apply (members_fuel _ _ (parse_value_length fuel)); [exact Ha | lia | lia]. }
  destruct (c =? 91).
  { apply (elements_fuel _ _ (parse_value_length fuel)); [exact Ha | lia | lia]. }
  reflexivity.
Qed.

End JSONFacts.

Module FramerFacts.
Import ChatView StringFacts.

Lemma split_LF_no_LF (b : jsstring) : ~ In LF b -> split_LF b = [b].
Proof.
  intros H. unfold split_LF.
  rewrite <- (app_nil_r b) at 1. rewrite split_go_no_LF by assumption.
  simpl. now rewrite app_nil_r, rev_involutive.
Qed.

(** Decoding is byte by byte, so decoding two chunks in turn is decoding
    their concatenation. *)
Lemma decode_app (a b : list byte) (d : TextDecoder.decoder) :
  TextDecoder.decode d (a ++ b) =
  let '(d1, o1) := TextDecoder.decode d a in
  let '(d2, o2) := TextDecoder.decode d1 b in
  (d2, o1 ++ o2).
Proof.
  revert d. induction a as [|x a IH]; intros d; simpl.
  - now destruct (TextDecoder.decode d b).
  - destruct (TextDecoder.step d x) as [d1 o1]. rewrite IH.
    destruct (TextDecoder.decode d1 a) as [d2 o2].
    destruct (TextDecoder.decode d2 b) as [d3 o3].
    now rewrite app_assoc.
Qed.

(** What the framer has done after any chunks: seen as one text, the held-back
    buffer and the decoded bytes are split once; all pieces but the last
    have been handed on, the last is held back. *)
Lemma framer_whole (chunks : list (list byte)) (t : Turn) :
  ~ In LF (buffer t) ->
  framer chunks t =
  let '(d, decoded) := TextDecoder.decode (decoder t) (concat chunks) in
  let lines := split_LF (buffer t ++ decoded) in
  (removelast lines,
   {| awaiting := awaiting t; accumulated := accumulated t;
      tokenUsage := tokenUsage t; buffer := last lines []; decoder := d |}).
Proof.
  revert t. induction chunks as [|c chunks IH]; intros t Hb; simpl.
  - rewrite app_nil_r, split_LF_no_LF by assumption. simpl. now destruct t.
  - unfold frame. rewrite decode_app.
    destruct (TextDecoder.decode (decoder t) c) as [d1 o1].
    rewrite IH; simpl.
    + destruct (TextDecoder.decode d1 (concat chunks)) as [d2 o2].
      rewrite (split_LF_app _ o1 o2 Hb).
      rewrite removelast_app, last_app by apply split_go_nonempty.
      reflexivity.
    + apply last_split_go_no_LF. intros [].
Qed.

End FramerFacts.

Module MachineFacts.
Import JSNumber JSValue ChatView StringFacts.

(** Projections of updated records, and nothing else. *)
Ltac state_simpl :=
  cbn [sessionId messages streamingContent isStreaming toolUses toolResults
       statusText mode currentModel pendingPermission permissionResolved
       streamingToolOutput abortControllerRef accumulatedRef initializedRef
       streamingSessionId pendingApprovalSessionId turn clock timers fetches
       permissionFetches mounted set_initializedRef
       setMessages setStreamingContent setIsStreaming setToolUses
       setToolResults setStatusText setPendingPermission
       setPermissionResolved setStreamingToolOutput set_abortControllerRef
       set_accumulatedRef setStreamingSessionId setPendingApprovalSessionId
       set_turn set_clock set_timers set_fetches set_permissionFetches
       set_mounted setTimeout fire
       awaiting accumulated tokenUsage buffer decoder
       with_accumulated with_tokenUsage with_awaiting fst snd] in *.

Ltac split_all := repeat match goal with |- _ /\ _ => split end.

Lemma cleaned_finally (s : State) : cleaned (finally s).
Proof. unfold cleaned, turn_reset, gate_idle, finally. state_simpl. now split_all. Qed.

Lemma mounted_finally (s : State) : mounted (finally s) = mounted s.
Proof. reflexivity. Qed.

Lemma mounted_commit (t : Turn) (s : State) : mounted (commit t s) = mounted s.
Proof. unfold commit. now destruct (trim (accumulated t)). Qed.

Lemma mounted_catch (e : Thrown) (t : Turn) (s : State) :
  mounted (catch e t s) = mounted s.
Proof. unfold catch. destruct e; try reflexivity. now destruct (trim (accumulated t)). Qed.

Lemma leaves_cleaned (s s' : State) : leaves s s' -> cleaned s' /\ mounted s' = mounted s.
Proof.
  intros []; unfold completes, throws;
    (split;
     [apply cleaned_finally
     |rewrite mounted_finally, ?mounted_commit, ?mounted_catch; reflexivity]).
Qed.

Lemma expire_turn (l : list Timer) (s : State) : turn (expire l s) = turn s.
Proof.
  revert s. induction l as [|t l IH]; intros s; simpl; [reflexivity|].
  destruct (due t <=? clock s); rewrite IH; [|reflexivity].
  now destruct (callback t).
Qed.

(** A step that ends the live turn is one of its exits. *)
Lemma exits_leaves (s : State) (e : Event) : exits s e -> leaves s (step s e) /\ mounted s = true.
Proof.
  intros [Hlive Hend]. unfold step in *.
  destruct (mounted s) eqn:Hm; simpl in *; [split; [|reflexivity] | congruence].
  destruct e.
  - unfold sendMessage in *. destruct (isStreaming s); [congruence | discriminate].
  - unfold stopStreaming in *. destruct (abortControllerRef s); [|congruence].
    state_simpl. destruct (turn s); [apply leaves_after_stop | congruence].
  - unfold handlePermissionResponse in *.
    destruct (truthy (pendingPermission s)); simpl in *; congruence.
  - unfold permission_settled in *. destruct (permissionFetches s); simpl in *; congruence.
  - destruct (turn s) as [t|] eqn:Ht; [|congruence]. destruct (awaiting t); try congruence.
    unfold fetch_settled in *. destruct r as [response|x]; [|apply leaves_throws].
    destruct (ok response); cbn [negb] in *; [|discriminate].
    destruct (has_body response); cbn [negb] in *; [discriminate | apply leaves_throws].
  - destruct (turn s) as [t|] eqn:Ht; [|congruence]. destruct (awaiting t); try congruence.
    unfold json_settled in *. destruct r as [err|x]; [|apply leaves_throws].
    destruct (Get err "error"); [destruct (ToString _)|]; apply leaves_throws.
  - destruct (turn s) as [t|] eqn:Ht; [|congruence]. destruct (awaiting t); try congruence.
    unfold read_settled in *.
    destruct r as [[value|]|x]; [|apply leaves_completes|apply leaves_throws].
    destruct (read_chunk value (s, t)). discriminate.
  - unfold elapse in *. state_simpl. rewrite expire_turn in Hend. simpl in Hend. congruence.
Qed.

Lemma accepted_idle (content : jsstring) (s : State) :
  mounted s = true -> isStreaming s = false -> accepted content s.
Proof.
  intros Hm Hs. unfold accepted, step, sendMessage. rewrite Hm, Hs. simpl.
  now split_all.
Qed.

(** Whenever the live turn ends the state is clean and open to a new turn. *)
Lemma exits_cleaned (s : State) (e : Event) :
  exits s e -> cleaned (step s e) /\ forall content, accepted content (step s e).
Proof.
  intros H. destruct (exits_leaves s e H) as [Hl Hm].
  destruct (leaves_cleaned _ _ Hl) as [Hc Hm']. split; [exact Hc|].
  intros content. apply accepted_idle; [congruence | apply Hc].
Qed.

Lemma step_end_of_stream (s : State) (t : Turn) :
  mounted s = true -> turn s = Some t -> awaiting t = reader_read ->
  step s (ReadSettled (fulfilled end_of_stream)) = completes t s.
Proof. intros Hm Ht Ha. unfold step. now rewrite Hm, Ht, Ha. Qed.

Lemma messages_completes (t : Turn) (s : State) :
  messages (completes t s) =
  match trim (accumulated t) with
  | [] => messages s
  | content =>
      messages s ++
      [assistant_message "temp-assistant-" content
         (if truthy (tokenUsage t) then JSON.stringify (tokenUsage t) else Null) s]
  end.
Proof.
  unfold completes, finally, commit. state_simpl.
  now destruct (trim (accumulated t)).
Qed.

Lemma messages_throws_abort (t : Turn) (s : State) :
  messages (throws AbortError t s) =
  match trim (accumulated t) with
  | [] => messages s
  | content =>
      messages s ++
      [assistant_message "temp-assistant-" (content ++ generation_stopped) Null s]
  end.
Proof.
  unfold throws, finally, catch. state_simpl.
  now destruct (trim (accumulated t)).
Qed.

End MachineFacts.

Module LoopFacts.
Import JSNumber JSValue ChatView StringFacts MachineFacts.

Ltac loop_cases :=
  repeat match goal with
         | |- context [match ?x with _ => _ end] => destruct x eqn:?
         end;
  state_simpl.

Lemma loop_frame_refl (s : State) : loop_frame s s.
Proof. unfold loop_frame. now split_all. Qed.

Lemma loop_frame_trans (s1 s2 s3 : State) :
  loop_frame s1 s2 -> loop_frame s2 s3 -> loop_frame s1 s3.
Proof. unfold loop_frame. intuition congruence. Qed.

Lemma fold_event_frame (type : EventType) (data : value) (s : State) (t : Turn) :
  loop_frame s (fst (fold_event type data (s, t))).
Proof.
  unfold fold_event, append_text, loop_frame.
  loop_cases; now split_all.
Qed.

Lemma handle_line_frame (line : jsstring) (s : State) (t : Turn) :
  loop_frame s (fst (handle_line line (s, t))).
Proof.
  unfold handle_line.
  loop_cases; try apply loop_frame_refl. apply fold_event_frame.
Qed.

Lemma handle_lines_frame (lines : list jsstring) (s : State) (t : Turn) :
  loop_frame s (fst (fold_left (fun st line => handle_line line st) lines (s, t))).
Proof.
  revert s t. induction lines as [|line lines IH]; intros s t; simpl.
  - apply loop_frame_refl.
  - destruct (handle_line line (s, t)) as [s1 t1] eqn:E.
    apply loop_frame_trans with s1; [|apply IH].
    change s1 with (fst (s1, t1)). rewrite <- E. apply handle_line_frame.
Qed.

Lemma read_chunk_frame (value : list byte) (s : State) (t : Turn) :
  loop_frame s (fst (read_chunk value (s, t))).
Proof.
  unfold read_chunk. destruct (frame value t) as [lines t1]. apply handle_lines_frame.
Qed.

(** The updater of the live output never returns more than 5000 code
    units. *)
Lemma add_tool_output_length (data : value) (prev output : jsstring) :
  add_tool_output data prev = Some output -> (length output <= 5000)%nat.
Proof.
  unfold add_tool_output, slice_last.
  destruct (ToString data) as [payload|]; [|discriminate].
  set (next := prev ++ _ ++ payload). intros [= <-].
  destruct (Nat.ltb_spec 5000 (length next)).
  - rewrite length_skipn. lia.
  - assumption.
Qed.

Lemma fold_event_bounded (type : EventType) (data : value) (s : State) (t : Turn) :
  bounded s -> bounded (fst (fold_event type data (s, t))).
Proof.
  unfold bounded, fold_event, append_text. intros H.
  loop_cases; try assumption;
    try (eapply add_tool_output_length; eassumption); apply Nat.le_0_l.
Qed.

Lemma handle_line_bounded (line : jsstring) (st : State * Turn) :
  bounded (fst st) -> bounded (fst (handle_line line st)).
Proof.
  destruct st as [s t]. unfold handle_line. intros H.
  loop_cases; try assumption. now apply fold_event_bounded.
Qed.

Lemma handle_lines_bounded (lines : list jsstring) (st : State * Turn) :
  bounded (fst st) ->
  bounded (fst (fold_left (fun st line => handle_line line st) lines st)).
Proof.
  revert st. induction lines as [|line lines IH]; intros st H; simpl.
  - assumption.
  - apply IH. now apply handle_line_bounded.
Qed.

(** A frame of type [text] with a string payload appends the payload. *)
Lemma handle_text_frame (line payload : jsstring) (s : State) (t : Turn) :
  text_frame line payload -> mounted s = true ->
  handle_line line (s, t) = append_text payload (s, t).
Proof.
  intros (Hf & event & Hp & Ht & Hd) Hm. unfold handle_line, prop.
  cbn [fst]. rewrite Hm, Hf, Hp, Ht, Hd. reflexivity.
Qed.

Lemma frame_locals (value : list byte) (t : Turn) :
  awaiting (snd (frame value t)) = awaiting t /\
  accumulated (snd (frame value t)) = accumulated t /\
  tokenUsage (snd (frame value t)) = tokenUsage t.
Proof.
  unfold frame. destruct (TextDecoder.decode (decoder t) value). now split_all.
Qed.

End LoopFacts.

Module InvariantFacts.
Import JSNumber JSValue ChatView StringFacts MachineFacts LoopFacts.

Lemma fire_frame (c : Callback) (s : State) :
  loop_frame s (fire c s) /\ streamingToolOutput (fire c s) = streamingToolOutput s /\
  timers (fire c s) = timers s /\ mounted (fire c s) = mounted s.
Proof. destruct c; unfold loop_frame; state_simpl; now split_all. Qed.

Lemma expire_frame (l : list Timer) (s : State) :
  loop_frame s (expire l s) /\
  streamingToolOutput (expire l s) = streamingToolOutput s /\
  timers (expire l s) = timers s /\ mounted (expire l s) = mounted s.
Proof.
  revert s. induction l as [|t l IH]; intros s; simpl.
  - split; [apply loop_frame_refl | now split_all].
  - destruct (due t <=? clock s); [|apply IH].
    destruct (fire_frame (callback t) s) as (F & O & T & M).
    destruct (IH (fire (callback t) s)) as (F' & O' & T' & M').
    split; [now apply loop_frame_trans with (fire (callback t) s) | split_all; congruence].
Qed.

Lemma bounded_finally (s : State) : bounded (finally s).
Proof. unfold bounded, finally. state_simpl. simpl. lia. Qed.

Lemma step_bounded (s : State) (e : Event) : bounded s -> bounded (step s e).
Proof.
  intros H. unfold step. destruct (mounted s); simpl; [|assumption].
  destruct e.
  - unfold sendMessage. now destruct (isStreaming s).
  - unfold stopStreaming. destruct (abortControllerRef s); [|assumption].
    state_simpl. destruct (turn s); [apply bounded_finally | assumption].
  - unfold handlePermissionResponse. now destruct (truthy (pendingPermission s)).
  - unfold permission_settled. now destruct (permissionFetches s).
  - destruct (turn s) as [t|]; [|assumption]. destruct (awaiting t); try assumption.
    unfold fetch_settled. destruct r as [response|x]; [|apply bounded_finally].
    destruct (ok response); simpl; [|assumption].
    destruct (has_body response); simpl; [assumption | apply bounded_finally].
  - destruct (turn s) as [t|]; [|assumption]. destruct (awaiting t); try assumption.
    unfold json_settled. destruct r as [err|x]; [|apply bounded_finally].
    destruct (Get err "error"); [destruct (ToString _)|]; apply bounded_finally.
  - destruct (turn s) as [t|]; [|assumption]. destruct (awaiting t); try assumption.
    unfold read_settled. destruct r as [[value|]|x]; try apply bounded_finally.
    destruct (read_chunk value (s, t)) as [s1 t1] eqn:E.
    unfold bounded. state_simpl. change s1 with (fst (s1, t1)). rewrite <- E.
    unfold read_chunk. destruct (frame value t) as [lines t2].
    now apply handle_lines_bounded.
  - unfold elapse, bounded. state_simpl.
    destruct (expire_frame (timers s) (set_clock (clock s + ms) s)) as (_ & O & _).
    rewrite O. exact H.
Qed.

Lemma run_invariant (P : State -> Prop) :
  (forall s e, P s -> P (step s e)) ->
  forall events s, P s -> P (run s events).
Proof.
  intros Hstep events. unfold run.
  induction events as [|e events IH]; intros s H; simpl; [assumption|].
  apply IH, Hstep, H.
Qed.

Lemma coherent_leaves (s s' : State) : leaves s s' -> coherent s'.
Proof.
  intros H. apply leaves_cleaned in H. destruct H as [(_ & _ & Hs & _ & _ & Ht) _].
  unfold coherent. rewrite Hs, Ht. split; [split|]; congruence.
Qed.

Lemma coherent_live (s : State) (t' : Turn) (s' : State) :
  coherent s -> turn s <> None -> loop_frame s s' -> coherent (set_turn (Some t') s').
Proof.
  intros [[H1 H2] H3] Hlive (_ & _ & Hs & _ & _ & Hr & _).
  unfold coherent. state_simpl. rewrite Hs, Hr.
  split; [split|]; intros; auto; discriminate.
Qed.

Lemma step_coherent (s : State) (e : Event) : coherent s -> coherent (step s e).
Proof.
  intros H. unfold step. destruct (mounted s); simpl; [|assumption].
  destruct e.
  - unfold sendMessage. destruct (isStreaming s); [assumption|].
    unfold coherent. state_simpl. split; [split|]; intros; congruence.
  - unfold stopStreaming. destruct (abortControllerRef s) eqn:Hr; [|assumption].
    state_simpl. destruct (turn s) eqn:Ht.
    + eapply coherent_leaves. apply leaves_after_stop.
    + destruct H as [H1 H2]. unfold coherent. state_simpl.
      split; [exact H1 | rewrite Ht; congruence].
  - unfold handlePermissionResponse. now destruct (truthy (pendingPermission s)).
  - unfold permission_settled. now destruct (permissionFetches s).
  - destruct (turn s) as [t|] eqn:Ht; [|assumption]. destruct (awaiting t); try assumption.
    unfold fetch_settled.
    destruct r as [response|x]; [|eapply coherent_leaves; apply leaves_throws].
    destruct (ok response); simpl.
    + destruct (has_body response); simpl; [|eapply coherent_leaves; apply leaves_throws].
      apply coherent_live with s; [assumption | congruence | apply loop_frame_refl].
    + apply coherent_live with s; [assumption | congruence | apply loop_frame_refl].
  - destruct (turn s) as [t|]; [|assumption]. destruct (awaiting t); try assumption.
    unfold json_settled. destruct r as [err|x]; [|eapply coherent_leaves; apply leaves_throws].
    destruct (Get err "error"); [destruct (ToString _)|];
      eapply coherent_leaves; apply leaves_throws.
  - destruct (turn s) as [t|] eqn:Ht; [|assumption]. destruct (awaiting t); try assumption.
    unfold read_settled.
    destruct r as [[value|]|x]; [|eapply coherent_leaves; apply leaves_completes|eapply coherent_leaves; apply leaves_throws].
    destruct (read_chunk value (s, t)) as [s1 t1] eqn:E.
    apply coherent_live with s; [assumption | congruence |].
    change s1 with (fst (s1, t1)). rewrite <- E. apply read_chunk_frame.
  - unfold elapse.
    destruct (expire_frame (timers s) (set_clock (clock s + ms) s))
      as ((_ & _ & Hs & _ & _ & Hr & _ & Ht & _) & _).
    state_simpl. destruct H as [H1 H2].
    unfold coherent. state_simpl. rewrite Hs, Hr, Ht. now split.
Qed.

Lemma coherent_initial (sessionId : jsstring) (initialMessages : list Message.t)
  (modelName initialMode : option jsstring) (now : N) :
  coherent (initial sessionId initialMessages modelName initialMode now).
Proof. unfold coherent, initial. state_simpl. split; [split|]; congruence. Qed.

End InvariantFacts.

Module TimerFacts.
Import JSNumber JSValue ChatView StringFacts MachineFacts LoopFacts InvariantFacts.

Lemma In_insert_timer (t : Timer) (l : list Timer) : In t (insert_timer t l).
Proof.
  induction l as [|a l IH]; simpl; [now left|].
  destruct (due a <=? due t); [right; exact IH | now left].
Qed.

Lemma incl_insert_timer (t : Timer) (l : list Timer) : incl l (insert_timer t l).
Proof.
  induction l as [|a l IH]; simpl; [intros x []|].
  destruct (due a <=? due t).
  - intros x [->|H]; [now left | right; now apply IH].
  - intros x H. now right.
Qed.

Lemma fold_event_timers (type : EventType) (data : value) (s : State) (t : Turn) :
  incl (timers s) (timers (fst (fold_event type data (s, t)))).
Proof.
  unfold fold_event, append_text.
  loop_cases; try apply incl_refl. apply incl_insert_timer.
Qed.

Lemma handle_line_timers (line : jsstring) (st : State * Turn) :
  incl (timers (fst st)) (timers (fst (handle_line line st))).
Proof.
  destruct st as [s t]. unfold handle_line.
  loop_cases; try apply incl_refl. apply fold_event_timers.
Qed.

Lemma handle_lines_timers (lines : list jsstring) (st : State * Turn) :
  incl (timers (fst st))
       (timers (fst (fold_left (fun st line => handle_line line st) lines st))).
Proof.
  revert st. induction lines as [|line lines IH]; intros st; simpl.
  - apply incl_refl.
  - eapply incl_tran; [apply handle_line_timers | apply IH].
Qed.

Lemma timers_finally (s : State) : timers (finally s) = timers s.
Proof. reflexivity. Qed.

Lemma timers_commit (t : Turn) (s : State) : timers (commit t s) = timers s.
Proof. unfold commit. now destruct (trim (accumulated t)). Qed.

Lemma timers_catch (e : Thrown) (t : Turn) (s : State) : timers (catch e t s) = timers s.
Proof. unfold catch. destruct e; try reflexivity. now destruct (trim (accumulated t)). Qed.

Lemma timers_leaves (s s' : State) : leaves s s' -> timers s' = timers s.
Proof.
  intros []; unfold completes, throws;
    now rewrite timers_finally, ?timers_commit, ?timers_catch.
Qed.

(** No event but the passing of time takes a timer away. *)
Lemma step_timers (s : State) (e : Event) :
  (forall ms, e <> Elapse ms) -> incl (timers s) (timers (step s e)).
Proof.
  intros He. unfold step. destruct (mounted s); simpl; [|apply incl_refl].
  destruct e.
  - unfold sendMessage. destruct (isStreaming s); apply incl_refl.
  - unfold stopStreaming. destruct (abortControllerRef s); [|apply incl_refl].
    state_simpl. destruct (turn s); [|apply incl_refl].
    rewrite (timers_leaves s _ (leaves_after_stop s AbortError t)). apply incl_refl.
  - unfold handlePermissionResponse.
    destruct (truthy (pendingPermission s)); apply incl_refl.
  - unfold permission_settled. destruct (permissionFetches s); [apply incl_refl|].
    state_simpl. apply incl_insert_timer.
  - destruct (turn s) as [t|]; [|apply incl_refl].
    destruct (awaiting t); try apply incl_refl.
    unfold fetch_settled. destruct r as [response|x].
    + destruct (ok response); cbn [negb]; [|apply incl_refl].
      destruct (has_body response); cbn [negb]; [apply incl_refl|].
      rewrite (timers_leaves s _ (leaves_throws s _ t)). apply incl_refl.
    + rewrite (timers_leaves s _ (leaves_throws s x t)). apply incl_refl.
  - destruct (turn s) as [t|]; [|apply incl_refl].
    destruct (awaiting t); try apply incl_refl.
    unfold json_settled. destruct r as [err|x].
    + destruct (Get err "error"); [destruct (ToString _)|];
        rewrite (timers_leaves s _ (leaves_throws s _ t)); apply incl_refl.
    + rewrite (timers_leaves s _ (leaves_throws s x t)). apply incl_refl.
  - destruct (turn s) as [t|]; [|apply incl_refl].
    destruct (awaiting t); try apply incl_refl.
    unfold read_settled. destruct r as [[value|]|x].
    + destruct (read_chunk value (s, t)) as [s1 t1] eqn:E. state_simpl.
      change s1 with (fst (s1, t1)). rewrite <- E.
      unfold read_chunk. destruct (frame value t) as [lines t2].
      apply (handle_lines_timers lines (s, t2)).
    + rewrite (timers_leaves s _ (leaves_completes s t)). apply incl_refl.
    + rewrite (timers_leaves s _ (leaves_throws s x t)). apply incl_refl.
  - now elim (He ms).
Qed.

Lemma clock_expire (l : list Timer) (s : State) : clock (expire l s) = clock s.
Proof. now destruct (expire_frame l s) as ((_ & _ & _ & _ & _ & _ & _ & _ & H & _) & _). Qed.

Lemma clock_fire (c : Callback) (s : State) : clock (fire c s) = clock s.
Proof. now destruct c. Qed.

Lemma expire_status_stays (l : list Timer) (s : State) :
  statusText s = Undefined -> statusText (expire l s) = Undefined.
Proof.
  revert s. induction l as [|a l IH]; intros s H; simpl; [assumption|].
  destruct (due a <=? clock s); apply IH; [|assumption].
  destruct (callback a); state_simpl; [reflexivity | assumption].
Qed.

(** A due [clear_status] timer leaves the status undefined. *)
Lemma expire_clears_status (l : list Timer) (t : Timer) (s : State) :
  In t l -> callback t = clear_status -> due t <= clock s ->
  statusText (expire l s) = Undefined.
Proof.
  revert s. induction l as [|a l IH]; intros s Hin Hc Hd; simpl; [destruct Hin|].
  destruct Hin as [->|Hin].
  - apply N.leb_le in Hd. rewrite Hd, Hc. now apply expire_status_stays.
  - destruct (due a <=? clock s); apply IH; try assumption.
    now rewrite clock_fire.
Qed.

Lemma expire_idle_stays (l : list Timer) (s : State) :
  pendingPermission s = Null /\ permissionResolved s = None ->
  pendingPermission (expire l s) = Null /\ permissionResolved (expire l s) = None.
Proof.
  revert s. induction l as [|a l IH]; intros s H; simpl; [assumption|].
  destruct (due a <=? clock s); apply IH; [|assumption].
  destruct (callback a); state_simpl; [assumption | now split].
Qed.




Lemma expire_text (l : list Timer) (s : State) : same_text s (expire l s).
Proof.
  revert s. induction l as [|a l IH]; intros s; simpl.
  - now split_all.
  - destruct (due a <=? clock s); [|apply IH].
    destruct (IH (fire (callback a) s)) as (H1 & H2 & H3).
    unfold same_text. rewrite H1, H2, H3. now destruct (callback a).
Qed.




End TimerFacts.

(** * The platform model on known values *)

Module Examples.
Import JSNumber JSValue ChatView Scenario.

Ltac by_evaluation := vm_compute; reflexivity.

(** Number::toString, on values whose output every engine agrees on. *)
Example toString_tenth : toString (of_decimal false 1 (-1)) = lit "0.1".
Proof. by_evaluation. Qed.

Example toString_1e21 : toString (of_decimal false 1 21) = lit "1e+21".
Proof. by_evaluation. Qed.

Example toString_1e20 :
  toString (of_decimal false 1 20) = lit "100000000000000000000".
Proof. by_evaluation. Qed.

Example toString_1e23 : toString (of_decimal false 1 23) = lit "1e+23".
Proof. by_evaluation. Qed.

Example toString_smallest : toString (of_decimal false 5 (-324)) = lit "5e-324".
Proof. by_evaluation. Qed.

Example toString_underflow : of_decimal false 2 (-324) = zero false.
Proof. by_evaluation. Qed.

Example toString_largest :
  toString (of_decimal false 17976931348623157 292) = lit "1.7976931348623157e+308".
Proof. by_evaluation. Qed.

Example toString_overflow : of_decimal false 18 307 = Inf false.
Proof. by_evaluation. Qed.

Example toString_micro : toString (of_decimal false 1 (-6)) = lit "0.000001".
Proof. by_evaluation. Qed.

Example toString_tenth_of_micro : toString (of_decimal false 1 (-7)) = lit "1e-7".
Proof. by_evaluation. Qed.

Example toString_beyond_2_53 :
  toString (of_decimal false 9007199254740993 0) = lit "9007199254740992".
Proof. by_evaluation. Qed.

Example toString_clock : toString (of_N 1700000000000) = lit "1700000000000".
Proof. by_evaluation. Qed.

Example round_half_up : toString (round (of_decimal false 25 (-1))) = lit "3".
Proof. by_evaluation. Qed.

Example round_half_up_negative : toString (round (of_decimal true 25 (-1))) = lit "-2".
Proof. by_evaluation. Qed.

Example round_to_negative_zero : round (of_decimal true 4 (-1)) = zero true.
Proof. by_evaluation. Qed.

Example ToNumber_hex : ToNumber (Str (lit " 0x1F ")) = Some (of_N 31).
Proof. by_evaluation. Qed.

Example ToNumber_not_a_number : ToNumber (Str (lit "1 2")) = Some NaN.
Proof. by_evaluation. Qed.

Example ToNumber_array : ToNumber (Arr [Str (lit "42")]) = Some (of_N 42).
Proof. by_evaluation. Qed.

Example ToString_array :
  ToString (Arr [Num (of_N 1); Null; Arr [Str (lit "a"); Undefined]; Obj []]) =
  Some (lit "1,,a,,[object Object]").
Proof. by_evaluation. Qed.

(** An object with a [toString] of its own has no string form, nor has an
    array that holds one; a [valueOf] of its own does no harm. *)
Example ToString_own_toString :
  ToString (Obj [(lit "toString", Num (of_N 1))]) = None /\
  ToString (Arr [Num (of_N 1); Arr [Obj [(lit "toString", Null)]]]) = None /\
  ToNumber (Obj [(lit "toString", Num (of_N 1))]) = None /\
  ToString (Obj [(lit "valueOf", Num (of_N 1))]) = Some (lit "[object Object]").
Proof. repeat split; by_evaluation. Qed.

(** JSON.parse and JSON.stringify *)
Example parse_text_frame :
  JSON.parse_text (json "{'type':'text','data':'Hello'}") =
  Some (Obj [(lit "type", Str (lit "text")); (lit "data", Str (lit "Hello"))]).
Proof. by_evaluation. Qed.

Example parse_not_json : JSON.parse_text (lit "{not json") = None.
Proof. by_evaluation. Qed.

Example parse_trailing_comma : JSON.parse_text (lit "[1,]") = None.
Proof. by_evaluation. Qed.

Example parse_leading_zero : JSON.parse_text (lit "01") = None.
Proof. by_evaluation. Qed.

Example parse_null : JSON.parse_text (lit " null ") = Some Null.
Proof. by_evaluation. Qed.

Example parse_nested :
  JSON.parse_text (json "[[[]],{'a':{'b':[null]}}]") =
  Some (Arr [Arr [Arr []]; Obj [(lit "a", Obj [(lit "b", Arr [Null])])]]).
Proof. by_evaluation. Qed.

(** A repeated key takes the last value in the first place; index keys come
    first, in ascending order. *)
Example stringify_key_order :
  option_map JSON.stringify
    (JSON.parse_text (json "{'b':1,'2':2,'a':3,'1':4,'b':5}")) =
  Some (Str (json "{'1':4,'2':2,'b':5,'a':3}")).
Proof. by_evaluation. Qed.

Example stringify_escapes :
  JSON.stringify (Str [97; 10; 34; 1; 55357]) =
  Str ([34; 97] ++ lit "\n\" ++ [34] ++ lit "\u0001\ud83d" ++ [34]).
Proof. by_evaluation. Qed.

Example stringify_skips_undefined :
  JSON.stringify (Obj [(lit "a", Undefined); (lit "b", Arr [Undefined; Num (Inf false)])]) =
  Str (json "{'b':[null,null]}").
Proof. by_evaluation. Qed.

(** TextDecoder: the byte order mark is dropped, an ill-formed sequence
    becomes U+FFFD, a sequence cut by the end of the chunk waits. *)
Example decode_bom_and_errors :
  snd (TextDecoder.decode TextDecoder.fresh
         [xef; xbb; xbf; x68; xe2; x82; xac; xf0; x9f; x98; x80; xff; xc3; x28]) =
  [104; 8364; 55357; 56832; 65533; 65533; 40].
Proof. by_evaluation. Qed.

Example decode_cut_euro :
  let '(d, first) := TextDecoder.decode TextDecoder.fresh [xe2; x82] in
  (first, snd (TextDecoder.decode d [xac; x0a])) = ([], [8364; 10]).
Proof. by_evaluation. Qed.

(** The scenarios of the specification. *)
Example hello_world_committed :
  map Message.content (messages (step hello_world closed)) =
  [lit "hi"; lit "Hello world"].
Proof. by_evaluation. Qed.

Example sandwich_folds_both :
  streamingContent (step streaming (received sandwich)) = lit "Hello world" /\
  mounted (step streaming (received sandwich)) = true /\
  map Message.content (messages (run streaming [received sandwich; closed])) =
  [lit "hi"; lit "Hello world"].
Proof. repeat split; by_evaluation. Qed.

Example repeated_tool_use_one_entry :
  map ToolUseInfo.id (toolUses (run streaming [received bash_1; received bash_1])) =
  [Str (lit "1")].
Proof. by_evaluation. Qed.

Example cancel_after_partial :
  map Message.content (messages (step partial Stop)) =
  [lit "hi"; lit "partial" ++ [LF; LF] ++ lit "*(generation stopped)*"] /\
  isStreaming (run partial [Stop; Send (lit "again")]) = true.
Proof. split; by_evaluation. Qed.

(** A [tool_use] payload that parses to [null] makes the updater throw. *)
Example null_tool_use_unmounts :
  mounted (step streaming
             (received (sse "data: {'type':'tool_use','data':'null'}"))) = false.
Proof. by_evaluation. Qed.

(** A payload that has no string form: the [text] frame is skipped, the
    [tool_output] frame makes the updater throw, the init [status] shows
    its payload and sets no timer, the heartbeat is handled as raw output,
    and the error of a failed request is the TypeError. *)
Example text_without_string_form_skipped :
  run streaming
    [received (sse "data: {'type':'text','data':'Hello'}" ++
               sse "data: {'type':'text','data':{'toString':1}}" ++
               sse "data: {'type':'error','data':[{'toString':1}]}")] =
  run streaming [received (sse "data: {'type':'text','data':'Hello'}")].
Proof. by_evaluation. Qed.

Example output_without_string_form_unmounts :
  mounted (step streaming
             (received (sse "data: {'type':'tool_output','data':{'toString':1}}"))) =
  false /\
  streamingToolOutput
    (step streaming (received (sse "data: {'type':'tool_output','data':{}}"))) =
  lit "[object Object]".
Proof. split; by_evaluation. Qed.

Example init_status_without_string_form :
  let s :=
    step streaming
      (received
         (sse "data: {'type':'status','data':'{\'session_id\':\'abc\',\'model\':{\'toString\':1}}'}")) in
  statusText s = Str (json "{'session_id':'abc','model':{'toString':1}}") /\
  timers s = [].
Proof. split; by_evaluation. Qed.

Example heartbeat_without_string_form :
  let s :=
    step streaming
      (received
         (sse "data: {'type':'tool_output','data':'{\'_progress\':true,\'tool_name\':[{\'toString\':1}]}'}")) in
  statusText s = Undefined /\
  streamingToolOutput s = json "{'_progress':true,'tool_name':[{'toString':1}]}".
Proof. split; by_evaluation. Qed.

Example failed_request_without_string_form :
  map Message.content
    (messages (run start
                 [Send (lit "hi");
                  FetchSettled (fulfilled {| ok := false; has_body := true |});
                  JsonSettled
                    (fulfilled (Obj [(lit "error", Obj [(lit "toString", Null)])]))])) =
  [lit "hi"; lit "**Error:** Cannot convert object to primitive value"].
Proof. by_evaluation. Qed.

(** A response that is not a success, with its error text. *)
Example failed_request :
  map Message.content
    (messages (run start
                 [Send (lit "hi");
                  FetchSettled (fulfilled {| ok := false; has_body := true |});
                  JsonSettled (fulfilled (Obj [(lit "error", Str (lit "No session"))]))])) =
  [lit "hi"; lit "**Error:** No session"].
Proof. by_evaluation. Qed.

End Examples.

(** * The claims of the specification *)

Module Claims.
Import JSNumber JSValue ChatView StringFacts MachineFacts LoopFacts.
Import InvariantFacts TimerFacts FramerFacts Scenario.

Ltac evaluate := vm_compute; first [reflexivity | discriminate | lia].

(** C1. The single live turn. While a turn is streaming, [sendMessage]
    changes nothing: no message is appended and no request issued. Whenever
    the live turn ends, on whatever event, the state is the one the
    [finally] block leaves (turn state reset, gate idle, streaming flag
    down), and a later [sendMessage] is accepted. The turn does end when the
    stream ends, when the promise it awaits is rejected (with an AbortError
    or any other error), when the response is not a success, and on
    [stopStreaming]. And from the first render on, a turn is live exactly
    while the streaming flag is up. *)
Theorem single_live_turn :
  (forall s content, isStreaming s = true -> step s (Send content) = s) /\
  (forall s e, exits s e ->
     cleaned (step s e) /\ forall content, accepted content (step s e)) /\
  (forall s t, turn s = Some t -> mounted s = true ->
     (abortControllerRef s <> None -> exits s Stop) /\
     match awaiting t with
     | fetch_response => forall x, exits s (FetchSettled (rejected x))
     | response_json => forall r, exits s (JsonSettled r)
     | reader_read =>
         exits s (ReadSettled (fulfilled end_of_stream)) /\
         forall x, exits s (ReadSettled (rejected x))
     end) /\
  (forall sessionId initialMessages modelName initialMode now events,
     coherent (run (initial sessionId initialMessages modelName initialMode now) events)).
Proof.
  split_all.
  - intros s content H. unfold step, sendMessage. rewrite H. now destruct (mounted s).
  - exact exits_cleaned.
  - intros s t Ht Hm. split.
    + intros Hr. split; [congruence|].
      unfold step, stopStreaming. rewrite Hm. cbn [negb].
      destruct (abortControllerRef s); [|congruence].
      state_simpl. now rewrite Ht.
    + unfold exits, step. rewrite Hm, Ht. cbn [negb].
      destruct (awaiting t) eqn:Ha.
      * intros x. split; [congruence | reflexivity].
      * intros [err|x]; (split; [congruence|]); unfold json_settled;
          [destruct (Get err "error"); [now destruct (ToString _) | reflexivity]
          | reflexivity].
      * split; [|intros x]; (split; [congruence | reflexivity]).
  - intros. apply (run_invariant coherent step_coherent), coherent_initial.
Qed.

Lemma single_live_turn_witness :
  isStreaming streaming = true /\
  step streaming (Send (lit "more")) = streaming /\
  exits streaming closed /\
  cleaned (step streaming closed) /\
  accepted (lit "more") (step streaming closed).
Proof.
  pose proof single_live_turn as (H1 & H2 & _).
  assert (Hs : isStreaming streaming = true) by evaluate.
  assert (He : exits streaming closed) by (split; evaluate).
  split_all;
    [exact Hs | exact (H1 _ _ Hs) | exact He | apply (H2 _ _ He) | apply (H2 _ _ He)].
Defined.

(** C2. Whatever the cut of the same bytes into chunks, the framer hands on
    the same frames in the same order and holds back the same remainder; and
    whatever the chunks, the lines handed on so far, each with its line
    feed, followed by the held-back remainder, are the text decoded so far,
    and the remainder holds no line feed: a line is handed on only once its
    line feed has been read. *)
Theorem framer_segmentation_independent
  (accumulated : jsstring) (chunks1 chunks2 : list (list byte)) :
  concat chunks1 = concat chunks2 ->
  let t := reading accumulated in
  frames chunks1 t = frames chunks2 t /\
  framer chunks1 t = framer chunks2 t /\
  (concat (map (fun line => line ++ [LF]) (fst (framer chunks1 t))) ++
   buffer (snd (framer chunks1 t)) =
   snd (TextDecoder.decode TextDecoder.fresh (concat chunks1))) /\
  ~ In LF (buffer (snd (framer chunks1 t))).
Proof.
  intros H t.
  assert (Hb : ~ In LF (buffer t)) by (intros []).
  assert (E : framer chunks1 t = framer chunks2 t)
    by (rewrite !framer_whole by exact Hb; now rewrite H).
  split_all.
  - unfold frames. now rewrite E.
  - exact E.
  - rewrite framer_whole by exact Hb. cbn [reading buffer decoder t].
    destruct (TextDecoder.decode TextDecoder.fresh (concat chunks1)) as [d decoded].
    cbn [fst snd buffer app]. apply (split_go_join decoded []).
  - rewrite framer_whole by exact Hb. cbn [reading buffer decoder t].
    destruct (TextDecoder.decode TextDecoder.fresh (concat chunks1)) as [d decoded].
    cbn [fst snd buffer app]. apply last_split_go_no_LF. intros [].
Qed.

Lemma framer_segmentation_independent_witness :
  concat euro_whole = concat euro_cut /\
  frames euro_whole (reading []) = frames euro_cut (reading []) /\
  frames euro_cut (reading []) =
    [json "data: {'type':'text','data':'" ++ [8364] ++ json "'}";
     json "data: {'type':'done','data':''}"].
Proof.
  assert (H : concat euro_whole = concat euro_cut) by evaluate.
  split_all;
    [exact H | apply (framer_segmentation_independent [] euro_whole euro_cut H)
    | evaluate].
Defined.

(** C3. A frame whose payload [JSON.parse] rejects changes nothing, neither in
    the component nor in the locals of the turn, and the frames around it are
    handled as if it were not there. In particular, when a chunk brings such
    a frame between two [text] frames, the payloads of both are appended to
    the text of the turn, in its three copies, the component stays mounted
    and shows no error, and the turn goes on to its normal completion: when
    the stream then ends, the state is the one the [finally] block leaves and
    the message committed holds both payloads. *)
Theorem malformed_frame_dropped (line : jsstring) :
  is_frame line = true ->
  JSON.parse_text (slice_from 6 line) = None ->
  (forall st, handle_line line st = st) /\
  (forall before after st,
     fold_left (fun st l => handle_line l st) (before ++ line :: after) st =
     fold_left (fun st l => handle_line l st) (before ++ after) st) /\
  (forall first second a b value s t,
     text_frame first a -> text_frame second b ->
     mounted s = true -> turn s = Some t -> awaiting t = reader_read ->
     fst (frame value t) = [first; line; second] ->
     let s1 := step s (ReadSettled (fulfilled (chunk value))) in
     let s2 := step s1 (ReadSettled (fulfilled end_of_stream)) in
     mounted s1 = true /\ messages s1 = messages s /\ isStreaming s1 = isStreaming s /\
     streamingContent s1 = accumulated t ++ a ++ b /\
     accumulatedRef s1 = accumulated t ++ a ++ b /\
     option_map accumulated (turn s1) = Some (accumulated t ++ a ++ b) /\
     cleaned s2 /\
     (trim (accumulated t ++ a ++ b) <> [] ->
      messages s2 =
      messages s ++
      [assistant_message "temp-assistant-" (trim (accumulated t ++ a ++ b))
         (if truthy (tokenUsage t) then JSON.stringify (tokenUsage t) else Null) s]) /\
     (trim (accumulated t ++ a ++ b) = [] -> messages s2 = messages s)).
Proof.
  intros Hf Hp.
  assert (H : forall st, handle_line line st = st).
  { intros st. unfold handle_line. rewrite Hf, Hp.
    now destruct (mounted (fst st)). }
  split_all; [exact H | |].
  { intros before after st. rewrite !fold_left_app. simpl. now rewrite H. }
  intros first second a b value s t Hfirst Hsecond Hm Ht Ha Hlines s1 s2.
  destruct (frame_locals value t) as (L1 & L2 & L3).
  destruct (frame value t) as [lines t1] eqn:F. cbn [fst snd] in *. subst lines.
  set (text1 := accumulated t ++ a). set (text2 := text1 ++ b).
  set (s' := setStreamingContent text2
               (set_accumulatedRef text2
                  (setStreamingContent text1 (set_accumulatedRef text1 s)))).
  set (t' := with_accumulated text2 (with_accumulated text1 t1)).
  assert (E1 : s1 = set_turn (Some t') s').
  { unfold s1, step. rewrite Hm, Ht, Ha. cbn [negb].
    unfold read_settled, read_chunk. rewrite F. cbn [fold_left].
    rewrite (handle_text_frame first a s t1 Hfirst Hm). unfold append_text at 1.
    rewrite H, L2. fold text1.
    rewrite (handle_text_frame second b _ _ Hsecond) by exact Hm.
    reflexivity. }
  assert (T2 : text2 = accumulated t ++ a ++ b)
    by (unfold text2, text1; now rewrite app_assoc).
  assert (E2 : s2 = completes t' s1).
  { apply step_end_of_stream;
      [rewrite E1; exact Hm | rewrite E1; reflexivity
      | unfold t'; state_simpl; now rewrite L1]. }
  rewrite <- T2.
  split_all; try (rewrite E1; unfold s'; state_simpl; reflexivity).
  - rewrite E1. unfold s'. state_simpl. exact Hm.
  - rewrite E2. apply cleaned_finally.
  - intros Hne. rewrite E2, messages_completes. unfold t' at 1. state_simpl.
    destruct (trim text2); [congruence|].
    rewrite E1. unfold s', t'. state_simpl. now rewrite L3.
  - intros He. rewrite E2, messages_completes. unfold t' at 1. state_simpl.
    rewrite He. rewrite E1. reflexivity.
Qed.

Lemma malformed_frame_dropped_witness :
  is_frame not_json = true /\
  JSON.parse_text (slice_from 6 not_json) = None /\
  text_frame hello (lit "Hello") /\ text_frame world (lit " world") /\
  fst (frame sandwich (live streaming)) = [hello; not_json; world] /\
  fold_left (fun st l => handle_line l st) ([hello] ++ not_json :: [world])
    (streaming, reading []) =
  fold_left (fun st l => handle_line l st) ([hello] ++ [world])
    (streaming, reading []) /\
  mounted (step streaming (received sandwich)) = true /\
  streamingContent (step streaming (received sandwich)) = lit "Hello world" /\
  cleaned (run streaming [received sandwich; closed]) /\
  map Message.content (messages (run streaming [received sandwich; closed])) =
    [lit "hi"; lit "Hello world"].
Proof.
  assert (Hf : is_frame not_json = true) by evaluate.
  assert (Hp : JSON.parse_text (slice_from 6 not_json) = None) by evaluate.
  assert (H1 : text_frame hello (lit "Hello")).
  { split; [evaluate|].
    exists (Obj [(lit "type", Str (lit "text")); (lit "data", Str (lit "Hello"))]).
    split_all; evaluate. }
  assert (H2 : text_frame world (lit " world")).
  { split; [evaluate|].
    exists (Obj [(lit "type", Str (lit "text")); (lit "data", Str (lit " world"))]).
    split_all; evaluate. }
  assert (Hm : mounted streaming = true) by evaluate.
  assert (Ht : turn streaming = Some (live streaming)) by evaluate.
  assert (Ha : awaiting (live streaming) = reader_read) by evaluate.
  assert (Hl : fst (frame sandwich (live streaming)) = [hello; not_json; world])
    by evaluate.
  destruct (malformed_frame_dropped not_json Hf Hp) as (_ & D2 & D3).
  pose proof (D3 hello world (lit "Hello") (lit " world") sandwich streaming
                (live streaming) H1 H2 Hm Ht Ha Hl) as D.
  cbv zeta in D. destruct D as (M & _ & _ & S & _ & _ & C & _ & _).
  split_all; [exact Hf | exact Hp | exact H1 | exact H2 | exact Hl | apply D2
             | exact M | | exact C | evaluate].
  etransitivity; [exact S | evaluate].
Defined.

(** C4. A [tool_use] event whose id is already in the invocation list leaves
    the list as it is, and empties the live output: the output is cleared
    before the updater looks for the id. *)
Theorem repeated_tool_use_clears_output
  (data toolData id : value) (s : State) (t : Turn) :
  JSON.parse data = Some toolData ->
  Get toolData "id" = Some id ->
  existsb (fun u => strict_eq (ToolUseInfo.id u) id) (toolUses s) = true ->
  let s' := fst (fold_event tool_use data (s, t)) in
  toolUses s' = toolUses s /\ streamingToolOutput s' = [].
Proof.
  intros Hp Hg He. unfold fold_event, add_tool_use. rewrite Hp.
  state_simpl. rewrite Hg, He. state_simpl. now split.
Qed.

Lemma repeated_tool_use_clears_output_witness :
  JSON.parse bash_1_data = Some (Obj [(lit "id", Str (lit "1"));
                                      (lit "name", Str (lit "bash"));
                                      (lit "input", Obj [])]) /\
  length (toolUses tool_running) = 1%nat /\
  streamingToolOutput tool_running = lit "out" /\
  toolUses (step tool_running (received bash_1)) = toolUses tool_running /\
  streamingToolOutput (step tool_running (received bash_1)) = [] /\
  (forall t,
     let s' := fst (fold_event tool_use bash_1_data (tool_running, t)) in
     toolUses s' = toolUses tool_running /\ streamingToolOutput s' = []).
Proof.
  split_all; try evaluate.
  intros t.
  apply (repeated_tool_use_clears_output
           bash_1_data
           (Obj [(lit "id", Str (lit "1")); (lit "name", Str (lit "bash"));
                 (lit "input", Obj [])])
           (Str (lit "1")) tool_running t); evaluate.
Defined.

(** C5. From the first render on, whatever the events, the live output holds
    at most 5000 code units, and every event keeps it so. A [tool_output]
    payload that is not a heartbeat and has a string form is joined to the
    live output, after a line feed when there was output already: when the
    joined text is longer than 5000 code units, the live output becomes its
    last 5000 code units exactly; otherwise it becomes the joined text. A
    payload that has no string form joins nothing: the updater throws, and
    the component is unmounted with its live output as it was. *)
Theorem live_output_bounded :
  (forall sessionId initialMessages modelName initialMode now events,
     bounded (run (initial sessionId initialMessages modelName initialMode now) events)) /\
  (forall s e, bounded s -> bounded (step s e)) /\
  (forall data payload s t,
     heartbeat data = None ->
     ToString data = Some payload ->
     let prev := streamingToolOutput s in
     let next := prev ++ (match prev with [] => [] | _ => [LF] end) ++ payload in
     let s' := fst (fold_event tool_output data (s, t)) in
     mounted s' = mounted s /\
     ((5000 < length next)%nat ->
      length (streamingToolOutput s') = 5000%nat /\
      next = firstn (length next - 5000) next ++ streamingToolOutput s') /\
     ((length next <= 5000)%nat -> streamingToolOutput s' = next)) /\
  (forall data s t,
     ToString data = None ->
     let s' := fst (fold_event tool_output data (s, t)) in
     mounted s' = false /\ streamingToolOutput s' = streamingToolOutput s).
Proof.
  split_all.
  - intros. apply (run_invariant bounded step_bounded).
    unfold bounded, initial. state_simpl. cbn [length]. lia.
  - exact step_bounded.
  - intros data payload s t Hh Hs prev next s'.
    assert (E : streamingToolOutput s' =
                if (5000 <? length next)%nat then skipn (length next - 5000) next
                else next).
    { unfold s', fold_event, add_tool_output. rewrite Hh, Hs. reflexivity. }
    split_all.
    + unfold s', fold_event, add_tool_output. rewrite Hh, Hs. reflexivity.
    + intros Hlen. rewrite E. apply Nat.ltb_lt in Hlen. rewrite Hlen.
      apply Nat.ltb_lt in Hlen.
      split; [rewrite length_skipn; lia | now rewrite firstn_skipn].
    + intros Hlen. rewrite E. apply Nat.ltb_ge in Hlen. now rewrite Hlen.
  - intros data s t Hs s'.
    assert (Hh : heartbeat data = None)
      by (unfold heartbeat, JSON.parse; now rewrite Hs).
    unfold s', fold_event, add_tool_output. rewrite Hh, Hs. now split.
Qed.

Lemma live_output_bounded_witness :
  bounded nearly_full /\
  heartbeat (Str (lit "xyz")) = None /\
  ToString (Str (lit "xyz")) = Some (lit "xyz") /\
  length (streamingToolOutput nearly_full) = 4999%nat /\
  (forall t,
     let s' := fst (fold_event tool_output (Str (lit "xyz")) (nearly_full, t)) in
     bounded (step nearly_full (Elapse 1)) /\
     mounted s' = true /\
     length (streamingToolOutput s') = 5000%nat /\
     repeat 97 4999 ++ [LF] ++ lit "xyz" = repeat 97 3 ++ streamingToolOutput s').
Proof.
  pose proof live_output_bounded as (_ & H2 & H3 & _).
  assert (Hb : bounded nearly_full) by (unfold bounded; vm_compute; lia).
  assert (Hh : heartbeat (Str (lit "xyz")) = None) by evaluate.
  assert (Hs : ToString (Str (lit "xyz")) = Some (lit "xyz")) by reflexivity.
  split_all; [exact Hb | exact Hh | exact Hs | evaluate |].
  intros t s'.
  assert (Hl : (5000 <
                length (streamingToolOutput nearly_full ++
                        (match streamingToolOutput nearly_full with
                         | [] => []
                         | _ => [LF]
                         end) ++ lit "xyz"))%nat)
    by (vm_compute; lia).
  destruct (H3 (Str (lit "xyz")) (lit "xyz") nearly_full t Hh Hs) as (M & T & _).
  destruct (T Hl) as [L E].
  split_all; [exact (H2 nearly_full (Elapse 1) Hb) | | exact L |].
  - etransitivity; [exact M | evaluate].
  - etransitivity; [|etransitivity; [exact E|]]; [evaluate|].
    f_equal.
Defined.

(** C6, as the code has it. When [stopStreaming] cancels a live turn whose
    text, trimmed of white space at both ends, is not empty, one assistant
    message is committed, whose content is the trimmed text followed by the
    stopped-early annotation; when the trimmed text is empty, no message is
    committed; either way the state is the one the [finally] block leaves and
    a later [sendMessage] is accepted. *)
Theorem cancel_commits_trimmed_text (s : State) (t : Turn) :
  mounted s = true -> turn s = Some t -> abortControllerRef s <> None ->
  let s' := step s Stop in
  (trim (accumulated t) <> [] ->
   messages s' =
   messages s ++
   [assistant_message "temp-assistant-" (trim (accumulated t) ++ generation_stopped)
      Null s]) /\
  (trim (accumulated t) = [] -> messages s' = messages s) /\
  cleaned s' /\ forall content, accepted content s'.
Proof.
  intros Hm Ht Hr s'.
  assert (E : s' = throws AbortError t (set_abortControllerRef None s)).
  { unfold s', step, stopStreaming. rewrite Hm. cbn [negb].
    destruct (abortControllerRef s); [|congruence]. state_simpl. now rewrite Ht. }
  assert (Hx : exits s Stop).
  { split; [congruence|]. fold s'. now rewrite E. }
  split_all.
  - intros Hne. rewrite E, messages_throws_abort. state_simpl.
    destruct (trim (accumulated t)); [congruence | reflexivity].
  - intros He. rewrite E, messages_throws_abort. now rewrite He.
  - apply exits_cleaned, Hx.
  - apply exits_cleaned, Hx.
Qed.

(** C6, as stated, fails: with a text of one space folded, cancelling commits
    no assistant message; with the text ["partial\n"] folded, the content
    committed is not that text followed by the annotation, the line feed is
    gone. *)
Lemma cancel_drops_blank_text :
  option_map accumulated (turn space_only) = Some (lit " ") /\
  messages (step space_only Stop) = messages space_only /\
  map Message.role (messages (step space_only Stop)) = [Message.user] /\
  option_map accumulated (turn partial) = Some (lit "partial" ++ [LF]) /\
  map Message.content (messages (step partial Stop)) =
    [lit "hi"; lit "partial" ++ generation_stopped].
Proof. split_all; evaluate. Qed.

Lemma cancel_commits_trimmed_text_witness :
  mounted partial = true /\
  turn partial = Some (live partial) /\
  abortControllerRef partial <> None /\
  trim (accumulated (live partial)) <> [] /\
  messages (step partial Stop) =
    messages partial ++
    [assistant_message "temp-assistant-"
       (trim (accumulated (live partial)) ++ generation_stopped) Null partial] /\
  cleaned (step partial Stop) /\
  accepted (lit "again") (step partial Stop).
Proof.
  assert (Hm : mounted partial = true) by evaluate.
  assert (Ht : turn partial = Some (live partial)) by evaluate.
  assert (Hr : abortControllerRef partial <> None) by evaluate.
  assert (Hn : trim (accumulated (live partial)) <> []) by evaluate.
  pose proof (cancel_commits_trimmed_text partial (live partial) Hm Ht Hr) as H.
  cbv zeta in H. destruct H as (H1 & _ & H3 & H4).
  split_all;
    [exact Hm | exact Ht | exact Hr | exact Hn | exact (H1 Hn) | exact H3
    | exact (H4 _)].
Defined.

(** C7, as the code has it. When the stream ends, if the accumulated text,
    trimmed of white space at both ends, is not empty, exactly one assistant
    message is committed, whose content is the trimmed text and whose
    [token_usage] is the captured usage, stringified, or [null] when none
    was captured; if the trimmed text is empty, no message is committed. *)
Theorem completion_commits_trimmed_text (s : State) (t : Turn) :
  mounted s = true -> turn s = Some t -> awaiting t = reader_read ->
  let s' := step s (ReadSettled (fulfilled end_of_stream)) in
  (trim (accumulated t) <> [] ->
   messages s' =
   messages s ++
   [assistant_message "temp-assistant-" (trim (accumulated t))
      (if truthy (tokenUsage t) then JSON.stringify (tokenUsage t) else Null) s]) /\
  (trim (accumulated t) = [] -> messages s' = messages s).
Proof.
  intros Hm Ht Ha s'. unfold s'.
  rewrite (step_end_of_stream s t Hm Ht Ha), messages_completes.
  split.
  - intros Hne. destruct (trim (accumulated t)); [congruence | reflexivity].
  - intros He. now rewrite He.
Qed.

(** C7, as stated, fails: with a text of one space folded, the stream ending
    commits no assistant message though the buffer is not empty; with
    ["partial\n"] folded, the content committed is not the accumulated text,
    the line feed is gone. *)
Lemma completion_drops_blank_text :
  option_map accumulated (turn space_only) = Some (lit " ") /\
  messages (step space_only closed) = messages space_only /\
  map Message.role (messages (step space_only closed)) = [Message.user] /\
  option_map accumulated (turn partial) = Some (lit "partial" ++ [LF]) /\
  map Message.content (messages (step partial closed)) = [lit "hi"; lit "partial"].
Proof. split_all; evaluate. Qed.

Lemma completion_commits_trimmed_text_witness :
  mounted hello_world = true /\
  turn hello_world = Some (live hello_world) /\
  accumulated (live hello_world) = lit "Hello world" /\
  trim (accumulated (live hello_world)) <> [] /\
  messages (step hello_world (ReadSettled (fulfilled end_of_stream))) =
    messages hello_world ++
    [assistant_message "temp-assistant-" (trim (accumulated (live hello_world)))
       (if truthy (tokenUsage (live hello_world))
        then JSON.stringify (tokenUsage (live hello_world)) else Null)
       hello_world] /\
  map Message.content (messages (step hello_world closed)) =
    [lit "hi"; lit "Hello world"].
Proof.
  assert (Hm : mounted hello_world = true) by evaluate.
  assert (Ht : turn hello_world = Some (live hello_world)) by evaluate.
  assert (Ha : awaiting (live hello_world) = reader_read) by evaluate.
  assert (Hn : trim (accumulated (live hello_world)) <> []) by evaluate.
  pose proof (completion_commits_trimmed_text hello_world (live hello_world) Hm Ht Ha) as H.
  cbv zeta in H. destruct H as (H1 & _).
  split_all; [exact Hm | exact Ht | evaluate | exact Hn | exact (H1 Hn) | evaluate].
Defined.




(** C9, which the code does not keep. The timer that clears the "connected"
    status is a bare [setTimeout], tied to nothing, though the comment of
    line 271 wants the status cleared so that the tool status can take over,
    and the [finally] block resets the status with the rest of the turn. The
    status event with a session identifier, and a model that has a string
    form, shows the status and sets the timer two seconds ahead; no event
    but the passing of time takes a pending timer away, not the end of the
    turn and not the start of the next one; and once its time has come the
    status text is cleared, whatever turn is live then and whatever the
    status says by then. *)
Theorem status_timer_outlives_turn :
  (forall data statusData session_id init s t,
     JSON.parse data = Some statusData ->
     Get statusData "session_id" = Some session_id ->
     truthy session_id = true ->
     connected statusData = Some init ->
     statusText (fst (fold_event status data (s, t))) = Str init /\
     In {| due := clock s + 2000; callback := clear_status |}
        (timers (fst (fold_event status data (s, t))))) /\
  (forall s e timer,
     (forall ms, e <> Elapse ms) ->
     In timer (timers s) -> In timer (timers (step s e))) /\
  (forall s ms timer,
     mounted s = true ->
     In timer (timers s) -> callback timer = clear_status ->
     due timer <= clock s + ms ->
     statusText (step s (Elapse ms)) = Undefined /\
     turn (step s (Elapse ms)) = turn s /\
     ~ In timer (timers (step s (Elapse ms)))).
Proof.
  split_all.
  - intros data statusData session_id init s t Hp Hg Ht Hc.
    unfold fold_event. rewrite Hp, Hg, Ht, Hc. state_simpl.
    split; [reflexivity | apply In_insert_timer].
  - intros s e timer He Hin. now apply (step_timers s e He).
  - intros s ms timer Hm Hin Hc Hd. unfold step, elapse. rewrite Hm. cbn [negb].
    state_simpl. split_all.
    + apply expire_clears_status with (t := timer); try assumption.
    + now rewrite expire_turn.
    + rewrite filter_In. unfold pending_at. intros [_ H].
      apply N.ltb_lt in H. lia.
Qed.

(** The failing input of C9: the timer set by the init status of the first
    turn fires in the second turn and clears the status that turn had set. *)
Lemma first_turn_timer_clears_second_turn_status :
  map Message.content (messages second_turn) = [lit "hi"; lit "again"] /\
  isStreaming second_turn = true /\
  statusText second_turn = Str (lit "Thinking") /\
  timers second_turn =
    [{| due := 1700000002000; callback := clear_status |}] /\
  isStreaming (step second_turn (Elapse 1500)) = true /\
  statusText (step second_turn (Elapse 1500)) = Undefined.
Proof. split_all; evaluate. Qed.

(** Within one turn too: the timer of the init status clears the status of
    the tool that runs by then. *)
Lemma init_timer_clears_tool_status :
  isStreaming tool_progress = true /\
  statusText tool_progress = Str (lit "Running bash... (1s)") /\
  timers tool_progress = [{| due := 1700000002000; callback := clear_status |}] /\
  isStreaming (step tool_progress (Elapse 1000)) = true /\
  statusText (step tool_progress (Elapse 1000)) = Undefined.
Proof. split_all; evaluate. Qed.

Lemma status_timer_outlives_turn_witness :
  JSON.parse (Str (json "{'session_id':'abc'}")) =
    Some (Obj [(lit "session_id", Str (lit "abc"))]) /\
  connected (Obj [(lit "session_id", Str (lit "abc"))]) =
    Some (lit "Connected (claude)") /\
  (forall s t,
     statusText (fst (fold_event status (Str (json "{'session_id':'abc'}")) (s, t))) =
     Str (lit "Connected (claude)")) /\
  mounted second_turn = true /\
  In {| due := 1700000002000; callback := clear_status |} (timers second_turn) /\
  1700000002000 <= clock second_turn + 1500 /\
  statusText second_turn = Str (lit "Thinking") /\
  statusText (step second_turn (Elapse 1500)) = Undefined /\
  turn (step second_turn (Elapse 1500)) = turn second_turn.
Proof.
  pose proof status_timer_outlives_turn as (H0 & _ & H).
  assert (Hp : JSON.parse (Str (json "{'session_id':'abc'}")) =
               Some (Obj [(lit "session_id", Str (lit "abc"))])) by evaluate.
  assert (Hc : connected (Obj [(lit "session_id", Str (lit "abc"))]) =
               Some (lit "Connected (claude)")) by evaluate.
  assert (Hm : mounted second_turn = true) by evaluate.
  assert (Hin : In {| due := 1700000002000; callback := clear_status |}
                   (timers second_turn)) by (vm_compute; now left).
  assert (Hd : 1700000002000 <= clock second_turn + 1500) by evaluate.
  destruct (H second_turn 1500 _ Hm Hin eq_refl Hd) as (H1 & H2 & _).
  split_all;
    [exact Hp | exact Hc | | exact Hm | exact Hin | exact Hd | evaluate | exact H1
    | exact H2].
  intros s t.
  assert (Hg : Get (Obj [(lit "session_id", Str (lit "abc"))]) "session_id" =
               Some (Str (lit "abc"))) by evaluate.
  assert (Ht : truthy (Str (lit "abc")) = true) by evaluate.
  exact (proj1 (H0 (Str (json "{'session_id':'abc'}"))
                   (Obj [(lit "session_id", Str (lit "abc"))])
                   (Str (lit "abc")) (lit "Connected (claude)") s t Hp Hg Ht Hc)).
Defined.

(** C10, as the code has it. Every [result] event clears the status text. Its
    usage is captured when the payload parses to a value whose [usage] is
    truthy, the last such event winning; a usage that is there but falsy
    (zero, the empty string, [false], [null]) captures nothing, nor does a
    payload that does not parse or parses to [null], and no other kind of
    event touches what was captured. When the stream ends with text to
    commit, the message carries the captured usage, stringified, or [null]
    when there is none. *)
Theorem result_captures_truthy_usage :
  (forall data s t, statusText (fst (fold_event result data (s, t))) = Undefined) /\
  (forall data resultData usage s t,
     JSON.parse data = Some resultData ->
     Get resultData "usage" = Some usage ->
     tokenUsage (snd (fold_event result data (s, t))) =
       if truthy usage then usage else tokenUsage t) /\
  (forall data s t,
     JSON.parse data = None \/
     (exists resultData,
        JSON.parse data = Some resultData /\ Get resultData "usage" = None) ->
     tokenUsage (snd (fold_event result data (s, t))) = tokenUsage t) /\
  (forall type data s t,
     type <> result ->
     tokenUsage (snd (fold_event type data (s, t))) = tokenUsage t) /\
  (forall s t,
     mounted s = true -> turn s = Some t -> awaiting t = reader_read ->
     trim (accumulated t) <> [] ->
     map Message.token_usage (messages (step s (ReadSettled (fulfilled end_of_stream)))) =
       map Message.token_usage (messages s) ++
       [if truthy (tokenUsage t) then JSON.stringify (tokenUsage t) else Null]).
Proof.
  split_all.
  - intros data s t. unfold fold_event. reflexivity.
  - intros data resultData usage s t Hp Hg. unfold fold_event.
    rewrite Hp, Hg. now destruct (truthy usage).
  - intros data s t [Hp|(resultData & Hp & Hg)]; unfold fold_event;
      rewrite Hp; [|rewrite Hg]; reflexivity.
  - intros type data s t Hne. unfold fold_event, append_text.
    destruct type; try congruence; loop_cases; reflexivity.
  - intros s t Hm Ht Ha Hne.
    rewrite (step_end_of_stream s t Hm Ht Ha), messages_completes.
    destruct (trim (accumulated t)); [congruence|].
    rewrite map_app. reflexivity.
Qed.

(** C10, as stated, fails: a result whose payload parses to an object with
    the usage 0 captures nothing, and the message committed carries
    [null]. *)
Lemma zero_usage_is_not_captured :
  JSON.parse zero_usage_data = Some (Obj [(lit "usage", Num (zero false))]) /\
  map Message.content (messages (step zero_usage closed)) = [lit "hi"; lit "Hi"] /\
  map Message.token_usage (messages (step zero_usage closed)) = [Null; Null].
Proof. split_all; evaluate. Qed.

Lemma result_captures_truthy_usage_witness :
  mounted two_usages = true /\
  turn two_usages = Some (live two_usages) /\
  trim (accumulated (live two_usages)) <> [] /\
  tokenUsage (live two_usages) =
    Obj [(lit "input_tokens", Num (of_N 2))] /\
  statusText two_usages = Undefined /\
  map Message.token_usage (messages (step two_usages closed)) =
    [Null; Str (json "{'input_tokens':2}")].
Proof.
  pose proof result_captures_truthy_usage as (_ & _ & _ & _ & H).
  assert (Hm : mounted two_usages = true) by evaluate.
  assert (Ht : turn two_usages = Some (live two_usages)) by evaluate.
  assert (Ha : awaiting (live two_usages) = reader_read) by evaluate.
  assert (Hn : trim (accumulated (live two_usages)) <> []) by evaluate.
  split_all; [exact Hm | exact Ht | exact Hn | evaluate | evaluate |].
  etransitivity; [exact (H two_usages (live two_usages) Hm Ht Ha Hn) | evaluate].
Defined.

End Claims.

Module DecoderFacts.
Import TextDecoder Handlers.

Ltac mod_lia := zify; Z.to_euclidean_division_equations; lia.

Lemma land_mod (b : N) (n : N) : N.land b (N.ones n) = b mod 2 ^ n.
Proof. apply N.land_ones. Qed.

Lemma lead_sound (d : decoder) (b : N) :
  bytes_needed d = 0 ->
  sound (fst (lead d b)) /\ (b <> 10 -> forall cp, In cp (snd (lead d b)) -> cp <> 10).
Proof.
  intros H0. unfold lead.
  destruct (b <=? 127) eqn:E1.
  { split; [now left | intros Hb cp [<-|[]]; exact Hb]. }
  destruct ((194 <=? b) && (b <=? 223)) eqn:E2.
  { split; [|intros _ cp []]. right. cbn.
    apply andb_true_iff in E2. destruct E2 as [L U].
    apply N.leb_le in L, U.
    change 31 with (N.ones 5). rewrite land_mod. change (2 ^ 5) with 32.
    (repeat split; first [lia | mod_lia | left; mod_lia | right; mod_lia]). }
  destruct ((224 <=? b) && (b <=? 239)) eqn:E3.
  { split; [|intros _ cp []]. right. cbn.
    apply andb_true_iff in E3. destruct E3 as [L U].
    apply N.leb_le in L, U.
    change 15 with (N.ones 4). rewrite land_mod. change (2 ^ 4) with 16.
    destruct (b =? 224) eqn:E; [apply N.eqb_eq in E | apply N.eqb_neq in E];
      destruct (b =? 237); (repeat split; first [lia | mod_lia | left; mod_lia | right; mod_lia]). }
  destruct ((240 <=? b) && (b <=? 244)) eqn:E4.
  { split; [|intros _ cp []]. right. cbn.
    apply andb_true_iff in E4. destruct E4 as [L U].
    apply N.leb_le in L, U.
    change 7 with (N.ones 3). rewrite land_mod. change (2 ^ 3) with 8.
    destruct (b =? 240) eqn:E; [apply N.eqb_eq in E | apply N.eqb_neq in E];
      destruct (b =? 244); (repeat split; first [lia | mod_lia | left; mod_lia | right; mod_lia]). }
  split; [now left | intros _ cp [<-|[]]; discriminate].
Qed.

Lemma continued_not_LF (c b : N) : 1 <= c -> N.lor (N.shiftl c 6) (N.land b 63) <> 10.
Proof.
  intros H E. apply (f_equal (fun x => N.shiftr x 6)) in E.
  rewrite N.shiftr_lor, N.shiftr_shiftl_l, N.sub_diag, N.shiftl_0_r in E by reflexivity.
  change (N.shiftr 10 6) with 0 in E. apply N.lor_eq_0_iff in E. lia.
Qed.

Lemma continued_positive (c b : N) :
  1 <= c \/ (144 <= b /\ b <= 191) -> 1 <= N.lor (N.shiftl c 6) (N.land b 63).
Proof.
  intros H.
  assert (N : N.lor (N.shiftl c 6) (N.land b 63) <> 0); [|lia].
  intros E. apply N.lor_eq_0_iff in E. destruct E as [E1 E2].
  apply N.shiftl_eq_0_iff in E1.
  change 63 with (N.ones 6) in E2. rewrite land_mod in E2. change (2 ^ 6) with 64 in E2.
  destruct H as [H|[H1 H2]]; [lia | mod_lia].
Qed.

Lemma handler_sound (d : decoder) (b : N) :
  sound d ->
  sound (fst (handler d b)) /\
  (b <> 10 -> forall cp, In cp (snd (handler d b)) -> cp <> 10).
Proof.
  intros H. unfold handler.
  destruct (bytes_needed d =? 0) eqn:E0.
  { apply lead_sound. now apply N.eqb_eq. }
  apply N.eqb_neq in E0. destruct H as [H|(L & U & C)]; [contradiction|].
  destruct ((b <? lower_boundary d) || (upper_boundary d <? b)) eqn:Eb.
  - destruct (lead_sound (reset d) b eq_refl) as [S1 S2].
    destruct (lead (reset d) b) as [d' out]. simpl in *.
    split; [exact S1|]. intros Hb cp [<-|Hin]; [discriminate | now apply S2].
  - apply orb_false_iff in Eb. destruct Eb as [Eb1 Eb2].
    apply N.ltb_ge in Eb1, Eb2.
    destruct (bytes_seen d + 1 =? bytes_needed d) eqn:Es; simpl.
    + apply N.eqb_eq in Es. split; [now left|].
      intros _ cp [<-|[]]. apply continued_not_LF. lia.
    + split; [|intros _ cp []]. right. cbn. split; [lia|]. split; [lia|].
      left. apply continued_positive. lia.
Qed.

Lemma code_units_not_LF (cp : N) : cp <> 10 -> ~ In LF (code_units cp).
Proof.
  unfold code_units, LF. intros H.
  destruct (cp <? 65536); cbn [In].
  - intros [E|[]]. congruence.
  - intros [E|[E|[]]]; lia.
Qed.

Lemma emit_sound (cps : list N) (d : decoder) :
  (sound d -> sound (fst (emit d cps))) /\
  ((forall cp, In cp cps -> cp <> 10) -> ~ In LF (snd (emit d cps))).
Proof.
  revert d. induction cps as [|cp cps IH]; intros d; simpl; [split; [auto | intros _ []]|].
  set (d1 := {| code_point := code_point d |}).
  destruct (IH d1) as [I1 I2]. destruct (emit d1 cps) as [d2 out]. simpl in *.
  assert (V : sound d -> sound d2) by (intros H; apply I1; exact H).
  assert (O : (forall cp0, cp = cp0 \/ In cp0 cps -> cp0 <> 10) -> ~ In LF out)
    by (intros H; apply I2; intros; apply H; now right).
  destruct (negb (BOM_seen d) && (cp =? 65279))%bool; simpl; split; auto.
  intros H Hin. apply in_app_or in Hin. destruct Hin as [Hin|Hin].
  - revert Hin. apply code_units_not_LF, H. now left.
  - now apply O.
Qed.

Lemma byte_not_LF (b : byte) : b <> x0a -> Byte.to_N b <> 10.
Proof.
  intros H E. pose proof (Byte.of_to_N b) as R. rewrite E in R.
  apply H. vm_compute in R. congruence.
Qed.

Lemma step_sound (d : decoder) (b : byte) :
  sound d ->
  sound (fst (step d b)) /\ (b <> x0a -> ~ In LF (snd (step d b))).
Proof.
  intros H. unfold step.
  destruct (handler_sound d (Byte.to_N b) H) as [H1 H2].
  destruct (handler d (Byte.to_N b)) as [d1 cps]. simpl in *.
  destruct (emit_sound cps d1) as [E1 E2].
  split; [now apply E1|]. intros Hb. apply E2, H2. now apply byte_not_LF.
Qed.

(** The decoder stays between two bytes, and bytes without a line feed
    decode to text without a line feed. *)
Lemma decode_sound (chunk : list byte) (d : decoder) :
  sound d ->
  sound (fst (decode d chunk)) /\ (~ In x0a chunk -> ~ In LF (snd (decode d chunk))).
Proof.
  revert d. induction chunk as [|b chunk IH]; intros d H; simpl.
  - split; [exact H | intros _ []].
  - destruct (step_sound d b H) as [S1 S2].
    destruct (step d b) as [d1 out1]. simpl in *.
    destruct (IH d1 S1) as [I1 I2].
    destruct (decode d1 chunk) as [d2 out2]. simpl in *.
    split; [exact I1|]. intros Hn Hin. apply in_app_or in Hin.
    destruct Hin as [Hin|Hin]; [apply S2 in Hin | apply I2 in Hin]; tauto.
Qed.

End DecoderFacts.

Module HandlerFacts.
Import JSNumber JSValue ChatView StringFacts MachineFacts LoopFacts.
Import InvariantFacts TimerFacts FramerFacts Handlers DecoderFacts.

Ltac handler_simpl :=
  cbn [sessionId messages streamingContent isStreaming toolUses toolResults
       statusText mode currentModel pendingPermission permissionResolved
       streamingToolOutput abortControllerRef accumulatedRef initializedRef
       streamingSessionId pendingApprovalSessionId turn clock timers fetches
       permissionFetches mounted set_initializedRef
       setMessages setStreamingContent setIsStreaming setToolUses
       setToolResults setStatusText setPendingPermission
       setPermissionResolved setStreamingToolOutput set_abortControllerRef
       set_accumulatedRef setStreamingSessionId setPendingApprovalSessionId
       set_turn set_clock set_timers set_fetches set_permissionFetches
       set_mounted setTimeout fire setMode setCurrentModel
       awaiting accumulated tokenUsage buffer decoder
       with_accumulated with_tokenUsage with_awaiting fst snd] in *.

Lemma run_unmounted (events : list Event) (s : State) :
  mounted s = false -> run s events = s.
Proof.
  intros H. unfold run. induction events as [|e events IH]; simpl; [reflexivity|].
  unfold step at 2. rewrite H. simpl. exact IH.
Qed.

Lemma perform_invariant (P : State -> Prop) :
  (forall s a, P s -> P (act s a)) ->
  forall actions s, P s -> P (perform s actions).
Proof.
  intros Hact actions. unfold perform.
  induction actions as [|a actions IH]; intros s H; simpl; [assumption|].
  apply IH, Hact, H.
Qed.

(** An invariant of the turn machinery that the other handlers keep is an
    invariant of the component. *)
Lemma act_invariant (P : State -> Prop) :
  (forall s e, P s -> P (step s e)) ->
  (forall s l, P s -> P (setMessages l s)) ->
  (forall s, P s -> P (setStreamingContent (accumulatedRef s) s)) ->
  (forall s x, P s -> P (setMode x s)) ->
  (forall s x, P s -> P (set_fetches x s)) ->
  (forall s x, P s -> P (setCurrentModel x s)) ->
  (forall s x, P s -> P (set_initializedRef x s)) ->
  forall s a, P s -> P (act s a).
Proof.
  intros Hstep Hmsg Hvis Hmode Hfetch Hmodel Hinit s a H.
  unfold act. destruct (mounted s) eqn:Hm; simpl; [|assumption].
  destruct a.
  - now apply Hstep.
  - unfold handleCommand.
    destruct (JSString.eqb command (lit "/help")); [now apply Hmsg|].
    destruct (JSString.eqb command (lit "/clear")); [now apply Hmsg|].
    destruct (JSString.eqb command (lit "/cost")); [now apply Hmsg|].
    replace (sendMessage command s) with (step s (Send command))
      by (unfold step; now rewrite Hm).
    now apply Hstep.
  - unfold handleVisibilityChange.
    destruct (visible && truthy (Str (accumulatedRef s)))%bool; [now apply Hvis | assumption].
  - unfold handleModeChange.
    destruct (truthy (Str (sessionId s))); [apply Hfetch|]; now apply Hmode.
  - now apply Hmodel.
  - unfold initialMessagesEffect. destruct initialMessages; [assumption|].
    destruct (initializedRef s); [assumption|]. now apply Hmsg, Hinit.
  - unfold initialModeEffect. destruct initialMode as [[|c rest]|]; try assumption.
    now apply Hmode.
Qed.

Lemma step_moves (s : State) (e : Event) : moves s (step s e).
Proof.
  unfold step. destruct (mounted s); simpl; [|apply moves_nothing].
  destruct e.
  - destruct (isStreaming s) eqn:Hs; [|now apply moves_send].
    unfold sendMessage. rewrite Hs. apply moves_nothing.
  - unfold stopStreaming. destruct (abortControllerRef s); [|apply moves_nothing].
    state_simpl. destruct (turn s) as [t|] eqn:Ht.
    + apply moves_leaves; [congruence | apply leaves_after_stop].
    + now apply moves_stop_idle.
  - apply moves_decide.
  - apply moves_permission.
  - destruct (turn s) as [t|] eqn:Ht; [|apply moves_nothing].
    destruct (awaiting t); try apply moves_nothing.
    unfold fetch_settled.
    destruct r as [response|x];
      [|apply moves_leaves; [congruence | apply leaves_throws]].
    destruct (ok response); cbn [negb]; [|now apply moves_error_response].
    destruct (has_body response); cbn [negb];
      [now apply moves_reading | apply moves_leaves; [congruence | apply leaves_throws]].
  - destruct (turn s) as [t|] eqn:Ht; [|apply moves_nothing].
    destruct (awaiting t); try apply moves_nothing.
    unfold json_settled.
    destruct r as [err|x]; [destruct (Get err "error"); [destruct (ToString _)|]|];
      (apply moves_leaves; [congruence | apply leaves_throws]).
  - destruct (turn s) as [t|] eqn:Ht; [|apply moves_nothing].
    destruct (awaiting t); try apply moves_nothing.
    unfold read_settled.
    destruct r as [[value|]|x].
    + destruct (read_chunk value (s, t)) as [s1 t1] eqn:E.
      now apply moves_chunk with t value.
    + apply moves_leaves; [congruence | apply leaves_completes].
    + apply moves_leaves; [congruence | apply leaves_throws].
  - apply moves_elapse.
Qed.

(** *** The read loop *)

(** What holds of the component and the locals before a chunk holds after
    it, when the framing and every case of the [switch] keep it. *)
Lemma read_chunk_invariant (Q : State -> Turn -> Prop) :
  (forall s t t', Q s t -> awaiting t' = awaiting t ->
     accumulated t' = accumulated t -> tokenUsage t' = tokenUsage t -> Q s t') ->
  (forall type data s t, Q s t ->
     Q (fst (fold_event type data (s, t))) (snd (fold_event type data (s, t)))) ->
  forall value s t, Q s t ->
  Q (fst (read_chunk value (s, t))) (snd (read_chunk value (s, t))).
Proof.
  intros Hframe Hfold value s t H. unfold read_chunk, frame.
  destruct (TextDecoder.decode (decoder t) value) as [d decoded].
  set (lines := removelast _). clearbody lines.
  set (t1 := {| awaiting := awaiting t |}).
  assert (H1 : Q s t1) by (apply (Hframe s t t1 H); reflexivity).
  clearbody t1. clear H. revert s t1 H1.
  induction lines as [|line lines IH]; intros s t1 H1; simpl; [assumption|].
  destruct (handle_line line (s, t1)) as [s2 t2] eqn:E.
  apply IH. change s2 with (fst (s2, t2)). change t2 with (snd (s2, t2)) at 2.
  rewrite <- E. unfold handle_line.
  loop_cases; try assumption. now apply Hfold.
Qed.

(** The loop body reads neither the framing locals nor the turn the
    component holds. *)
Lemma fold_event_locals (type : EventType) (data : value) (x : option Turn)
  (b : jsstring) (d : TextDecoder.decoder) (s : State) (t : Turn) :
  fold_event type data (set_turn x s, relocate b d t) =
  (set_turn x (fst (fold_event type data (s, t))),
   relocate b d (snd (fold_event type data (s, t)))).
Proof.
  unfold fold_event, append_text, relocate. state_simpl.
  loop_cases; reflexivity.
Qed.

Lemma handle_line_locals (line : jsstring) (x : option Turn)
  (b : jsstring) (d : TextDecoder.decoder) (s : State) (t : Turn) :
  handle_line line (set_turn x s, relocate b d t) =
  (set_turn x (fst (handle_line line (s, t))),
   relocate b d (snd (handle_line line (s, t)))).
Proof.
  unfold handle_line. state_simpl.
  destruct (negb (mounted s)); [reflexivity|].
  destruct (negb (is_frame line)); [reflexivity|].
  destruct (JSON.parse_text (slice_from 6 line)) as [event|]; [|reflexivity].
  destruct (Get event "type") as [type|]; [|reflexivity].
  destruct (switch type) as [case|]; [|reflexivity].
  apply fold_event_locals.
Qed.

Lemma feed_locals (lines : list jsstring) (x : option Turn)
  (b : jsstring) (d : TextDecoder.decoder) (s : State) (t : Turn) :
  feed lines (set_turn x s, relocate b d t) =
  (set_turn x (fst (feed lines (s, t))), relocate b d (snd (feed lines (s, t)))).
Proof.
  revert s t. unfold feed. induction lines as [|line lines IH]; intros s t; simpl.
  - reflexivity.
  - rewrite handle_line_locals.
    destruct (handle_line line (s, t)) as [s1 t1]. apply IH.
Qed.

Lemma set_turn_id (s : State) (x : option Turn) : turn s = x -> set_turn x s = s.
Proof. intros <-. now destruct s. Qed.

Lemma feed_relocate (lines : list jsstring)
  (b : jsstring) (d : TextDecoder.decoder) (s : State) (t : Turn) :
  feed lines (s, relocate b d t) =
  (fst (feed lines (s, t)), relocate b d (snd (feed lines (s, t)))).
Proof.
  rewrite <- (set_turn_id s (turn s) eq_refl) at 1.
  rewrite feed_locals. f_equal. apply set_turn_id.
  now destruct (handle_lines_frame lines s t) as (_ & _ & _ & _ & _ & _ & _ & H & _).
Qed.

Lemma feed_app (l l' : list jsstring) (st : State * Turn) :
  feed (l ++ l') st = feed l' (feed l st).
Proof. apply fold_left_app. Qed.

Lemma feed_unmounted (lines : list jsstring) (s : State) (t : Turn) :
  mounted s = false -> feed lines (s, t) = (s, t).
Proof.
  intros H. unfold feed. induction lines as [|line lines IH]; simpl; [reflexivity|].
  unfold handle_line at 2. cbn [fst]. rewrite H. exact IH.
Qed.

Lemma feed_awaiting (lines : list jsstring) (s : State) (t : Turn) :
  awaiting (snd (feed lines (s, t))) = awaiting t.
Proof.
  revert s t. unfold feed. induction lines as [|line lines IH]; intros s t; simpl.
  - reflexivity.
  - destruct (handle_line line (s, t)) as [s1 t1] eqn:E. rewrite IH.
    change t1 with (snd (s1, t1)). rewrite <- E.
    unfold handle_line, fold_event, append_text. loop_cases; reflexivity.
Qed.

(** The framing reads only its own locals. *)
Lemma framer_relocate (chunks : list (list byte)) (t t' : Turn) :
  buffer t = buffer t' -> decoder t = decoder t' ->
  fst (framer chunks t) = fst (framer chunks t') /\
  buffer (snd (framer chunks t)) = buffer (snd (framer chunks t')) /\
  decoder (snd (framer chunks t)) = decoder (snd (framer chunks t')).
Proof.
  revert t t'. induction chunks as [|c chunks IH]; intros t t' Hb Hd; simpl.
  - now split_all.
  - unfold frame. rewrite Hb, Hd.
    destruct (TextDecoder.decode (decoder t') c) as [d decoded].
    set (t1 := {| awaiting := awaiting t |}). set (t1' := {| awaiting := awaiting t' |}).
    destruct (IH t1 t1' eq_refl eq_refl) as (H1 & H2 & H3).
    destruct (framer chunks t1) as [more t2]. destruct (framer chunks t1') as [more' t2'].
    simpl in *. now rewrite H1, H2, H3.
Qed.

Lemma frame_relocate (value : list byte) (t : Turn) :
  snd (frame value t) =
  relocate (buffer (snd (frame value t))) (decoder (snd (frame value t))) t.
Proof. unfold frame. now destruct (TextDecoder.decode (decoder t) value). Qed.

Lemma read_chunk_feed (value : list byte) (s : State) (t : Turn) :
  read_chunk value (s, t) = feed (fst (frame value t)) (s, snd (frame value t)).
Proof. unfold read_chunk. now destruct (frame value t). Qed.

(** After a chunk the held-back text has no line feed and the decoder is
    between two bytes. *)
Lemma read_chunk_framing (value : list byte) (s : State) (t : Turn) :
  sound (decoder t) ->
  ~ In LF (buffer (snd (read_chunk value (s, t)))) /\
  sound (decoder (snd (read_chunk value (s, t)))).
Proof.
  intros H. rewrite read_chunk_feed, frame_relocate, feed_relocate.
  unfold relocate, frame. cbn [snd buffer decoder].
  destruct (decode_sound value (decoder t) H) as [D _].
  destruct (TextDecoder.decode (decoder t) value) as [d decoded].
  cbn [snd fst buffer decoder] in *. split; [|exact D].
  apply last_split_go_no_LF. intros [].
Qed.

Lemma step_received (value : list byte) (s : State) (t : Turn) :
  mounted s = true -> turn s = Some t -> awaiting t = reader_read ->
  step s (Scenario.received value) =
  set_turn (Some (snd (read_chunk value (s, t)))) (fst (read_chunk value (s, t))).
Proof.
  intros Hm Ht Ha. unfold step, Scenario.received. rewrite Hm. cbn [negb].
  rewrite Ht, Ha. unfold read_settled.
  now destruct (read_chunk value (s, t)).
Qed.

Lemma set_turn_same (s : State) (t : Turn) :
  turn s = Some t -> set_turn (Some (relocate (buffer t) (decoder t) t)) s = s.
Proof. intros H. destruct s, t. simpl in *. now rewrite H. Qed.

(** Chunks received one after the other, while no updater throws: the lines
    of the framing go through the loop body, and the framing keeps its
    remainder. *)
Lemma run_received (chunks : list (list byte)) (s : State) (t : Turn) :
  mounted s = true -> turn s = Some t -> awaiting t = reader_read ->
  let lines := fst (framer chunks t) in
  let tf := snd (framer chunks t) in
  let st := feed lines (s, t) in
  mounted (run s (map Scenario.received chunks)) = mounted (fst st) /\
  (mounted (fst st) = true ->
   run s (map Scenario.received chunks) =
   set_turn (Some (relocate (buffer tf) (decoder tf) (snd st))) (fst st)).
Proof.
  revert s t. induction chunks as [|c chunks IH]; intros s t Hm Ht Ha; simpl.
  - split; [reflexivity|]. intros _. symmetry. now apply set_turn_same.
  - rewrite (step_received c s t Hm Ht Ha), read_chunk_feed.
    pose proof (frame_relocate c t) as Hc.
    destruct (frame c t) as [lines_c tc]. cbn [fst snd] in *.
    set (b := buffer tc) in *. set (d := decoder tc) in *. rewrite Hc. clear Hc.
    rewrite feed_relocate.
    pose proof (feed_awaiting lines_c s t) as Ha0.
    destruct (feed lines_c (s, t)) as [s0 t0] eqn:E0. cbn [fst snd] in *.
    destruct (framer_relocate chunks (relocate b d t) (relocate b d t0) eq_refl eq_refl)
      as (F1 & F2 & F3).
    destruct (framer chunks (relocate b d t)) as [more t2]. cbn [fst snd] in *.
    rewrite feed_app, E0.
    destruct (mounted s0) eqn:Hm0.
    + destruct (IH (set_turn (Some (relocate b d t0)) s0) (relocate b d t0)
                  Hm0 eq_refl (eq_trans Ha0 Ha)) as [I1 I2].
      rewrite <- F1, <- F2, <- F3 in *.
      rewrite feed_locals in I1, I2. cbn [fst snd] in *.
      split; [exact I1|].
      intros Hm1. rewrite (I2 Hm1). reflexivity.
    + rewrite run_unmounted by exact Hm0.
      rewrite feed_unmounted by exact Hm0. cbn [fst].
      split; [reflexivity | intros; congruence].
Qed.

Lemma run_not_reading (events : list Event) (s : State) :
  (forall t, turn s = Some t -> awaiting t <> reader_read) ->
  Forall (fun e => exists value, e = Scenario.received value) events ->
  run s events = s.
Proof.
  intros H F. unfold run. induction F as [|e events [value ->] _ IH]; simpl; [reflexivity|].
  replace (step s (Scenario.received value)) with s; [exact IH|].
  unfold step, Scenario.received. destruct (mounted s); simpl; [|reflexivity].
  destruct (turn s) as [t|]; [|reflexivity].
  specialize (H t eq_refl). now destruct (awaiting t).
Qed.

(** *** Invariants of the turn machinery *)

Lemma synced_leaves (s s' : State) : leaves s s' -> synced s'.
Proof.
  intros H. apply leaves_cleaned in H.
  destruct H as [((H1 & H2 & _) & _ & _ & _ & _ & Ht) _].
  unfold synced. rewrite H1, H2, Ht. split; [reflexivity | discriminate].
Qed.

Lemma step_synced (s : State) (e : Event) : synced s -> synced (step s e).
Proof.
  intros [H1 H2].
  destruct (step_moves s e) as [|content Hs| |s' _ Hl|decision| |t Ht|t Ht|t value s1 t1 Ht E|ms].
  - now split.
  - unfold sendMessage. rewrite Hs. unfold synced. state_simpl.
    split; [reflexivity|]. intros t [= <-]. reflexivity.
  - now split.
  - now apply synced_leaves with s.
  - unfold handlePermissionResponse. now destruct (truthy (pendingPermission s)).
  - unfold permission_settled. now destruct (permissionFetches s).
  - unfold synced. state_simpl. split; [assumption|]. intros t' [= <-].
    state_simpl. now apply H2.
  - unfold synced, reading. state_simpl. split; [assumption|]. intros t' [= <-].
    state_simpl. now apply H2.
  - unfold synced. state_simpl.
    pose proof (read_chunk_invariant
      (fun s t => streamingContent s = accumulatedRef s /\ accumulatedRef s = accumulated t))
      as L.
    specialize (L (fun s t t' H _ Ha _ => conj (proj1 H) (eq_trans (proj2 H) (eq_sym Ha)))).
    assert (F : forall type data s t,
      streamingContent s = accumulatedRef s /\ accumulatedRef s = accumulated t ->
      streamingContent (fst (fold_event type data (s, t))) =
      accumulatedRef (fst (fold_event type data (s, t))) /\
      accumulatedRef (fst (fold_event type data (s, t))) =
      accumulated (snd (fold_event type data (s, t)))).
    { clear. intros type data s t [H1 H2]. unfold fold_event, append_text.
      loop_cases; now split. }
    specialize (L F value s t (conj H1 (H2 t Ht))). rewrite E in L. simpl in L.
    split; [apply L|]. intros t' [= <-]. apply L.
  - unfold elapse, synced. state_simpl.
    destruct (expire_text (timers s) (set_clock (clock s + ms) s)) as (E1 & E2 & E3).
    rewrite E1, E2, E3. state_simpl. now split.
Qed.

Lemma act_synced (s : State) (a : Action) : synced s -> synced (act s a).
Proof.
  apply (act_invariant synced); clear s a.
  - apply step_synced.
  - intros s l H. exact H.
  - intros s [H1 H2]. split; [reflexivity | exact H2].
  - intros s x H. exact H.
  - intros s x H. exact H.
  - intros s x H. exact H.
  - intros s x H. exact H.
Qed.

Lemma expire_keeps (l : list Timer) (s : State) :
  toolUses (expire l s) = toolUses s /\ toolResults (expire l s) = toolResults s /\
  pendingApprovalSessionId (expire l s) = pendingApprovalSessionId s /\
  messages (expire l s) = messages s.
Proof.
  revert s. induction l as [|a l IH]; intros s; simpl; [now split_all|].
  destruct (due a <=? clock s); [|apply IH].
  destruct (IH (fire (callback a) s)) as (H1 & H2 & H3 & H4).
  rewrite H1, H2, H3, H4. now destruct (callback a).
Qed.

Lemma distinct_ids_app (l : list ToolUseInfo.t) (x : ToolUseInfo.t) :
  distinct_ids l ->
  Forall (fun u => strict_eq (ToolUseInfo.id u) (ToolUseInfo.id x) = false) l ->
  distinct_ids (l ++ [x]).
Proof.
  induction l as [|u l IH]; simpl; intros H F.
  - split; [constructor | exact I].
  - destruct H as [H1 H2]. inversion F as [|? ? F1 F2]; subst. split.
    + apply Forall_app. split; [assumption | now constructor].
    + now apply IH.
Qed.

Lemma existsb_false (A : Type) (f : A -> bool) (l : list A) :
  existsb f l = false -> Forall (fun x => f x = false) l.
Proof.
  induction l as [|a l IH]; simpl; intros H; [constructor|].
  apply orb_false_iff in H. destruct H. constructor; auto.
Qed.

Lemma add_tool_use_distinct (toolData : value) (prev l : list ToolUseInfo.t) :
  distinct_ids prev -> add_tool_use toolData prev = Some l -> distinct_ids l.
Proof.
  unfold add_tool_use. intros H.
  destruct (Get toolData "id") as [id|]; [|discriminate].
  destruct (existsb _ prev) eqn:E; intros [= <-]; [assumption|].
  apply distinct_ids_app; [assumption|].
  apply existsb_false in E. exact E.
Qed.

Lemma fold_event_distinct (type : EventType) (data : value) (s : State) (t : Turn) :
  distinct_ids (toolUses s) ->
  distinct_ids (toolUses (fst (fold_event type data (s, t)))).
Proof.
  unfold fold_event, append_text. intros H.
  loop_cases; try assumption.
  eapply add_tool_use_distinct; eassumption.
Qed.

Lemma step_distinct (s : State) (e : Event) :
  distinct_ids (toolUses s) -> distinct_ids (toolUses (step s e)).
Proof.
  intros H.
  destruct (step_moves s e) as [|content Hs| |s' _ Hl|decision| |t Ht|t Ht|t value s1 t1 Ht E|ms].
  - assumption.
  - unfold sendMessage. rewrite Hs. exact I.
  - assumption.
  - apply leaves_cleaned in Hl. destruct Hl as [((_ & _ & Hu & _) & _) _].
    rewrite Hu. exact I.
  - unfold handlePermissionResponse. now destruct (truthy (pendingPermission s)).
  - unfold permission_settled. now destruct (permissionFetches s).
  - assumption.
  - assumption.
  - state_simpl. change s1 with (fst (s1, t1)). rewrite <- E.
    apply (read_chunk_invariant (fun s _ => distinct_ids (toolUses s))); [auto | | assumption].
    intros type data s0 t0. apply fold_event_distinct.
  - unfold elapse. state_simpl.
    destruct (expire_keeps (timers s) (set_clock (clock s + ms) s)) as (Hu & _).
    rewrite Hu. exact H.
Qed.

Lemma act_distinct (s : State) (a : Action) :
  distinct_ids (toolUses s) -> distinct_ids (toolUses (act s a)).
Proof.
  apply (act_invariant (fun s => distinct_ids (toolUses s))); clear s a;
    [apply step_distinct | intros s ? H; exact H | intros s H; exact H
    | intros s ? H; exact H ..].
Qed.

(** When no turn is live the component is as the [finally] block leaves
    it. *)
Lemma step_idle (s : State) (e : Event) :
  (turn s = None -> cleaned s) -> turn (step s e) = None -> cleaned (step s e).
Proof.
  intros H.
  destruct (step_moves s e) as [|content Hs|Hi|s' _ Hl|decision| |t Ht|t Ht|t value s1 t1 Ht E|ms].
  - assumption.
  - unfold sendMessage. rewrite Hs. state_simpl. discriminate.
  - intros _. destruct (H Hi) as (C1 & C2 & C3 & C4 & C5 & C6).
    unfold cleaned. state_simpl. now split_all.
  - intros _. now apply leaves_cleaned in Hl.
  - unfold handlePermissionResponse.
    destruct (truthy (pendingPermission s)) eqn:Ep; [|assumption].
    simpl. intros Hn. apply H in Hn. destruct Hn as (_ & (Hp & _) & _).
    rewrite Hp in Ep. discriminate.
  - unfold permission_settled. destruct (permissionFetches s); [assumption|].
    intros Hn. exact (H Hn).
  - state_simpl. discriminate.
  - state_simpl. discriminate.
  - state_simpl. discriminate.
  - unfold elapse. state_simpl. rewrite expire_turn. state_simpl. intros Hn.
    destruct (H Hn) as ((C1 & C2 & C3 & C4 & C5 & C6) & (G1 & G2 & G3) & C7 & C8 & C9 & C10).
    set (s0 := set_clock (clock s + ms) s).
    destruct (expire_keeps (timers s) s0) as (K1 & K2 & K3 & _).
    destruct (expire_frame (timers s) s0) as ((_ & _ & F3 & _ & _ & F6 & F7 & F8 & _) & F12 & _).
    destruct (expire_text (timers s) s0) as (T1 & T2 & _).
    destruct (expire_idle_stays (timers s) s0 (conj G1 G2)) as [I1 I2].
    pose proof (expire_status_stays (timers s) s0 C6) as S1.
    unfold cleaned, turn_reset, gate_idle. state_simpl.
    rewrite K1, K2, K3, F3, F6, F7, F8, F12, T1, T2, I1, I2, S1.
    subst s0. state_simpl. now split_all.
Qed.

Lemma act_idle (s : State) (a : Action) :
  (turn s = None -> cleaned s) -> turn (act s a) = None -> cleaned (act s a).
Proof.
  apply (act_invariant (fun s => turn s = None -> cleaned s)); clear s a.
  - apply step_idle.
  - intros s l H Hn. exact (H Hn).
  - intros s H Hn. destruct (H Hn) as ((C1 & C2 & C3) & C4).
    unfold cleaned, turn_reset. state_simpl. now split_all.
  - intros s x H Hn. exact (H Hn).
  - intros s x H Hn. exact (H Hn).
  - intros s x H Hn. exact (H Hn).
  - intros s x H Hn. exact (H Hn).
Qed.

Lemma act_coherent (s : State) (a : Action) : coherent s -> coherent (act s a).
Proof.
  apply (act_invariant coherent); clear s a;
    [apply step_coherent | intros s ? H; exact H | intros s H; exact H
    | intros s ? H; exact H ..].
Qed.

Lemma step_framed (s : State) (e : Event) : framed s -> framed (step s e).
Proof.
  intros H.
  destruct (step_moves s e) as [|content Hs| |s' _ Hl|decision| |t Ht|t Ht|t value s1 t1 Ht E|ms].
  - assumption.
  - unfold sendMessage. rewrite Hs. intros t [= <-].
    split; [intros [] | now left].
  - exact H.
  - apply leaves_cleaned in Hl. destruct Hl as [(_ & _ & _ & _ & _ & Hn) _].
    intros t Ht. congruence.
  - unfold handlePermissionResponse. now destruct (truthy (pendingPermission s)).
  - unfold permission_settled. now destruct (permissionFetches s).
  - intros t' [= <-]. exact (H t Ht).
  - intros t' [= <-]. split; [intros [] | now left].
  - intros t' [= <-]. change t1 with (snd (s1, t1)). rewrite <- E.
    apply read_chunk_framing. now apply H.
  - unfold elapse, framed. state_simpl. rewrite expire_turn. exact H.
Qed.

Lemma act_framed (s : State) (a : Action) : framed s -> framed (act s a).
Proof.
  apply (act_invariant framed); clear s a;
    [apply step_framed | intros s ? H; exact H | intros s H; exact H
    | intros s ? H; exact H ..].
Qed.

Lemma step_unmounts (s : State) (e : Event) :
  mounted s = true -> mounted (step s e) = false -> turn (step s e) <> None.
Proof.
  intros Hm.
  destruct (step_moves s e) as [|content Hs|Hi|s' _ Hl|decision| |t Ht|t Ht|t value s1 t1 Ht E|ms].
  - congruence.
  - unfold sendMessage. rewrite Hs. state_simpl. congruence.
  - state_simpl. congruence.
  - apply leaves_cleaned in Hl. destruct Hl as [_ Hl]. congruence.
  - unfold handlePermissionResponse.
    destruct (truthy (pendingPermission s)); cbn [negb]; state_simpl; congruence.
  - unfold permission_settled. destruct (permissionFetches s); state_simpl; congruence.
  - state_simpl. discriminate.
  - state_simpl. discriminate.
  - state_simpl. discriminate.
  - unfold elapse. state_simpl.
    destruct (expire_frame (timers s) (set_clock (clock s + ms) s)) as (_ & _ & _ & M).
    rewrite M. state_simpl. congruence.
Qed.

Lemma act_unmounts (s : State) (a : Action) :
  (mounted s = false -> turn s <> None) ->
  mounted (act s a) = false -> turn (act s a) <> None.
Proof.
  intros H. unfold act. destruct (mounted s) eqn:Hm; simpl;
    [|intros _; now apply H].
  destruct a.
  - now apply step_unmounts.
  - unfold handleCommand.
    destruct (JSString.eqb command (lit "/help")); [state_simpl; congruence|].
    destruct (JSString.eqb command (lit "/clear")); [state_simpl; congruence|].
    destruct (JSString.eqb command (lit "/cost")); [state_simpl; congruence|].
    unfold sendMessage. destruct (isStreaming s); state_simpl; congruence.
  - unfold handleVisibilityChange.
    destruct (visible && truthy (Str (accumulatedRef s)))%bool; state_simpl; congruence.
  - unfold handleModeChange.
    destruct (truthy (Str (sessionId s))); handler_simpl; congruence.
  - handler_simpl. congruence.
  - unfold initialMessagesEffect. destruct initialMessages; [congruence|].
    destruct (initializedRef s); handler_simpl; congruence.
  - unfold initialModeEffect.
    destruct initialMode as [[|c rest]|]; handler_simpl; congruence.
Qed.

(** Within a live turn the text of the turn only gains a suffix. *)
Lemma act_extends (s : State) (a : Action) (t t' : Turn) :
  coherent s -> turn s = Some t -> turn (act s a) = Some t' ->
  exists suffix, accumulated t' = accumulated t ++ suffix.
Proof.
  intros [[C1 C2] _] Ht.
  assert (Hs : isStreaming s = true) by (apply C2; congruence).
  assert (Same : turn s = Some t' -> exists suffix, accumulated t' = accumulated t ++ suffix).
  { intros H. exists []. rewrite app_nil_r. congruence. }
  unfold act. destruct (mounted s) eqn:Hm; simpl; [|exact Same].
  destruct a.
  - destruct (step_moves s e) as [|content Hn|Hi|s' _ Hl|decision| |t0 Ht0|t0 Ht0|t0 value s1 t1 Ht0 E|ms].
    + exact Same.
    + congruence.
    + congruence.
    + apply leaves_cleaned in Hl. destruct Hl as [(_ & _ & _ & _ & _ & Hn) _]. congruence.
    + unfold handlePermissionResponse. now destruct (truthy (pendingPermission s)).
    + unfold permission_settled. now destruct (permissionFetches s).
    + state_simpl. intros [= <-]. exists []. rewrite app_nil_r. state_simpl. congruence.
    + state_simpl. intros [= <-]. exists []. rewrite app_nil_r. unfold reading.
      state_simpl. congruence.
    + state_simpl. intros [= <-]. change t1 with (snd (s1, t1)). rewrite <- E.
      assert (t0 = t) by congruence. subst t0.
      apply (read_chunk_invariant
               (fun _ t1 => exists suffix, accumulated t1 = accumulated t ++ suffix)).
      * intros _ t1' t2' [suffix H] _ Ha _. exists suffix. congruence.
      * intros type data s0 t0 [suffix H]. unfold fold_event, append_text.
        loop_cases; try (exists suffix; assumption);
          rewrite H, <- app_assoc; eexists; reflexivity.
      * exists []. now rewrite app_nil_r.
    + unfold elapse. state_simpl. rewrite expire_turn. exact Same.
  - unfold handleCommand.
    destruct (JSString.eqb command (lit "/help")); [exact Same|].
    destruct (JSString.eqb command (lit "/clear")); [exact Same|].
    destruct (JSString.eqb command (lit "/cost")); [exact Same|].
    unfold sendMessage. rewrite Hs. exact Same.
  - unfold handleVisibilityChange.
    destruct (visible && truthy (Str (accumulatedRef s)))%bool; exact Same.
  - unfold handleModeChange. destruct (truthy (Str (sessionId s))); exact Same.
  - exact Same.
  - unfold initialMessagesEffect. destruct initialMessages; [exact Same|].
    destruct (initializedRef s); exact Same.
  - unfold initialModeEffect. destruct initialMode as [[|c rest]|]; exact Same.
Qed.

Lemma messages_throws (e : Thrown) (t : Turn) (s : State) :
  exists added, messages (throws e t s) = messages s ++ added /\ (length added <= 1)%nat.
Proof.
  unfold throws, finally, catch. state_simpl.
  destruct e; [destruct (trim (accumulated t))|..]; state_simpl;
    first [exists []; rewrite app_nil_r; split; [reflexivity | simpl; lia]
          |eexists; split; [reflexivity | simpl; lia]].
Qed.

Lemma messages_leaves (s s' : State) :
  leaves s s' ->
  exists added, messages s' = messages s ++ added /\ (length added <= 1)%nat.
Proof.
  intros [t|e t|e t].
  - rewrite messages_completes. destruct (trim (accumulated t)).
    + exists []. rewrite app_nil_r. split; [reflexivity | simpl; lia].
    + eexists. split; [reflexivity | simpl; lia].
  - apply messages_throws.
  - apply (messages_throws e t (set_abortControllerRef None s)).
Qed.

Lemma step_messages (s : State) (e : Event) :
  exists added, messages (step s e) = messages s ++ added /\ (length added <= 1)%nat.
Proof.
  assert (Same : forall s', messages s' = messages s ->
            exists added, messages s' = messages s ++ added /\ (length added <= 1)%nat).
  { intros s' H. exists []. rewrite app_nil_r. split; [exact H | simpl; lia]. }
  destruct (step_moves s e) as [|content Hs|Hi|s' _ Hl|decision| |t Ht|t Ht|t value s1 t1 Ht E|ms].
  - now apply Same.
  - unfold sendMessage. rewrite Hs. state_simpl. eexists. split; [reflexivity | simpl; lia].
  - now apply Same.
  - now apply messages_leaves.
  - apply Same. unfold handlePermissionResponse. now destruct (truthy (pendingPermission s)).
  - apply Same. unfold permission_settled. now destruct (permissionFetches s).
  - now apply Same.
  - now apply Same.
  - apply Same. state_simpl. change s1 with (fst (s1, t1)). rewrite <- E.
    apply read_chunk_frame.
  - apply Same. unfold elapse. state_simpl.
    now destruct (expire_keeps (timers s) (set_clock (clock s + ms) s)) as (_ & _ & _ & H).
Qed.

(** Only the effect of [initialMessages] writes [initializedRef], and only
    to set it. *)
Lemma expire_initialized (l : list Timer) (s : State) :
  initializedRef (expire l s) = initializedRef s.
Proof.
  revert s. induction l as [|a l IH]; intros s; simpl; [reflexivity|].
  destruct (due a <=? clock s); rewrite IH; [|reflexivity].
  now destruct (callback a).
Qed.

Lemma leaves_initialized (s s' : State) :
  leaves s s' -> initializedRef s' = initializedRef s.
Proof.
  intros [t|e t|e t]; unfold completes, throws, finally, commit, catch; state_simpl;
    [|destruct e; try reflexivity..]; now destruct (trim (accumulated t)).
Qed.

Lemma step_initialized (s : State) (e : Event) :
  initializedRef (step s e) = initializedRef s.
Proof.
  destruct (step_moves s e) as [|content Hs| |s' _ Hl|decision| |t Ht|t Ht|t value s1 t1 Ht E|ms].
  - reflexivity.
  - unfold sendMessage. now rewrite Hs.
  - reflexivity.
  - now apply leaves_initialized.
  - unfold handlePermissionResponse. now destruct (truthy (pendingPermission s)).
  - unfold permission_settled. now destruct (permissionFetches s).
  - reflexivity.
  - reflexivity.
  - state_simpl. change s1 with (fst (s1, t1)). rewrite <- E.
    apply (read_chunk_invariant (fun s' _ => initializedRef s' = initializedRef s));
      [auto | | reflexivity].
    intros type data s0 t0 H. rewrite <- H. unfold fold_event, append_text.
    loop_cases; reflexivity.
  - unfold elapse. state_simpl.
    apply (expire_initialized (timers s) (set_clock (clock s + ms) s)).
Qed.

Lemma act_initialized (s : State) (a : Action) :
  initializedRef s = true -> initializedRef (act s a) = true.
Proof.
  intros H. unfold act. destruct (mounted s); simpl; [|assumption].
  destruct a.
  - now rewrite step_initialized.
  - unfold handleCommand.
    destruct (JSString.eqb command (lit "/help")); [assumption|].
    destruct (JSString.eqb command (lit "/clear")); [assumption|].
    destruct (JSString.eqb command (lit "/cost")); [assumption|].
    unfold sendMessage. now destruct (isStreaming s).
  - unfold handleVisibilityChange.
    now destruct (visible && truthy (Str (accumulatedRef s)))%bool.
  - unfold handleModeChange. now destruct (truthy (Str (sessionId s))).
  - assumption.
  - unfold initialMessagesEffect. destruct initialMessages; [assumption|].
    now rewrite H.
  - unfold initialModeEffect. now destruct initialMode as [[|c rest]|].
Qed.

Section ReachableStates.
Variables (sessionId : jsstring) (initialMessages : list Message.t).
Variables (modelName initialMode : option jsstring) (now : N).

Let start : State := initial sessionId initialMessages modelName initialMode now.

Lemma reachable_synced (actions : list Action) : synced (perform start actions).
Proof.
  apply (perform_invariant synced act_synced).
  split; [reflexivity | discriminate].
Qed.

Lemma reachable_coherent (actions : list Action) : coherent (perform start actions).
Proof. apply (perform_invariant coherent act_coherent), coherent_initial. Qed.

Lemma reachable_framed (actions : list Action) : framed (perform start actions).
Proof. apply (perform_invariant framed act_framed). intros t. discriminate. Qed.

Lemma reachable_idle (actions : list Action) :
  turn (perform start actions) = None -> cleaned (perform start actions).
Proof.
  apply (perform_invariant (fun s => turn s = None -> cleaned s) act_idle).
  intros _. unfold cleaned, turn_reset, gate_idle. simpl. now split_all.
Qed.

Lemma reachable_distinct (actions : list Action) :
  distinct_ids (toolUses (perform start actions)).
Proof.
  apply (perform_invariant (fun s => distinct_ids (toolUses s)) act_distinct).
  exact I.
Qed.

Lemma reachable_unmounted (actions : list Action) :
  mounted (perform start actions) = false -> turn (perform start actions) <> None.
Proof.
  apply (perform_invariant (fun s => mounted s = false -> turn s <> None) act_unmounts).
  discriminate.
Qed.

End ReachableStates.

End HandlerFacts.

(** * The chat view over all of its handlers *)

Module Component.
Import JSNumber JSValue ChatView StringFacts MachineFacts LoopFacts.
Import InvariantFacts TimerFacts FramerFacts Handlers HandlerFacts Scenario Replay.

(** X1. A live turn ends at exactly these events, delivered while the
    component is mounted: cancellation while the controller is held, a
    rejection of the promise the turn awaits, a successful response without
    a body, the body of an error response, and the end of the stream. No
    frame of the stream ends a turn, not even [done] or [error]; nor do
    timers, permission decisions or a further send. *)
Theorem turn_ends_exactly (s : State) (e : Event) :
  exits s e <-> ends_turn s e = true.
Proof.
  unfold exits, ends_turn, step.
  destruct (turn s) as [t|] eqn:Ht;
    [|split; [intros [H _]; congruence | discriminate]].
  destruct (mounted s) eqn:Hm; cbn [negb andb];
    [|split; [intros [_ H]; congruence | discriminate]].
  destruct e.
  - unfold sendMessage. destruct (awaiting t), (isStreaming s); state_simpl;
      (split; [intros [_ H]; congruence | discriminate]).
  - unfold stopStreaming. destruct (abortControllerRef s); state_simpl; rewrite ?Ht.
    + destruct (awaiting t);
        (split; [reflexivity | intros _; split; [discriminate | reflexivity]]).
    + destruct (awaiting t); (split; [intros [_ H]; congruence | discriminate]).
  - unfold handlePermissionResponse.
    destruct (awaiting t), (truthy (pendingPermission s)); cbn [negb]; state_simpl;
      (split; [intros [_ H]; congruence | discriminate]).
  - unfold permission_settled.
    destruct (awaiting t), (permissionFetches s); state_simpl;
      (split; [intros [_ H]; congruence | discriminate]).
  - destruct (awaiting t);
      try (destruct r; (split; [intros [_ H]; congruence | discriminate])).
    unfold fetch_settled. destruct r as [response|x].
    + destruct (ok response), (has_body response); cbn [negb andb]; state_simpl;
        first [split; [intros [_ H]; discriminate H | discriminate]
              |split; [reflexivity | intros _; split; [discriminate | reflexivity]]].
    + split; [reflexivity | intros _; split; [discriminate | reflexivity]].
  - destruct (awaiting t);
      try (split; [intros [_ H]; congruence | discriminate]).
    unfold json_settled.
    destruct r as [err|x]; [destruct (Get err "error"); [destruct (ToString _)|]|];
      (split; [reflexivity | intros _; split; [discriminate | reflexivity]]).
  - destruct (awaiting t);
      try (destruct r as [[|]|]; (split; [intros [_ H]; congruence | discriminate])).
    unfold read_settled. destruct r as [[value|]|x].
    + destruct (read_chunk value (s, t)) as [s1 t1]. state_simpl.
      split; [intros [_ H]; discriminate H | discriminate].
    + split; [reflexivity | intros _; split; [discriminate | reflexivity]].
    + split; [reflexivity | intros _; split; [discriminate | reflexivity]].
  - unfold elapse. state_simpl. rewrite expire_turn. state_simpl. rewrite Ht.
    destruct (awaiting t); (split; [intros [_ H]; congruence | discriminate]).
Qed.

Section Reachable.
Variables (sessionId : jsstring) (initialMessages : list Message.t).
Variables (modelName initialMode : option jsstring) (now : N).
Variable actions : list Action.

Local Abbreviation s :=
  (perform (initial sessionId initialMessages modelName initialMode now) actions).

(** X2. In every state the component reaches from its first render, by the
    events of the turn machinery and the calls of its other handlers: when
    the streaming flag is down no turn is live, nothing of a turn is left
    (no streamed text, invocation, result, live output, status, permission
    request or controller), and a send is accepted. *)
Theorem idle_component_is_clean :
  isStreaming s = false ->
  cleaned s /\ forall content, accepted content s.
Proof.
  intros Hs.
  destruct (reachable_coherent sessionId initialMessages modelName initialMode now actions)
    as [[C1 C2] _].
  assert (Ht : turn s = None).
  { destruct (turn s) eqn:E; [|reflexivity].
    assert (isStreaming s = true) by (apply C2; congruence). congruence. }
  split.
  - now apply reachable_idle.
  - intros content. apply accepted_idle; [|exact Hs].
    destruct (mounted s) eqn:Hm; [reflexivity|].
    now elim (reachable_unmounted sessionId initialMessages modelName initialMode now
                actions Hm).
Qed.

(** X3. In every state the component reaches, the text on screen, the ref
    and the local of the live turn hold the same text, so a visibility or
    focus event changes nothing. *)
Theorem text_copies_agree :
  streamingContent s = accumulatedRef s /\
  (forall t, turn s = Some t -> streamingContent s = accumulated t) /\
  (forall visible, act s (VisibilityChange visible) = s).
Proof.
  destruct (reachable_synced sessionId initialMessages modelName initialMode now actions)
    as [H1 H2].
  split_all.
  - exact H1.
  - intros t Ht. rewrite H1. now apply H2.
  - intros visible. unfold act, handleVisibilityChange.
    destruct (mounted s); simpl; [|reflexivity].
    destruct (visible && _)%bool; [|reflexivity].
    clear H2. destruct s. simpl in *. now subst.
Qed.

(** X4. In every state the component reaches, no two entries of the
    invocation list have the same id, by [===]. *)
Theorem invocation_ids_distinct : distinct_ids (toolUses s).
Proof. apply reachable_distinct. Qed.

(** X5. While a turn stays live the text on screen only grows: whatever
    happens next, if the turn is still live afterwards the text shown is the
    text shown before with something appended. *)
Theorem shown_text_only_grows (a : Action) :
  turn s <> None -> turn (act s a) <> None ->
  exists suffix, streamingContent (act s a) = streamingContent s ++ suffix.
Proof.
  intros H H'.
  destruct (turn s) as [t|] eqn:Ht; [|congruence].
  destruct (turn (act s a)) as [t'|] eqn:Ht'; [|congruence].
  pose proof (reachable_coherent sessionId initialMessages modelName initialMode now actions)
    as C.
  pose proof (reachable_synced sessionId initialMessages modelName initialMode now actions)
    as [S1 S2].
  pose proof (act_synced s a (conj S1 S2)) as [S1' S2'].
  rewrite S1, S1', (S2 t Ht), (S2' t' Ht').
  now apply act_extends with s a.
Qed.

(** X8. How the network cuts the stream into chunks never shows: two
    sequences of chunks with the same bytes, received one chunk after the
    other while no updater throws, leave the component and the locals of
    the turn in the same state. *)
Theorem chunking_is_invisible (chunks1 chunks2 : list (list byte)) :
  concat chunks1 = concat chunks2 ->
  mounted (run s (map received chunks1)) = true ->
  run s (map received chunks1) = run s (map received chunks2).
Proof.
  intros Hc Hm1.
  assert (R : forall chunks,
            Forall (fun e => exists value, e = received value) (map received chunks)).
  { intros chunks. apply Forall_forall. intros e Hin. apply in_map_iff in Hin.
    destruct Hin as (value & <- & _). now exists value. }
  destruct (mounted s) eqn:Hm; [|now rewrite !run_unmounted].
  destruct (turn s) as [t|] eqn:Ht;
    [|rewrite !run_not_reading; try apply R; try reflexivity; intros t; congruence].
  destruct (awaiting t) eqn:Ha;
    try (rewrite !run_not_reading; try apply R; try reflexivity;
         intros t' Ht'; congruence).
  destruct (reachable_framed sessionId initialMessages modelName initialMode now actions
              t Ht) as [Hb _].
  destruct (run_received chunks1 s t Hm Ht Ha) as [A1 A2].
  destruct (run_received chunks2 s t Hm Ht Ha) as [_ B2].
  cbv zeta in *.
  assert (F : framer chunks1 t = framer chunks2 t)
    by (now rewrite !framer_whole, Hc by exact Hb).
  rewrite <- F in B2. rewrite Hm1 in A1. symmetry in A1.
  now rewrite (A2 A1), (B2 A1).
Qed.

(** X9. What follows the last line feed of the stream is never handled:
    when bytes without a line feed arrive and the turn then ends, by the end
    of the stream, a failure or a cancellation, the component is left as if
    those bytes had not arrived, be they a whole frame. *)
Theorem unterminated_tail_is_dropped (tail : list byte) (e : Event) :
  ~ In x0a tail -> ends_turn s e = true ->
  run s [received tail; e] = run s [e].
Proof.
  intros Hn He. unfold run. cbn [fold_left]. unfold ends_turn in He.
  destruct (turn s) as [t|] eqn:Ht; [|discriminate].
  destruct (mounted s) eqn:Hm; [|discriminate]. cbn [andb] in He.
  destruct (reachable_framed sessionId initialMessages modelName initialMode now actions
              t Ht) as [Hb Hd].
  destruct (awaiting t) eqn:Ha;
    try (replace (step s (received tail)) with s;
         [reflexivity | unfold step, received; now rewrite Hm, Ht, Ha]).
  rewrite (step_received tail s t Hm Ht Ha), read_chunk_feed, frame_relocate.
  assert (L : fst (frame tail t) = []).
  { unfold frame. destruct (DecoderFacts.decode_sound tail (decoder t) Hd) as [_ D].
    destruct (TextDecoder.decode (decoder t) tail) as [d decoded]. cbn [fst snd] in *.
    rewrite split_LF_no_LF; [reflexivity|].
    intros Hin. apply in_app_or in Hin. destruct Hin; [now apply Hb | now apply D]. }
  rewrite L. cbn [feed fold_left fst snd].
  set (b := buffer _). set (d := decoder _). clearbody b d.
  unfold step. state_simpl. rewrite Hm. cbn [negb].
  destruct e as [| | | |[|]|[|]|r|]; try discriminate.
  - unfold stopStreaming. state_simpl.
    destruct (abortControllerRef s); [|discriminate]. rewrite Ht.
    unfold throws, finally, catch, relocate. state_simpl.
    now destruct (trim (accumulated t)).
  - destruct r as [[value|]|x]; try discriminate;
      unfold relocate; state_simpl; rewrite Ht, !Ha;
      unfold read_settled, completes, throws, finally, commit, catch; state_simpl;
      [|destruct x]; try reflexivity; now destruct (trim (accumulated t)).
Qed.

End Reachable.

Lemma idle_component_is_clean_witness :
  isStreaming (perform start whole_turn) = false /\
  cleaned (perform start whole_turn) /\
  accepted (lit "more") (perform start whole_turn).
Proof.
  assert (Hs : isStreaming (perform start whole_turn) = false) by (vm_compute; reflexivity).
  destruct (idle_component_is_clean (lit "session-1") [] None None 1700000000000
              whole_turn Hs) as [H1 H2].
  split_all; [exact Hs | exact H1 | exact (H2 (lit "more"))].
Defined.

Lemma shown_text_only_grows_witness :
  turn (perform start under_way) <> None /\
  turn (act (perform start under_way) more_text) <> None /\
  exists suffix,
    streamingContent (act (perform start under_way) more_text) =
    streamingContent (perform start under_way) ++ suffix.
Proof.
  assert (H1 : turn (perform start under_way) <> None) by (vm_compute; discriminate).
  assert (H2 : turn (act (perform start under_way) more_text) <> None)
    by (vm_compute; discriminate).
  split_all; [exact H1 | exact H2 |].
  exact (shown_text_only_grows (lit "session-1") [] None None 1700000000000
           under_way more_text H1 H2).
Defined.

(** X6. The history is append-only, but for two things. Apart from the
    [/clear] command and a render with another [initialMessages], no action
    removes or rewrites a message, and each adds at most one. A render with
    another [initialMessages] changes nothing when the list is empty, or
    when a list that was not empty has come before; otherwise it replaces
    the whole history by the list, whatever the history holds by then. That
    happens once at most: afterwards, and from the start when the component
    is mounted with messages, no such render changes anything. *)
Theorem history_append_only :
  (forall s a,
     a <> Command (lit "/clear") -> (forall l, a <> InitialMessages l) ->
     exists added, messages (act s a) = messages s ++ added /\ (length added <= 1)%nat) /\
  (forall s l,
     mounted s = true -> initializedRef s = false -> l <> [] ->
     messages (act s (InitialMessages l)) = l /\
     initializedRef (act s (InitialMessages l)) = true) /\
  (forall s l, initializedRef s = true \/ l = [] -> act s (InitialMessages l) = s) /\
  (forall s actions,
     initializedRef s = true -> initializedRef (perform s actions) = true) /\
  (forall sessionId initialMessages modelName initialMode now,
     initialMessages <> [] ->
     initializedRef (initial sessionId initialMessages modelName initialMode now) = true).
Proof.
  split_all.
  - intros s a Ha Hi.
    assert (Same : forall s', messages s' = messages s ->
              exists added, messages s' = messages s ++ added /\ (length added <= 1)%nat).
    { intros s' H. exists []. rewrite app_nil_r. split; [exact H | simpl; lia]. }
    unfold act. destruct (mounted s); simpl; [|now apply Same].
    destruct a.
    + apply step_messages.
    + unfold handleCommand.
      destruct (JSString.eqb command (lit "/help"));
        [state_simpl; eexists; split; [reflexivity | simpl; lia]|].
      destruct (JSString.eqb command (lit "/clear")) eqn:E;
        [apply eqb_eq in E; congruence|].
      destruct (JSString.eqb command (lit "/cost"));
        [state_simpl; eexists; split; [reflexivity | simpl; lia]|].
      unfold sendMessage. destruct (isStreaming s); [now apply Same|].
      state_simpl. eexists. split; [reflexivity | simpl; lia].
    + apply Same. unfold handleVisibilityChange.
      now destruct (visible && truthy (Str (accumulatedRef s)))%bool.
    + apply Same. unfold handleModeChange. now destruct (truthy (Str (sessionId s))).
    + now apply Same.
    + now elim (Hi initialMessages).
    + apply Same. unfold initialModeEffect. now destruct initialMode as [[|c rest]|].
  - intros s l Hm Hi Hl. unfold act, initialMessagesEffect. rewrite Hm, Hi.
    destruct l; [congruence | now split].
  - intros s l H. unfold act, initialMessagesEffect.
    destruct (mounted s); [|reflexivity]. cbn [negb].
    destruct l; [reflexivity|]. destruct H as [H|H]; [now rewrite H | discriminate].
  - intros s actions.
    apply (perform_invariant (fun s => initializedRef s = true) act_initialized).
  - intros sessionId initialMessages modelName initialMode now H.
    unfold initial. state_simpl. now destruct initialMessages.
Qed.

Lemma chunking_is_invisible_witness :
  concat euro_whole = concat euro_cut /\
  mounted (run (perform start (map Machine [Send (lit "hi"); opened]))
             (map received euro_whole)) = true /\
  run (perform start (map Machine [Send (lit "hi"); opened])) (map received euro_whole) =
  run (perform start (map Machine [Send (lit "hi"); opened])) (map received euro_cut).
Proof.
  assert (H1 : concat euro_whole = concat euro_cut) by (vm_compute; reflexivity).
  assert (H2 : mounted (run (perform start (map Machine [Send (lit "hi"); opened]))
                          (map received euro_whole)) = true) by (vm_compute; reflexivity).
  split_all; [exact H1 | exact H2 |].
  exact (chunking_is_invisible (lit "session-1") [] None None 1700000000000
           (map Machine [Send (lit "hi"); opened]) euro_whole euro_cut H1 H2).
Defined.

Lemma unterminated_tail_is_dropped_witness :
  ~ In x0a unterminated /\
  ends_turn (perform start under_way) closed = true /\
  run (perform start under_way) [received unterminated; closed] =
  run (perform start under_way) [closed].
Proof.
  assert (H1 : ~ In x0a unterminated).
  { vm_compute. intros H. repeat (destruct H as [H|H]; [discriminate H|]). exact H. }
  assert (H2 : ends_turn (perform start under_way) closed = true)
    by (vm_compute; reflexivity).
  split_all; [exact H1 | exact H2 |].
  exact (unterminated_tail_is_dropped (lit "session-1") [] None None 1700000000000
           under_way unterminated closed H1 H2).
Defined.

Lemma history_append_only_witness :
  Command (lit "/help") <> Command (lit "/clear") /\
  (forall l, Command (lit "/help") <> InitialMessages l) /\
  (exists added,
     messages (act start (Command (lit "/help"))) = messages start ++ added /\
     (length added <= 1)%nat) /\
  mounted (perform start under_way) = true /\
  initializedRef (perform start under_way) = false /\
  [loaded] <> [] /\
  map Message.content (messages (perform start under_way)) = [lit "hi"] /\
  messages (act (perform start under_way) (InitialMessages [loaded])) = [loaded] /\
  act (perform start (under_way ++ [InitialMessages [loaded]]))
      (InitialMessages [loaded; loaded]) =
  perform start (under_way ++ [InitialMessages [loaded]]).
Proof.
  destruct history_append_only as (H1 & H2 & H3 & H4 & _).
  assert (A : Command (lit "/help") <> Command (lit "/clear")) by (vm_compute; discriminate).
  assert (B : forall l, Command (lit "/help") <> InitialMessages l) by discriminate.
  assert (M : mounted (perform start under_way) = true) by (vm_compute; reflexivity).
  assert (I : initializedRef (perform start under_way) = false) by (vm_compute; reflexivity).
  assert (L : [loaded] <> []) by discriminate.
  assert (I' : initializedRef (perform start (under_way ++ [InitialMessages [loaded]])) =
               true) by (vm_compute; reflexivity).
  split_all;
    [exact A | exact B | exact (H1 start _ A B) | exact M | exact I | exact L
    | vm_compute; reflexivity | exact (proj1 (H2 _ _ M I L))
    | exact (H3 _ _ (or_introl I'))].
Defined.

(** X7. A failure other than a cancellation discards the partial answer:
    when the promise the live turn awaits is rejected with anything but an
    AbortError, the one message committed is the error report, whatever
    text the turn had accumulated, and the turn is over. *)
Theorem failure_discards_text (s : State) (t : Turn) (x : Thrown) :
  mounted s = true -> turn s = Some t -> x <> AbortError ->
  let rejection :=
    match awaiting t with
    | fetch_response => FetchSettled (rejected x)
    | response_json => JsonSettled (rejected x)
    | reader_read => ReadSettled (rejected x)
    end in
  messages (step s rejection) =
  messages s ++
  [assistant_message "temp-error-" (lit "**Error:** " ++ failure_message x) Null s] /\
  cleaned (step s rejection).
Proof.
  intros Hm Ht Hx rejection.
  assert (E : step s rejection = throws x t s).
  { subst rejection. unfold step. rewrite Hm. simpl.
    destruct (awaiting t) eqn:Ha; rewrite Ht, Ha; reflexivity. }
  rewrite E. split; [|apply cleaned_finally].
  unfold throws, finally, catch. state_simpl. destruct x; [congruence|reflexivity..].
Qed.

(** X20. The mode and the model sent with a message are the ones last
    chosen: after a change of mode and a change of model, a send that is
    accepted posts them to [/api/chat] with the session and the content. *)
Theorem chosen_mode_is_sent (s : State) (newMode model content : jsstring) :
  mounted s = true -> isStreaming s = false ->
  exists earlier,
    fetches (perform s [ModeChange newMode; ModelChange model; Machine (Send content)]) =
    earlier ++
    [{| url := lit "/api/chat"; method := lit "POST";
        body := JSON.stringify
                  (Obj [(lit "session_id", Str (sessionId s));
                        (lit "content", Str content);
                        (lit "mode", Str newMode);
                        (lit "model", Str model)]) |}].
Proof.
  intros Hm Hs. unfold perform. cbn [fold_left].
  assert (M : forall s1, mounted s1 = true -> act s1 (ModelChange model) =
                                              setCurrentModel model s1).
  { intros s1 H. unfold act. now rewrite H. }
  assert (E : act s (ModeChange newMode) = handleModeChange newMode s)
    by (unfold act; now rewrite Hm).
  rewrite E. unfold handleModeChange.
  destruct (truthy (Str (sessionId s))); rewrite M by exact Hm;
    unfold act, step, sendMessage; handler_simpl; rewrite Hm, Hs;
    cbn [negb]; handler_simpl; unfold chat_request; handler_simpl;
    eexists; reflexivity.
Qed.

Lemma chosen_mode_is_sent_witness :
  mounted start = true /\ isStreaming start = false /\
  exists earlier,
    fetches (perform start [ModeChange (lit "plan"); ModelChange (lit "opus");
                            Machine (Send (lit "hi"))]) =
    earlier ++
    [{| url := lit "/api/chat"; method := lit "POST";
        body := JSON.stringify
                  (Obj [(lit "session_id", Str (sessionId start));
                        (lit "content", Str (lit "hi"));
                        (lit "mode", Str (lit "plan"));
                        (lit "model", Str (lit "opus"))]) |}].
Proof.
  assert (H1 : mounted start = true) by reflexivity.
  assert (H2 : isStreaming start = false) by reflexivity.
  split_all; [exact H1 | exact H2 |].
  exact (chosen_mode_is_sent start (lit "plan") (lit "opus") (lit "hi") H1 H2).
Defined.

Lemma failure_discards_text_witness :
  mounted partial = true /\ turn partial = Some (live partial) /\
  Error (lit "network error") <> AbortError /\
  messages (step partial (ReadSettled (rejected (Error (lit "network error"))))) =
  messages partial ++
  [assistant_message "temp-error-" (lit "**Error:** " ++ lit "network error") Null partial] /\
  cleaned (step partial (ReadSettled (rejected (Error (lit "network error"))))).
Proof.
  assert (Hm : mounted partial = true) by (vm_compute; reflexivity).
  assert (Ht : turn partial = Some (live partial)) by (vm_compute; reflexivity).
  assert (Hx : Error (lit "network error") <> AbortError) by discriminate.
  pose proof (failure_discards_text partial (live partial) (Error (lit "network error"))
                Hm Ht Hx) as H.
  cbv zeta in H.
  replace (awaiting (live partial)) with reader_read in H by (vm_compute; reflexivity).
  split_all; [exact Hm | exact Ht | exact Hx | apply H | apply H].
Defined.

End Component.

(** * Paths *)

Module PathFacts.
Import Path StringFacts.

Ltac split_all := repeat match goal with |- _ /\ _ => split end.

Lemma split_slash_app (a b cur : jsstring) :
  split_slash cur (a ++ slash :: b) = split_slash cur a ++ split_slash [] b.
Proof.
  revert cur. induction a as [|c a IH]; intros cur; simpl.
  - reflexivity.
  - destruct (c =? slash); simpl; now rewrite IH.
Qed.

Lemma split_slash_plain (s cur : jsstring) :
  ~ In slash s -> split_slash cur s = [rev cur ++ s].
Proof.
  revert cur. induction s as [|c s IH]; intros cur H; simpl.
  - now rewrite app_nil_r.
  - destruct (c =? slash) eqn:E.
    + apply N.eqb_eq in E. elim H. now left.
    + rewrite IH by (intros Hin; apply H; now right).
      simpl. now rewrite <- app_assoc.
Qed.

Lemma split_slash_free (s cur : jsstring) :
  ~ In slash cur -> Forall (fun x => ~ In slash x) (split_slash cur s).
Proof.
  revert cur. induction s as [|c s IH]; intros cur H; simpl.
  - constructor; [|constructor]. intros Hin. apply in_rev in Hin. now apply H.
  - destruct (c =? slash) eqn:E.
    + constructor; [|apply IH; intros []].
      intros Hin. apply in_rev in Hin. now apply H.
    + apply IH. intros [Hc|Hin]; [|now apply H].
      subst c. now rewrite N.eqb_refl in E.
Qed.

(** Joining segments without a slash and splitting again gives them
    back. *)
Lemma split_join (l : list jsstring) :
  l <> [] -> Forall (fun x => ~ In slash x) l -> split_slash [] (join_slash l) = l.
Proof.
  induction l as [|x l IH]; intros Hn F; [congruence|].
  inversion F as [|? ? Hx Hl]; subst. destruct l as [|y l].
  - simpl. now rewrite split_slash_plain.
  - change (join_slash (x :: y :: l)) with (x ++ slash :: join_slash (y :: l)).
    rewrite split_slash_app, split_slash_plain by assumption.
    rewrite IH by (assumption || discriminate). reflexivity.
Qed.

Lemma join_slash_snoc (l : list jsstring) (x : jsstring) :
  l <> [] -> join_slash (l ++ [x]) = join_slash l ++ slash :: x.
Proof.
  induction l as [|y l IH]; intros Hn; [congruence|].
  destruct l as [|z l]; [reflexivity|].
  change (join_slash ((y :: z :: l) ++ [x]))
    with (y ++ slash :: join_slash ((z :: l) ++ [x])).
  rewrite IH by discriminate.
  change (join_slash (y :: z :: l)) with (y ++ slash :: join_slash (z :: l)).
  now rewrite <- app_assoc.
Qed.

Lemma push_plain (allow : bool) (stack : list jsstring) (x : jsstring) :
  plain x -> push allow stack x = x :: stack.
Proof.
  intros (H1 & H2 & H3 & _). unfold push.
  destruct (JSString.eqb x []) eqn:E1; [apply eqb_eq in E1; contradiction|].
  destruct (JSString.eqb x (lit ".")) eqn:E2; [apply eqb_eq in E2; contradiction|].
  destruct (JSString.eqb x (lit "..")) eqn:E3; [apply eqb_eq in E3; contradiction|].
  reflexivity.
Qed.

Lemma push_normal (allow : bool) (stack : list jsstring) (x : jsstring) :
  ~ In slash x -> normal allow stack -> normal allow (push allow stack x).
Proof.
  intros Hx H. unfold push.
  destruct (JSString.eqb x []) eqn:E1; [exact H|].
  destruct (JSString.eqb x (lit ".")) eqn:E2; [exact H|].
  assert (N1 : x <> []) by (intros ->; discriminate).
  assert (N2 : x <> lit ".") by (intros ->; discriminate).
  simpl. destruct (JSString.eqb x (lit "..")) eqn:E3.
  - apply eqb_eq in E3. destruct stack as [|top rest].
    + destruct allow; [|exact I]. simpl. split_all; auto.
    + destruct (JSString.eqb top (lit "..")) eqn:E4.
      * apply eqb_eq in E4. destruct allow; [|exact H].
        simpl in H. destruct H as (T1 & T2 & T3 & T4 & T5).
        simpl. split_all; auto. intros _. split; [reflexivity|].
        constructor; [exact E4 | now apply T4].
      * simpl in H. apply H.
  - simpl. split_all; auto. intros ->. discriminate.
Qed.

Lemma fold_push_normal (allow : bool) (l stack : list jsstring) :
  Forall (fun x => ~ In slash x) l -> normal allow stack ->
  normal allow (fold_left (push allow) l stack).
Proof.
  revert stack. induction l as [|x l IH]; intros stack F H; simpl; [exact H|].
  inversion F; subst. apply IH; [assumption | now apply push_normal].
Qed.

(** Normalizing what is normalized changes nothing. *)
Lemma replay (allow : bool) (stack : list jsstring) :
  normal allow stack -> fold_left (push allow) (rev stack) [] = stack.
Proof.
  induction stack as [|top rest IH]; intros H; [reflexivity|].
  simpl in H. destruct H as (T1 & T2 & T3 & T4 & T5).
  simpl. rewrite fold_left_app, IH by assumption. simpl. unfold push.
  destruct (JSString.eqb top []) eqn:E1; [apply eqb_eq in E1; contradiction|].
  destruct (JSString.eqb top (lit ".")) eqn:E2; [apply eqb_eq in E2; contradiction|].
  simpl. destruct (JSString.eqb top (lit "..")) eqn:E3; [|reflexivity].
  apply eqb_eq in E3. destruct (T4 E3) as [-> F].
  destruct rest as [|y rest]; [reflexivity|].
  inversion F; subst. reflexivity.
Qed.

Lemma normal_free (allow : bool) (stack : list jsstring) :
  normal allow stack -> Forall (fun x => ~ In slash x) stack.
Proof.
  induction stack as [|top rest IH]; intros H; constructor; simpl in H; tauto.
Qed.

Lemma join_slash_nonempty (l : list jsstring) (x : jsstring) :
  x <> [] -> join_slash (l ++ [x]) <> [].
Proof.
  intros Hx. destruct l as [|y l]; [exact Hx|].
  rewrite join_slash_snoc by discriminate.
  intros H. apply app_eq_nil in H. destruct H. discriminate.
Qed.

Lemma last_plain (P f : jsstring) :
  plain f -> (last (P ++ slash :: f) 0 =? slash) = false.
Proof.
  intros (H1 & _ & _ & H4).
  change (P ++ slash :: f) with (P ++ [slash] ++ f).
  rewrite app_assoc, last_app by exact H1.
  apply N.eqb_neq. intros E. apply H4. rewrite <- E.
  rewrite (app_removelast_last 0 H1) at 2. apply in_or_app. right. now left.
Qed.

Lemma segments_child (allow : bool) (P f : jsstring) :
  plain f -> segments allow (P ++ slash :: f) = segments allow P ++ [f].
Proof.
  intros H. unfold segments.
  rewrite split_slash_app, fold_left_app, split_slash_plain by apply H.
  simpl. now rewrite push_plain.
Qed.

(** A plain segment after a path is a plain segment after the normalized
    path. *)
Lemma normalize_child (P f : jsstring) :
  P <> [] -> plain f ->
  normalize (P ++ slash :: f) =
  (if hd 0 P =? slash then [slash] else []) ++
  join_slash (segments (negb (hd 0 P =? slash)) P ++ [f]).
Proof.
  intros Hp Hf. destruct P as [|c P]; [congruence|].
  unfold normalize. cbn [app hd].
  change (c :: P ++ slash :: f) with ((c :: P) ++ slash :: f).
  rewrite last_plain, segments_child by exact Hf.
  pose proof (join_slash_nonempty (segments (negb (c =? slash)) (c :: P)) f (proj1 Hf)) as N.
  destruct (join_slash _) as [|y body]; [congruence|].
  now rewrite app_nil_r.
Qed.

Lemma segments_normal (allow : bool) (X : jsstring) : normal allow (rev (segments allow X)).
Proof.
  unfold segments. rewrite rev_involutive.
  apply fold_push_normal; [|exact I]. apply split_slash_free. intros [].
Qed.

Lemma normal_In (allow : bool) (stack : list jsstring) (x : jsstring) :
  normal allow stack -> In x stack -> x <> [] /\ ~ In slash x.
Proof.
  induction stack as [|y stack IH]; intros N Hin; [destruct Hin|].
  simpl in N. destruct N as (N1 & _ & N3 & _ & N5).
  destruct Hin as [->|Hin]; [now split | now apply IH].
Qed.

Lemma segments_In (allow : bool) (X x : jsstring) :
  In x (segments allow X) -> x <> [] /\ ~ In slash x.
Proof.
  intros H. apply (normal_In allow (rev (segments allow X))).
  - apply segments_normal.
  - exact (proj1 (in_rev _ _) H).
Qed.

Lemma join_slash_nil (l : list jsstring) :
  (forall x, In x l -> x <> []) -> join_slash l = [] -> l = [].
Proof.
  destruct l as [|x [|y l]]; intros H E; [reflexivity|..].
  - simpl in E. elim (H x); [now left | exact E].
  - change (x ++ slash :: join_slash (y :: l) = []) in E.
    apply app_eq_nil in E. destruct E. discriminate.
Qed.

Lemma hd_join_slash (l : list jsstring) :
  l <> [] -> (forall x, In x l -> x <> [] /\ ~ In slash x) ->
  hd 0 (join_slash l) <> slash.
Proof.
  intros Hn H. destruct l as [|x l]; [congruence|].
  destruct (H x (or_introl eq_refl)) as [Hx1 Hx2].
  destruct x as [|c x]; [congruence|].
  destruct l; simpl; intros ->; apply Hx2; now left.
Qed.

Lemma segments_rendered (abs : bool) (l : list jsstring) :
  l <> [] -> normal (negb abs) (rev l) ->
  segments (negb abs) ((if abs then [slash] else []) ++ join_slash l) = l.
Proof.
  intros Hn H. unfold segments.
  assert (F : Forall (fun x => ~ In slash x) l).
  { apply normal_free in H. apply Forall_forall. intros x Hx.
    apply (proj1 (Forall_forall _ _) H). now apply in_rev in Hx. }
  assert (R : fold_left (push (negb abs)) l [] = rev l).
  { rewrite <- (rev_involutive l) at 1. now apply replay. }
  destruct abs; cbn [app negb] in *.
  - change (split_slash [] (slash :: join_slash l))
      with ([] :: split_slash [] (join_slash l)).
    rewrite split_join by assumption.
    cbn [fold_left]. change (push false [] []) with (@nil jsstring).
    rewrite R. apply rev_involutive.
  - rewrite split_join by assumption. rewrite R. apply rev_involutive.
Qed.

(** A path with segments and no trailing slash, normalized. *)
Lemma normalize_rendered (X : jsstring) :
  X <> [] -> segments (negb (hd 0 X =? slash)) X <> [] ->
  (last X 0 =? slash) = false ->
  normalize X =
  (if hd 0 X =? slash then [slash] else []) ++
  join_slash (segments (negb (hd 0 X =? slash)) X).
Proof.
  intros Hx Hs Ht. destruct X as [|c X]; [congruence|].
  unfold normalize. cbn [hd] in *. rewrite Ht.
  destruct (join_slash _) as [|y body] eqn:E; [|now rewrite app_nil_r].
  elim Hs. apply join_slash_nil; [|exact E].
  intros x Hin. now apply segments_In in Hin.
Qed.

(** Joining a plain segment to a directory that [path.join] returned, and
    that is more than the root or the current directory, appends a slash
    and the segment. *)
Lemma normalize_normalized_child (X f : jsstring) :
  X <> [] -> plain f -> segments (negb (hd 0 X =? slash)) X <> [] ->
  (last X 0 =? slash) = false ->
  normalize (normalize X ++ slash :: f) = normalize X ++ slash :: f.
Proof.
  intros Hx Hf Hs Ht. pose proof (normalize_rendered X Hx Hs Ht) as D.
  set (abs := hd 0 X =? slash) in *. set (l := segments (negb abs) X) in *.
  assert (I : forall x, In x l -> x <> [] /\ ~ In slash x)
    by (intros x; apply segments_In).
  assert (Habs : (hd 0 (normalize X) =? slash) = abs).
  { rewrite D. destruct abs; [reflexivity|]. simpl. apply N.eqb_neq.
    now apply hd_join_slash. }
  assert (Hd : normalize X <> []).
  { rewrite D. destruct abs; [discriminate|]. simpl. intros E.
    apply Hs. apply join_slash_nil; [|exact E]. intros x Hin. now apply I. }
  rewrite (normalize_child (normalize X) f Hd Hf), Habs.
  rewrite D at 1. rewrite segments_rendered by (exact Hs || apply segments_normal).
  rewrite join_slash_snoc by exact Hs. rewrite D. now rewrite <- app_assoc.
Qed.

(** [path.join(path.join(h, a, b), f)] for plain segments [a], [b] and
    [f]. *)
Lemma join_child (h a b f : jsstring) :
  plain a -> plain b -> plain f ->
  join [join [h; a; b]; f] = join [h; a; b] ++ slash :: f.
Proof.
  intros Ha Hb Hf.
  assert (J : exists P, P <> [] /\
            join [h; a; b] = normalize (P ++ slash :: b)).
  { unfold join. destruct Ha as (Ha & _). destruct Hb as (Hb' & _).
    destruct a as [|ca a]; [congruence|]. destruct b as [|cb b]; [congruence|].
    destruct h as [|ch h]; cbn [filter nonempty join_slash].
    - exists (ca :: a). split; [discriminate|].
      destruct (_ ++ _) eqn:E; [|reflexivity]. discriminate E.
    - exists ((ch :: h) ++ slash :: ca :: a). split; [discriminate|].
      rewrite <- app_assoc. cbn [app].
      destruct (ch :: _) eqn:E; [discriminate E | reflexivity]. }
  destruct J as (P & Hp & J).
  set (X := P ++ slash :: b) in *.
  assert (Hx : X <> []) by (subst X; destruct P; discriminate).
  assert (Hh : hd 0 X = hd 0 P) by (subst X; destruct P; [congruence | reflexivity]).
  assert (Hs : segments (negb (hd 0 X =? slash)) X <> []).
  { subst X. rewrite segments_child by exact Hb. intros E.
    apply app_eq_nil in E. destruct E. discriminate. }
  assert (Ht : (last X 0 =? slash) = false) by (subst X; now apply last_plain).
  unfold join at 1. cbn [filter].
  assert (Hd : join [h; a; b] <> []).
  { rewrite J, (normalize_rendered X Hx Hs Ht).
    destruct (hd 0 X =? slash); [discriminate|]. simpl. intros E. apply Hs.
    apply join_slash_nil; [|exact E]. intros x Hin. now apply segments_In in Hin. }
  destruct Hf as (Hf1 & Hf').
  assert (N1 : nonempty (join [h; a; b]) = true)
    by (destruct (join [h; a; b]); [congruence | reflexivity]).
  assert (N2 : nonempty f = true) by (destruct f; [congruence | reflexivity]).
  rewrite N1, N2. cbn [join_slash].
  destruct (join [h; a; b] ++ [slash] ++ f) eqn:E;
    [apply app_eq_nil in E; destruct E; congruence|].
  rewrite <- E. cbn [app]. rewrite J.
  apply normalize_normalized_child; [assumption | now split | assumption | assumption].
Qed.

End PathFacts.

(** * The message input *)

Module InputFacts.
Import JSValue MessageInput StringFacts.

Ltac split_all := repeat match goal with |- _ /\ _ => split end.

(** What [span_end] returns: the text is cut in two, the suffix satisfies
    the predicate throughout, and the code unit before it does not. *)
Lemma span_end_spec (p : N -> bool) (reversed suffix : jsstring) :
  let '(found, before) := span_end p reversed suffix in
  exists word,
    found = word ++ suffix /\ rev reversed = rev before ++ word /\
    forallb p word = true /\
    match before with c :: _ => p c = false | [] => True end.
Proof.
  revert suffix. induction reversed as [|c r IH]; intros suffix; simpl.
  - exists []. now split_all.
  - destruct (p c) eqn:E.
    + specialize (IH (c :: suffix)). destruct (span_end p r (c :: suffix)) as [found before].
      destruct IH as (word & H1 & H2 & H3 & H4).
      exists (word ++ [c]). split_all.
      * now rewrite <- app_assoc.
      * now rewrite H2, app_assoc.
      * rewrite forallb_app, H3. simpl. now rewrite E.
      * exact H4.
    + exists []. split_all; try reflexivity.
      * now rewrite app_nil_r.
      * exact E.
Qed.

Lemma prefix_unique (p : N -> bool) (w v a b : jsstring) (c d : N) :
  w ++ c :: a = v ++ d :: b ->
  p c = false -> p d = false -> forallb p w = true -> forallb p v = true ->
  w = v /\ c = d /\ a = b.
Proof.
  intros E Hc Hd. revert v E.
  induction w as [|x w IH]; intros [|y v] E Hw Hv; simpl in *.
  - injection E as -> ->. now split_all.
  - injection E as -> E. apply andb_true_iff in Hv. destruct Hv. congruence.
  - injection E as -> E. apply andb_true_iff in Hw. destruct Hw. congruence.
  - injection E as -> E. apply andb_true_iff in Hw, Hv.
    destruct (IH v E (proj2 Hw) (proj2 Hv)) as (H1 & H2 & H3).
    split_all; congruence.
Qed.

Lemma forallb_rev (p : N -> bool) (w : jsstring) :
  forallb p w = true -> forallb p (rev w) = true.
Proof.
  intros H. apply forallb_forall. intros x Hx. apply in_rev in Hx.
  now apply (proj1 (forallb_forall p w) H).
Qed.

Lemma rev_eq (a b : jsstring) : rev a = rev b -> a = b.
Proof. intros H. apply (f_equal (@rev N)) in H. now rewrite !rev_involutive in H. Qed.

(** The longest suffix is the only one with a failing code unit before
    it. *)
Lemma suffix_unique (p : N -> bool) (a b w v : jsstring) (c d : N) :
  a ++ c :: w = b ++ d :: v ->
  p c = false -> p d = false -> forallb p w = true -> forallb p v = true ->
  a = b /\ c = d /\ w = v.
Proof.
  intros E Hc Hd Hw Hv.
  apply (f_equal (@rev N)) in E. rewrite !rev_app_distr in E. simpl in E.
  rewrite <- !app_assoc in E. simpl in E.
  destruct (prefix_unique p _ _ _ _ _ _ E Hc Hd (forallb_rev _ _ Hw) (forallb_rev _ _ Hv))
    as (H1 & H2 & H3).
  split_all; [now apply rev_eq | assumption | now apply rev_eq].
Qed.

Lemma forallb_cons_false (p : N -> bool) (a w : jsstring) (c : N) :
  p c = false -> forallb p (a ++ c :: w) = true -> False.
Proof.
  intros Hc H. rewrite forallb_app in H. simpl in H. rewrite Hc in H.
  rewrite andb_false_r in H. discriminate.
Qed.

(** The pattern of the mention trigger, read as a pattern: the text ends
    with an [@] and a run of code units that are neither white space nor
    [@]. *)
Lemma at_match_iff (s filter : jsstring) :
  at_match s = Some filter <-> mentions s filter.
Proof.
  unfold mentions, at_match. pose proof (span_end_spec mention_char (rev s) []) as H.
  destruct (span_end mention_char (rev s) []) as [found bf].
  destruct H as (word & -> & H2 & H3 & H4). rewrite rev_involutive, app_nil_r in *.
  split.
  - destruct bf as [|c bf]; [discriminate|].
    destruct (c =? 64) eqn:Hc; [|discriminate]. apply N.eqb_eq in Hc. subst c.
    intros [= <-]. exists (rev bf). simpl in H2. rewrite <- app_assoc in H2.
    now split.
  - intros (before & Hs & Hf). change (lit "@") with [64] in Hs. simpl in Hs.
    destruct bf as [|c bf].
    + simpl in H2. rewrite Hs in H2. rewrite <- H2 in H3.
      now elim (forallb_cons_false mention_char before filter 64).
    + simpl in H2. rewrite <- app_assoc in H2. simpl in H2. rewrite Hs in H2.
      destruct (suffix_unique mention_char _ _ _ _ _ _ H2 eq_refl H4 Hf H3)
        as (_ & <- & <-).
      reflexivity.
Qed.

(** The pattern of the command trigger, read as a pattern: the text ends
    with a slash and a run of code units that are not white space, and the
    slash starts the text or follows a white space. *)
Lemma slash_match_iff (s filter : jsstring) :
  slash_match s = Some filter <-> commands s filter.
Proof.
  unfold commands, slash_match. pose proof (span_end_spec command_char (rev s) []) as H.
  destruct (span_end command_char (rev s) []) as [found bf].
  destruct H as (word & -> & H2 & H3 & H4). rewrite rev_involutive, app_nil_r in *.
  change (lit "/") with [47]. split.
  - destruct word as [|c word]; [discriminate|].
    destruct (c =? 47) eqn:Hc; [|discriminate]. apply N.eqb_eq in Hc. subst c.
    intros [= <-]. exists (rev bf). simpl in H3. split_all; [exact H2 | exact H3 |].
    destruct bf as [|c bf]; [now left|]. right. exists (rev bf), c.
    split; [reflexivity|]. unfold command_char in H4.
    now apply negb_false_iff in H4.
  - intros (before & Hs & Hf & Hb). simpl in Hs.
    assert (Hw : forallb command_char (47 :: filter) = true) by (simpl; exact Hf).
    destruct bf as [|c bf]; simpl in H2.
    + destruct Hb as [->|(b & c & -> & Hc)].
      * simpl in Hs. rewrite Hs in H2. now rewrite <- H2.
      * rewrite <- app_assoc in Hs. simpl in Hs. rewrite Hs in H2. rewrite <- H2 in H3.
        elim (forallb_cons_false command_char b (47 :: filter) c); [|exact H3].
        unfold command_char. now rewrite Hc.
    + rewrite <- app_assoc in H2. simpl in H2.
      destruct Hb as [->|(b & c0 & -> & Hc)].
      * simpl in Hs. rewrite Hs in H2.
        elim (forallb_cons_false command_char (rev bf) word c H4).
        rewrite <- H2. exact Hw.
      * rewrite <- app_assoc in Hs. simpl in Hs. rewrite Hs in H2.
        assert (Hc' : command_char c0 = false) by (unfold command_char; now rewrite Hc).
        destruct (suffix_unique command_char _ _ _ _ _ _ H2 Hc' H4 Hw H3) as (_ & _ & <-).
        reflexivity.
Qed.

End InputFacts.

Module Input.
Import JSValue ChatView Handlers MessageInput Page StringFacts InputFacts.


(** X11. How a keystroke opens the popover. When the text before the cursor
    ends with an [@] and a run of code units that are neither white space
    nor [@], the file popover opens on that run and the files are fetched;
    otherwise, when it ends with a slash that starts the text or follows a
    white space, and a run of code units that are not white space, the
    command popover opens on that run and the skills are fetched; otherwise
    no popover is open afterwards and nothing is fetched. *)
Theorem trigger_detection (val : jsstring) (cursor : nat) (i : Input) :
  (forall filter, mentions (firstn cursor val) filter ->
     handleInputChange val (Some cursor) i =
     ({| popoverMode := Some file; popoverItems := popoverItems i;
         popoverFilter := filter; selectedIndex := Some O;
         triggerPos := Some (cursor - (length filter + 1))%nat;
         inputValue := val |}, [fetch_files filter])) /\
  (forall filter,
     (forall f, ~ mentions (firstn cursor val) f) ->
     commands (firstn cursor val) filter ->
     handleInputChange val (Some cursor) i =
     ({| popoverMode := Some skill; popoverItems := popoverItems i;
         popoverFilter := filter; selectedIndex := Some O;
         triggerPos := Some (cursor - length filter - 1)%nat;
         inputValue := val |}, [fetch_skills filter])) /\
  ((forall f, ~ mentions (firstn cursor val) f) ->
   (forall f, ~ commands (firstn cursor val) f) ->
   popoverMode (fst (handleInputChange val (Some cursor) i)) = None /\
   inputValue (fst (handleInputChange val (Some cursor) i)) = val /\
   snd (handleInputChange val (Some cursor) i) = []).
Proof.
  unfold handleInputChange. split_all.
  - intros filter H. apply at_match_iff in H. now rewrite H.
  - intros filter Hn H. apply slash_match_iff in H. rewrite H.
    destruct (at_match (firstn cursor val)) as [f|] eqn:E; [|reflexivity].
    apply at_match_iff in E. now elim (Hn f).
  - intros Hn Hc.
    destruct (at_match (firstn cursor val)) as [f|] eqn:E;
      [apply at_match_iff in E; now elim (Hn f)|].
    destruct (slash_match (firstn cursor val)) as [f|] eqn:E';
      [apply slash_match_iff in E'; now elim (Hc f)|].
    destruct (popoverMode i) eqn:Ep; simpl; rewrite ?Ep; now split_all.
Qed.

Lemma firstn_before (before rest : jsstring) :
  firstn (length before) (before ++ rest) = before.
Proof.
  rewrite firstn_app, Nat.sub_diag, firstn_all. simpl. apply app_nil_r.
Qed.

(** X12. Choosing an item right after the keystroke that opened the popover
    replaces the trigger and the filter typed so far, and nothing else: the
    text before the trigger and the text after the cursor are kept, a file
    is inserted as [@] and its path, a skill as its value, each followed by
    a space. *)
Theorem chosen_item_is_spliced (val : jsstring) (cursor : nat) (i : Input)
  (item : PopoverItem) (has_onCommand : bool) (before filter : jsstring) :
  (cursor <= length val)%nat ->
  builtIn item <> Some true \/ has_onCommand = false ->
  (firstn cursor val = before ++ lit "@" ++ filter ->
   forallb mention_char filter = true ->
   inputValue (fst (insertItem has_onCommand item
                      (fst (handleInputChange val (Some cursor) i)))) =
   before ++ lit "@" ++ value item ++ lit " " ++ skipn cursor val) /\
  ((forall f, ~ mentions (firstn cursor val) f) ->
   commands (firstn cursor val) filter ->
   firstn cursor val = before ++ lit "/" ++ filter ->
   inputValue (fst (insertItem has_onCommand item
                      (fst (handleInputChange val (Some cursor) i)))) =
   before ++ value item ++ lit " " ++ skipn cursor val).
Proof.
  intros Hc Hb.
  assert (B : match builtIn item with Some true => has_onCommand | _ => false end = false).
  { destruct Hb as [Hb| ->]; [|now destruct (builtIn item) as [[|]|]].
    destruct (builtIn item) as [[|]|]; congruence. }
  destruct (trigger_detection val cursor i) as (T1 & T2 & _).
  assert (L : forall mark : jsstring, length mark = 1%nat ->
              firstn cursor val = before ++ mark ++ filter ->
              (cursor - (length filter + 1) = length before)%nat /\
              (cursor - length filter - 1 = length before)%nat /\
              (length before + (length filter + 1) = cursor)%nat /\
              val = before ++ (mark ++ filter) ++ skipn cursor val).
  { intros mark Hm E. pose proof (firstn_length_le val Hc) as Hl.
    rewrite E, !length_app, Hm in Hl.
    split_all; try lia. rewrite app_assoc, app_assoc, <- (app_assoc before), <- E.
    symmetry. apply firstn_skipn. }
  split.
  - intros E Hf. rewrite (T1 filter) by (exists before; now split).
    destruct (L (lit "@") eq_refl E) as (L1 & _ & L3 & L4).
    unfold insertItem. cbn [fst triggerPos builtIn popoverMode popoverFilter inputValue
                              closePopover setInputValue].
    rewrite B, L1, L3. rewrite L4 at 1.
    cbn [fst inputValue closePopover setInputValue].
    now rewrite firstn_before, <- !app_assoc.
  - intros Hn Hcmd E. rewrite (T2 filter Hn Hcmd).
    destruct (L (lit "/") eq_refl E) as (_ & L2 & L3 & L4).
    unfold insertItem. cbn [fst triggerPos builtIn popoverMode popoverFilter inputValue
                              closePopover setInputValue].
    rewrite B, L2, L3. rewrite L4 at 1.
    cbn [fst inputValue closePopover setInputValue].
    now rewrite firstn_before, <- !app_assoc.
Qed.

Lemma chosen_item_is_spliced_witness :
  (7 <= length (lit "see @ro now"))%nat /\
  (builtIn a_file <> Some true \/ true = false) /\
  firstn 7 (lit "see @ro now") = lit "see " ++ lit "@" ++ lit "ro" /\
  forallb mention_char (lit "ro") = true /\
  inputValue (fst (insertItem true a_file
                     (fst (handleInputChange (lit "see @ro now") (Some 7%nat) empty)))) =
  lit "see " ++ lit "@" ++ value a_file ++ lit " " ++ skipn 7 (lit "see @ro now").
Proof.
  assert (H1 : (7 <= length (lit "see @ro now"))%nat) by (vm_compute; lia).
  assert (H2 : builtIn a_file <> Some true \/ true = false) by (left; discriminate).
  assert (H3 : firstn 7 (lit "see @ro now") = lit "see " ++ lit "@" ++ lit "ro")
    by reflexivity.
  assert (H4 : forallb mention_char (lit "ro") = true) by reflexivity.
  split_all; [exact H1 | exact H2 | exact H3 | exact H4 |].
  exact (proj1 (chosen_item_is_spliced (lit "see @ro now") 7 empty a_file true
                  (lit "see ") (lit "ro") H1 H2) H3 H4).
Defined.

Lemma split_slashes (k : nat) (cur : jsstring) :
  Path.split_slash cur (repeat Path.slash k) = rev cur :: repeat [] k.
Proof.
  revert cur. induction k as [|k IH]; intros cur; [reflexivity|].
  cbn [repeat Path.split_slash]. rewrite N.eqb_refl, IH. reflexivity.
Qed.

Lemma split_name_slashes (name cur : jsstring) (k : nat) :
  ~ In Path.slash name ->
  Path.split_slash cur (name ++ repeat Path.slash k) = (rev cur ++ name) :: repeat [] k.
Proof.
  revert cur. induction name as [|c name IH]; intros cur H.
  - cbn [app]. rewrite split_slashes. now rewrite app_nil_r.
  - cbn [app Path.split_slash]. destruct (c =? Path.slash) eqn:E.
    + apply N.eqb_eq in E. elim H. now left.
    + rewrite IH by (intros Hin; apply H; now right).
      cbn [rev]. now rewrite <- app_assoc.
Qed.

Lemma filter_empty (k : nat) : filter Path.nonempty (repeat [] k) = [].
Proof. induction k; [reflexivity | exact IHk]. Qed.

(** X21. The short name of the working directory is its last segment: what
    follows the last slash that is followed by anything but slashes, or the
    whole of it when it holds no slash before its name; slashes at the end
    do not count. *)
Theorem folder_short_name (parent name : jsstring) (k : nat) :
  name <> [] -> ~ In Path.slash name ->
  folderShortName (Some (name ++ repeat Path.slash k)) = name /\
  folderShortName (Some (parent ++ Path.slash :: name ++ repeat Path.slash k)) = name.
Proof.
  intros Hn Hs.
  assert (L : forall pieces : list jsstring,
            last (filter Path.nonempty (pieces ++ name :: repeat [] k)) [] = name).
  { intros pieces. rewrite filter_app. cbn [filter].
    assert (Path.nonempty name = true) as -> by (destruct name; [congruence | reflexivity]).
    rewrite filter_empty. change (name :: []) with ([name]).
    now rewrite last_app by discriminate. }
  split.
  - unfold folderShortName. destruct (name ++ repeat Path.slash k) as [|c rest] eqn:E.
    + apply app_eq_nil in E. destruct E. congruence.
    + rewrite <- E, split_name_slashes by exact Hs.
      cbn [rev app]. set (x := last _ _).
      assert (Hx : x = name) by apply (L []). rewrite Hx.
      destruct name; [congruence | reflexivity].
  - unfold folderShortName.
    destruct (parent ++ Path.slash :: name ++ repeat Path.slash k) as [|c rest] eqn:E.
    + apply app_eq_nil in E. destruct E. discriminate.
    + rewrite <- E, PathFacts.split_slash_app, split_name_slashes by exact Hs.
      cbn [rev app]. set (x := last _ _).
      assert (Hx : x = name) by apply L. rewrite Hx.
      destruct name; [congruence | reflexivity].
Qed.

Lemma folder_short_name_witness :
  lit "CodePilot" <> [] /\ ~ In Path.slash (lit "CodePilot") /\
  folderShortName (Some (lit "/home/dev" ++ Path.slash :: lit "CodePilot" ++
                         repeat Path.slash 2)) = lit "CodePilot".
Proof.
  assert (H1 : lit "CodePilot" <> []) by discriminate.
  assert (H2 : ~ In Path.slash (lit "CodePilot")).
  { vm_compute. intros H. repeat (destruct H as [H|H]; [discriminate H|]). exact H. }
  split_all; [exact H1 | exact H2 |].
  exact (proj2 (folder_short_name (lit "/home/dev") (lit "CodePilot") 2 H1 H2)).
Defined.

(** The two updaters in closed form. *)
Lemma next_wraps (n p : nat) :
  (p < n)%nat -> ((p + 1) mod n = if (S p =? n)%nat then O else S p)%nat.
Proof.
  intros H. destruct (Nat.eqb_spec (S p) n) as [E|E].
  - replace (p + 1)%nat with n by lia. apply Nat.Div0.mod_same.
  - rewrite Nat.mod_small by lia. lia.
Qed.

Lemma previous_wraps (n p : nat) :
  (p < n)%nat ->
  ((p + n - 1) mod n = match p with O => n - 1 | S q => q end)%nat.
Proof.
  intros H. destruct p as [|q].
  - apply Nat.mod_small. lia.
  - replace (S q + n - 1)%nat with (q + 1 * n)%nat by lia.
    rewrite Nat.Div0.mod_add. apply Nat.mod_small. lia.
Qed.

Section AnyCaseMapping.
Variable toLowerCase : jsstring -> jsstring.

Lemma next_previous (n p : nat) :
  (p < n)%nat ->
  ((p + 1) mod n < n)%nat /\ ((p + n - 1) mod n < n)%nat /\
  (((p + 1) mod n + n - 1) mod n = p)%nat /\
  (((p + n - 1) mod n + 1) mod n = p)%nat.
Proof.
  intros H.
  assert (Hn : n <> O) by lia.
  split_all; try (apply Nat.mod_upper_bound; exact Hn).
  - destruct (Nat.eq_dec (p + 1) n) as [E|E].
    + rewrite E, Nat.Div0.mod_same. simpl. rewrite Nat.mod_small by lia. lia.
    + rewrite (Nat.mod_small (p + 1)) by lia.
      replace (p + 1 + n - 1)%nat with (p + 1 * n)%nat by lia.
      rewrite Nat.Div0.mod_add. apply Nat.mod_small. lia.
  - destruct p as [|p].
    + simpl. rewrite (Nat.mod_small (n - 1)) by lia.
      replace (n - 1 + 1)%nat with n by lia. apply Nat.Div0.mod_same.
    + replace (S p + n - 1)%nat with (p + 1 * n)%nat by lia.
      rewrite Nat.Div0.mod_add, (Nat.mod_small p) by lia.
      rewrite Nat.mod_small by lia. lia.
Qed.

(** X13. The arrow keys move the selection cyclically inside the list
    shown, and touch nothing else. From the index [n] of a list of [shown]
    items, ArrowDown selects [n + 1], or the first item after the last one;
    ArrowUp selects [n - 1], or the last item before the first one; with two
    items or more the selection does move; the new index is an index of the
    list, and each key undoes the other. When the popover holds items but
    the filter matches none of their labels, either key makes the selection
    NaN. *)
Theorem arrows_cycle (has_onCommand : bool) (i : Input) (n : nat) :
  popoverMode i <> None -> popoverItems i <> [] -> selectedIndex i = Some n ->
  let shown := length (filteredItems toLowerCase i) in
  let down := handleKeyDown toLowerCase has_onCommand ArrowDown i in
  let up := handleKeyDown toLowerCase has_onCommand ArrowUp i in
  ((n < shown)%nat ->
   down = (setSelectedIndex (Some (if (S n =? shown)%nat then O else S n)) i, []) /\
   up = (setSelectedIndex (Some (match n with O => shown - 1 | S p => p end)%nat) i, []) /\
   ((2 <= shown)%nat ->
    selectedIndex (fst down) <> Some n /\ selectedIndex (fst up) <> Some n) /\
   (exists m, selectedIndex (fst down) = Some m /\ (m < shown)%nat) /\
   (exists m, selectedIndex (fst up) = Some m /\ (m < shown)%nat) /\
   fst (handleKeyDown toLowerCase has_onCommand ArrowUp (fst down)) = i /\
   fst (handleKeyDown toLowerCase has_onCommand ArrowDown (fst up)) = i) /\
  (shown = O -> selectedIndex (fst down) = None /\ selectedIndex (fst up) = None).
Proof.
  intros Hm Hi Hs shown down up.
  assert (D : down = (setSelectedIndex (next_index shown (Some n)) i, [])).
  { subst down. unfold handleKeyDown.
    destruct (popoverMode i); [|congruence]. destruct (popoverItems i); [congruence|].
    now rewrite Hs. }
  assert (U : up = (setSelectedIndex (previous_index shown (Some n)) i, [])).
  { subst up. unfold handleKeyDown.
    destruct (popoverMode i); [|congruence]. destruct (popoverItems i); [congruence|].
    now rewrite Hs. }
  assert (K : forall x key,
            fst (handleKeyDown toLowerCase has_onCommand key (setSelectedIndex x i)) =
            match key with
            | ArrowDown => setSelectedIndex (next_index shown x) i
            | ArrowUp => setSelectedIndex (previous_index shown x) i
            | _ => fst (handleKeyDown toLowerCase has_onCommand key (setSelectedIndex x i))
            end).
  { intros x key. unfold handleKeyDown. cbn [popoverMode popoverItems setSelectedIndex].
    destruct (popoverMode i); [|congruence]. destruct (popoverItems i); [congruence|].
    now destruct key. }
  split.
  - intros Hlt. destruct (next_previous shown n Hlt) as (N1 & N2 & N3 & N4).
    pose proof (next_wraps shown n Hlt) as W1.
    pose proof (previous_wraps shown n Hlt) as W2.
    rewrite D, U. cbn [fst]. rewrite (K _ ArrowUp), (K _ ArrowDown).
    unfold next_index, previous_index.
    destruct shown as [|k] eqn:Ek; [lia|]. cbn [selectedIndex setSelectedIndex].
    split_all.
    + now rewrite W1.
    + now rewrite W2.
    + intros H2. rewrite W1, W2. split.
      * destruct (Nat.eqb_spec (S n) (S k)); intros [= E]; lia.
      * destruct n; intros [= E]; lia.
    + eexists. split; [reflexivity | exact N1].
    + eexists. split; [reflexivity | exact N2].
    + rewrite N3. destruct i. simpl in *. now rewrite Hs.
    + rewrite N4. destruct i. simpl in *. now rewrite Hs.
  - intros H0. rewrite D, U, H0. split; reflexivity.
Qed.

End AnyCaseMapping.

Lemma arrows_cycle_witness :
  popoverMode three_shown <> None /\ popoverItems three_shown <> [] /\
  selectedIndex three_shown = Some 1%nat /\
  length (filteredItems (fun s => s) three_shown) = 3%nat /\
  selectedIndex (fst (handleKeyDown (fun s => s) true ArrowDown three_shown)) =
    Some 2%nat /\
  selectedIndex (fst (handleKeyDown (fun s => s) true ArrowUp three_shown)) =
    Some 0%nat /\
  fst (handleKeyDown (fun s => s) true ArrowUp
         (fst (handleKeyDown (fun s => s) true ArrowDown three_shown))) = three_shown.
Proof.
  assert (H1 : popoverMode three_shown <> None) by discriminate.
  assert (H2 : popoverItems three_shown <> []) by discriminate.
  assert (H3 : selectedIndex three_shown = Some 1%nat) by reflexivity.
  assert (H4 : length (filteredItems (fun s => s) three_shown) = 3%nat)
    by (vm_compute; reflexivity).
  assert (H5 : (1 < length (filteredItems (fun s => s) three_shown))%nat)
    by (rewrite H4; lia).
  pose proof (proj1 (arrows_cycle (fun s => s) true three_shown 1 H1 H2 H3) H5) as H.
  cbv zeta in H. destruct H as (D & U & _ & _ & _ & B & _).
  split_all; [exact H1 | exact H2 | exact H3 | exact H4 | | | exact B].
  - rewrite D, H4. reflexivity.
  - rewrite U. reflexivity.
Defined.

End Input.

(** * The skills route *)

Module RouteFacts.
Import JSValue Path SkillsRoute StringFacts PathFacts.

Lemma sanitize_safe (name : jsstring) : forallb safe_char (sanitize name) = true.
Proof.
  induction name as [|c name IH]; simpl; [reflexivity|].
  rewrite IH, andb_true_r. now destruct (safe_char c) eqn:E.
Qed.

Lemma sanitize_fixed (name : jsstring) :
  forallb safe_char name = true -> sanitize name = name.
Proof.
  induction name as [|c name IH]; simpl; [reflexivity|].
  intros H. apply andb_true_iff in H. destruct H as [H1 H2].
  now rewrite H1, IH.
Qed.

Lemma safe_no_slash (s : jsstring) : forallb safe_char s = true -> ~ In slash s.
Proof.
  induction s as [|c s IH]; simpl; intros H; [tauto|].
  apply andb_true_iff in H. destruct H as [H1 H2].
  intros [->|Hin]; [discriminate H1 | now apply IH].
Qed.

(** The name of the file of a skill is a plain segment. *)
Lemma file_name_plain (safe : jsstring) :
  safe <> [] -> forallb safe_char safe = true -> plain (safe ++ lit ".md").
Proof.
  intros Hn Hs. destruct safe as [|c safe]; [congruence|]. unfold plain. split_all.
  - cbn [app]. discriminate.
  - intros E. apply (f_equal (@length N)) in E. rewrite length_app in E.
    simpl in E. lia.
  - intros E. apply (f_equal (@length N)) in E. rewrite length_app in E.
    simpl in E. lia.
  - intros Hin. apply in_app_or in Hin. destruct Hin as [Hin|Hin].
    + now apply (safe_no_slash _ Hs).
    + simpl in Hin. unfold slash in Hin.
      destruct Hin as [H|[H|[H|[]]]]; discriminate H.
Qed.

Lemma plain_claude : plain (lit ".claude").
Proof.
  unfold plain. split_all; try discriminate. simpl. unfold slash.
  intros H. repeat (destruct H as [H|H]; [discriminate H|]). exact H.
Qed.

Lemma plain_commands : plain (lit "commands").
Proof.
  unfold plain. split_all; try discriminate. simpl. unfold slash.
  intros H. repeat (destruct H as [H|H]; [discriminate H|]). exact H.
Qed.

Lemma commands_child (h safe : jsstring) :
  safe <> [] -> forallb safe_char safe = true ->
  Path.join [Path.join [h; lit ".claude"; lit "commands"]; safe ++ lit ".md"] =
  Path.join [h; lit ".claude"; lit "commands"] ++ lit "/" ++ safe ++ lit ".md".
Proof.
  intros Hn Hs. apply join_child;
    [apply plain_claude | apply plain_commands | now apply file_name_plain].
Qed.

Lemma trimStart_head (s : jsstring) :
  match trimStart s with [] => True | c :: _ => is_space c = false end.
Proof.
  induction s as [|c s IH]; simpl; [exact I|].
  destruct (is_space c) eqn:E; [exact IH | exact E].
Qed.

Lemma trimStart_nil (s : jsstring) : trimStart s = [] -> forallb is_space s = true.
Proof.
  induction s as [|c s IH]; simpl; [reflexivity|].
  destruct (is_space c); [exact IH | discriminate].
Qed.

(** A trimmed text does not end in white space. *)
Lemma trim_last (s : jsstring) :
  trim s = [] \/ exists b c, trim s = b ++ [c] /\ is_space c = false.
Proof.
  unfold trim, trimEnd. pose proof (trimStart_head (rev (trimStart s))) as H.
  destruct (trimStart (rev (trimStart s))) as [|c y]; [now left|].
  right. exists (rev y), c. now split.
Qed.

Lemma drop_hashes_spec (s : jsstring) :
  exists hashes,
    s = hashes ++ drop_hashes s /\ forallb (fun c => c =? hash) hashes = true.
Proof.
  induction s as [|c s IH]; simpl; [now exists []|].
  destruct (c =? hash) eqn:E; [|now exists []].
  destruct IH as (hashes & H1 & H2). exists (c :: hashes). simpl.
  rewrite E, H2. split; [now rewrite <- H1 | reflexivity].
Qed.

Lemma drop_hashes_all (s : jsstring) :
  forallb (fun c => c =? hash) s = true -> drop_hashes s = [].
Proof.
  induction s as [|c s IH]; simpl; [reflexivity|]. intros H.
  apply andb_true_iff in H. destruct H as [H1 H2]. now rewrite H1, IH.
Qed.

Lemma startsWith_app (p s : jsstring) :
  startsWith p s = true -> exists r, s = p ++ r.
Proof.
  revert s. induction p as [|c p IH]; intros s H; [now exists s|].
  destruct s as [|d s]; [discriminate|]. simpl in H.
  apply andb_true_iff in H. destruct H as [H1 H2]. apply N.eqb_eq in H1. subst d.
  destruct (IH s H2) as [r ->]. now exists r.
Qed.

(** A visible name that ends in [.md] has something before the ending. *)
Lemma baseName_nonempty (n : jsstring) :
  startsWith (lit ".") n = false -> endsWith (lit ".md") n = true -> baseName n <> [].
Proof.
  intros Hv He. unfold endsWith in He. apply startsWith_app in He.
  destruct He as [r He]. apply (f_equal (@rev N)) in He.
  rewrite rev_involutive, rev_app_distr in He. simpl in He. subst n.
  unfold baseName. rewrite length_app. simpl.
  replace (length (rev r) + 3 - 3)%nat with (length (rev r)) by lia.
  rewrite firstn_app, Nat.sub_diag, firstn_all. simpl. rewrite app_nil_r.
  destruct (rev r); [discriminate Hv | discriminate].
Qed.

Lemma prefixed_prefixed (prefix n x : jsstring) :
  x <> [] -> exists x', x' <> [] /\ prefixed (prefixed prefix n) x = prefixed prefix x'.
Proof.
  intros Hx. destruct prefix as [|c prefix]; simpl.
  - exists (prefixed n x). split; [|reflexivity].
    destruct n; simpl; [exact Hx | discriminate].
  - exists (n ++ lit ":" ++ x). split; [destruct n; discriminate|].
    simpl. rewrite <- !app_assoc. reflexivity.
Qed.

(** The loop inside [scan_entry] is the loop of [scanDirectory]. *)
Lemma scan_entry_folder (dir : jsstring) (source : Source) (prefix n : jsstring)
  (listing : option (list Dirent)) :
  scan_entry dir source prefix (Folder n listing) =
  if startsWith (lit ".") n then ([], true)
  else
    (match listing with
     | Some sub =>
         scan_entries (Path.join [dir; n]) source (prefixed prefix n) sub
     | None => []
     end, true).
Proof.
  cbn [scan_entry entry_name]. destruct (startsWith (lit ".") n); [reflexivity|].
  destruct listing as [sub|]; [|reflexivity]. f_equal.
  induction sub as [|e sub IH]; [reflexivity|].
  cbn [scan_entries]. rewrite <- IH. reflexivity.
Qed.

Lemma In_firstn (A : Type) (n : nat) (l : list A) (x : A) :
  In x (firstn n l) -> In x l.
Proof.
  revert l. induction n as [|n IH]; intros [|a l]; simpl; try tauto.
  intros [H|H]; [now left | right; now apply IH].
Qed.

(** *** Line ends *)

Lemma crlf_app (a b : jsstring) : crlf (a ++ b) = crlf a ++ crlf b.
Proof.
  induction a as [|c a IH]; simpl; [reflexivity|].
  destruct (c =? LF); simpl; now rewrite IH.
Qed.

(** A pattern without line ends starts a text whatever its line ends. *)
Lemma startsWith_crlf (p s : jsstring) :
  ~ In LF p -> ~ In CR p -> startsWith p (crlf s) = startsWith p s.
Proof.
  revert s. induction p as [|c p IH]; intros s H1 H2; [now destruct (crlf s), s|].
  assert (Hc : (c =? LF) = false) by (apply N.eqb_neq; intros ->; apply H1; now left).
  assert (Hr : (c =? CR) = false) by (apply N.eqb_neq; intros ->; apply H2; now left).
  destruct s as [|d s]; [reflexivity|]. cbn [crlf].
  destruct (d =? LF) eqn:E.
  - apply N.eqb_eq in E. subst d. cbn [startsWith]. now rewrite Hc, Hr.
  - cbn [startsWith]. rewrite IH; [reflexivity | |];
      intros Hin; [apply H1 | apply H2]; now right.
Qed.

Lemma startsWith_CR_LF (p s : jsstring) :
  ~ In LF p -> ~ In CR p -> ~ In CR s ->
  startsWith (CR :: LF :: p) (crlf s) = startsWith (LF :: p) s.
Proof.
  intros H1 H2 H3. destruct s as [|d s]; [reflexivity|]. cbn [crlf].
  destruct (d =? LF) eqn:E.
  - apply N.eqb_eq in E. subst d. cbn [startsWith]. rewrite !N.eqb_refl.
    cbn [andb]. now apply startsWith_crlf.
  - cbn [startsWith]. rewrite (N.eqb_sym LF d), E.
    assert ((CR =? d) = false) as -> by (apply N.eqb_neq; intros <-; apply H3; now left).
    reflexivity.
Qed.

Lemma startsWith_LF_crlf (p s : jsstring) : startsWith (LF :: p) (crlf s) = false.
Proof.
  destruct s as [|d s]; [reflexivity|]. cbn [crlf].
  destruct (d =? LF) eqn:E; cbn [startsWith]; [reflexivity|].
  now rewrite (N.eqb_sym LF d), E.
Qed.

Lemma startsWith_then_CR_LF (p q s : jsstring) :
  ~ In LF p -> ~ In CR p -> ~ In LF q -> ~ In CR q -> ~ In CR s ->
  startsWith (p ++ CR :: LF :: q) (crlf s) = startsWith (p ++ LF :: q) s.
Proof.
  revert s. induction p as [|c p IH]; intros s H1 H2 H3 H4 H5;
    [now apply startsWith_CR_LF|].
  assert (Hc : (c =? LF) = false) by (apply N.eqb_neq; intros ->; apply H1; now left).
  assert (Hr : (c =? CR) = false) by (apply N.eqb_neq; intros ->; apply H2; now left).
  destruct s as [|d s]; [reflexivity|]. cbn [crlf].
  destruct (d =? LF) eqn:E.
  - apply N.eqb_eq in E. subst d. cbn [app startsWith]. now rewrite Hc, Hr.
  - cbn [app startsWith]. rewrite IH; try assumption; try reflexivity;
      intros Hin; [apply H1 | apply H2 | apply H5]; now right.
Qed.

Lemma startsWith_then_LF (p q s : jsstring) :
  ~ In LF p -> ~ In CR p -> startsWith (p ++ LF :: q) (crlf s) = false.
Proof.
  revert s. induction p as [|c p IH]; intros s H1 H2;
    [now apply startsWith_LF_crlf|].
  assert (Hr : (c =? CR) = false) by (apply N.eqb_neq; intros ->; apply H2; now left).
  destruct s as [|d s]; [reflexivity|]. cbn [crlf].
  destruct (d =? LF) eqn:E.
  - cbn [app startsWith]. now rewrite Hr.
  - cbn [app startsWith]. rewrite IH; [apply andb_false_r | |];
      intros Hin; [apply H1 | apply H2]; now right.
Qed.

Lemma hyphens_clean : ~ In LF (lit "---") /\ ~ In CR (lit "---").
Proof.
  split; intros H; simpl in H; unfold LF, CR in H;
    repeat (destruct H as [H|H]; [discriminate H|]); exact H.
Qed.

(** Where the front matter ends does not depend on the line ends, unless
    the text starts with a line feed and three hyphens. *)
Lemma front_matter_end_crlf (s group group' : jsstring) :
  ~ In CR s -> startsWith ([LF] ++ lit "---") s = false ->
  rev group' = crlf (rev group) ->
  front_matter_end group' (crlf s) = option_map crlf (front_matter_end group s).
Proof.
  destruct hyphens_clean as [C1 C2].
  revert group group'. induction s as [|c s IH]; intros group group' Hn Hs Hg;
    [reflexivity|].
  assert (Hn' : ~ In CR s) by (intros Hin; apply Hn; now right).
  assert (Closes : startsWith ([CR; LF] ++ lit "---") (crlf s) ||
                   startsWith ([LF] ++ lit "---") (crlf s) =
                   startsWith ([LF] ++ lit "---") s).
  { change ([CR; LF] ++ lit "---") with (CR :: LF :: lit "---").
    change ([LF] ++ lit "---") with (LF :: lit "---").
    rewrite startsWith_CR_LF, startsWith_LF_crlf by assumption. apply orb_false_r. }
  assert (Orig : startsWith ([CR; LF] ++ lit "---") s = false).
  { destruct s as [|d s]; [reflexivity|]. cbn [app startsWith].
    assert ((CR =? d) = false) as -> by (apply N.eqb_neq; intros <-; apply Hn'; now left).
    reflexivity. }
  cbn [crlf front_matter_end]. rewrite Orig. cbn [orb].
  destruct (c =? LF) eqn:E.
  - apply N.eqb_eq in E. subst c. cbn [front_matter_end].
    assert (S1 : startsWith ([CR; LF] ++ lit "---") (LF :: crlf s) = false) by reflexivity.
    assert (S2 : startsWith ([LF] ++ lit "---") (LF :: crlf s) = false).
    { change ([LF] ++ lit "---") with (LF :: lit "---") in *. cbn [startsWith] in *.
      rewrite N.eqb_refl in *. cbn [andb] in *.
      now rewrite startsWith_crlf. }
    rewrite S1, S2, Closes. cbn [orb].
    destruct (startsWith ([LF] ++ lit "---") s) eqn:Cl.
    + cbn [option_map rev]. f_equal. rewrite Hg, !crlf_app. simpl.
      now rewrite <- app_assoc.
    + apply IH; [assumption | reflexivity || assumption |].
      cbn [rev]. rewrite Hg, crlf_app. simpl. now rewrite <- app_assoc.
  - cbn [front_matter_end]. rewrite Closes.
    destruct (startsWith ([LF] ++ lit "---") s) eqn:Cl.
    + cbn [option_map rev]. f_equal. rewrite Hg, crlf_app. simpl. now rewrite E.
    + apply IH; [assumption | reflexivity || assumption |].
      cbn [rev]. rewrite Hg, crlf_app. simpl. now rewrite E.
Qed.

Lemma split_lines_crlf (s cur : jsstring) :
  ~ In CR s -> split_lines cur (crlf s) = split_lines cur s.
Proof.
  revert cur. induction s as [|c s IH]; intros cur Hn; [reflexivity|].
  assert (Hn' : ~ In CR s) by (intros Hin; apply Hn; now right).
  assert (Hc : (c =? CR) = false) by (apply N.eqb_neq; intros ->; apply Hn; now left).
  cbn [crlf]. destruct (c =? LF) eqn:E.
  - apply N.eqb_eq in E. subst c. cbn [split_lines].
    change (CR =? LF) with false. rewrite !N.eqb_refl. cbn [andb].
    now rewrite IH.
  - cbn [split_lines]. rewrite E, Hc. cbn [andb].
    rewrite <- (IH (c :: cur) Hn').
    now destruct (crlf s), s.
Qed.

(** Induction on the entries of a tree. *)
Lemma Dirent_induction (P : Dirent -> Prop) :
  (forall n, P (Folder n None)) ->
  (forall n sub, Forall P sub -> P (Folder n (Some sub))) ->
  (forall n text, P (Regular n text)) ->
  forall e, P e.
Proof.
  intros H1 H2 H3. fix IH 1. intros [n [sub|]|n text].
  - apply H2. induction sub as [|e sub IHs]; constructor; [apply IH | exact IHs].
  - apply H1.
  - apply H3.
Qed.

End RouteFacts.

Module Route.
Import JSValue Path SkillsRoute StringFacts PathFacts RouteFacts Server.

Ltac branches :=
  repeat match goal with
         | |- context [match ?x with _ => _ end] => destruct x eqn:?
         end.

(** X14. The name of a new skill is sanitized code unit by code unit: the
    safe name is as long as the name given, holds only letters, digits,
    underscores and hyphens, and sanitizing it again changes nothing. So
    the check that follows can never fail: [POST] never answers
    'Invalid skill name'. *)
Theorem skill_name_is_sanitized (name : jsstring) :
  length (sanitize name) = length name /\
  forallb safe_char (sanitize name) = true /\
  sanitize (sanitize name) = sanitize name /\
  forall request env,
    fst (POST request env) <> error_response 400 (lit "Invalid skill name").
Proof.
  split_all.
  - apply length_map.
  - apply sanitize_safe.
  - apply sanitize_fixed, sanitize_safe.
  - intros request env. unfold POST, caught. branches; cbn [fst];
      try discriminate;
      intros E;
      first [apply (f_equal status) in E; discriminate E
            |apply (f_equal body) in E; vm_compute in E; discriminate E].
Qed.

(** X15. Whatever the request holds, [POST] writes at most one file, and
    only when it answers 201: a file that did not exist, directly inside
    the global or the project commands directory, named by the safe name
    and [.md]. No name makes it write anywhere else. *)
Theorem post_writes_inside_commands (request : Request) (env : Env)
  (path data : jsstring) :
  In (WriteFile path data) (snd (POST request env)) ->
  status (fst (POST request env)) = 201 /\
  exists_ env path = false /\
  filter is_write (snd (POST request env)) = [WriteFile path data] /\
  exists safe,
    safe <> [] /\ forallb safe_char safe = true /\
    (path = getGlobalCommandsDir env ++ lit "/" ++ safe ++ lit ".md" \/
     path = getProjectCommandsDir None env ++ lit "/" ++ safe ++ lit ".md").
Proof.
  unfold POST.
  destruct request as [v|e]; [|intros []].
  destruct (Get v "name") as [name|]; [|intros []].
  destruct (Get v "content") as [content|]; [|intros []].
  destruct (Get v "scope") as [scope|]; [|intros []].
  destruct name as [| | | |[|c rest]| |]; try (intros []).
  cbn [sanitize map].
  set (safe := (if safe_char c then c else 45) :: map _ rest).
  assert (Hs : safe <> []) by discriminate.
  assert (Hc : forallb safe_char safe = true) by apply (sanitize_safe (c :: rest)).
  clearbody safe.
  set (dir := if strict_eq scope (Str (lit "project")) then _ else _).
  assert (Hd : Path.join [dir; safe ++ lit ".md"] = dir ++ lit "/" ++ safe ++ lit ".md").
  { subst dir. destruct (strict_eq scope (Str (lit "project")));
      now apply commands_child. }
  assert (Hdir : dir = getGlobalCommandsDir env \/ dir = getProjectCommandsDir None env).
  { subst dir. destruct (strict_eq scope (Str (lit "project"))); tauto. }
  clearbody dir.
  assert (W : forall done : list Effect,
            (done = [] \/ done = [MkDir dir]) ->
            ~ In (WriteFile path data) done /\ filter is_write done = []).
  { intros done [->| ->]; (split; [intros H; simpl in H|reflexivity]);
      [tauto | destruct H as [H|[]]; discriminate H]. }
  set (made := if exists_ env dir then _ else _).
  assert (Hm : match made with
               | inl _ => True
               | inr done => done = [] \/ done = [MkDir dir]
               end).
  { subst made. destruct (exists_ env dir); [now left|].
    destruct (mkdir_error env dir); [exact I | now right]. }
  destruct made as [e|done]; [intros []|]. destruct (W done Hm) as [W1 W2].
  destruct (exists_ env (Path.join [dir; safe ++ lit ".md"])) eqn:Ex;
    [intros H; now elim W1|].
  destruct (or_else content (Str [])) as [| | | |text| |];
    try (intros H; now elim W1).
  destruct (write_error env _) as [e|]; [intros H; now elim W1|].
  cbn [fst snd status]. intros H. apply in_app_or in H.
  destruct H as [H|[H|[]]]; [now elim W1|]. injection H as <- <-.
  split_all; [reflexivity | exact Ex | |].
  - rewrite filter_app, W2. reflexivity.
  - exists safe. split_all; [assumption | assumption|].
    rewrite Hd. destruct Hdir as [->| ->]; tauto.
Qed.

Lemma post_writes_inside_commands_witness :
  In (WriteFile (lit "/home/dev/.claude/commands/---x.md") (lit "# Title"))
     (snd (POST create_escaping blank)) /\
  status (fst (POST create_escaping blank)) = 201 /\
  filter is_write (snd (POST create_escaping blank)) =
  [WriteFile (lit "/home/dev/.claude/commands/---x.md") (lit "# Title")].
Proof.
  assert (H : In (WriteFile (lit "/home/dev/.claude/commands/---x.md") (lit "# Title"))
                 (snd (POST create_escaping blank)))
    by (vm_compute; right; left; reflexivity).
  destruct (post_writes_inside_commands create_escaping blank _ _ H) as (H1 & _ & H3 & _).
  split_all; [exact H | exact H1 | exact H3].
Defined.

(** X16. The description of a skill file is empty exactly when its first
    line, trimmed, is made of hashes only: such a heading loses everything
    and the default description is not used in its place. *)
Theorem description_empty_iff (content name : jsstring) :
  describe (first_line content) name = [] <->
  first_line content <> [] /\
  forallb (fun c => c =? hash) (first_line content) = true.
Proof.
  unfold first_line. set (line := hd [] (split_LF content)).
  pose proof (trim_last line) as T. set (t := trim line) in *. clearbody t.
  unfold describe. destruct (startsWith (lit "#") t) eqn:S.
  - apply startsWith_app in S. destruct S as [r S]. split.
    + intros E. split; [rewrite S; discriminate|].
      destruct (drop_hashes_spec t) as (hashes & H1 & H2).
      destruct (drop_hashes t) as [|d rest] eqn:D.
      * rewrite app_nil_r in H1. now rewrite H1.
      * exfalso. apply trimStart_nil in E.
        destruct T as [T|(b & c & T1 & T2)]; [rewrite T in S; discriminate S|].
        rewrite T1 in H1.
        assert (L : last (d :: rest) 0 = c).
        { apply (f_equal (fun l => last l 0)) in H1.
          rewrite !last_app in H1 by discriminate. now rewrite <- H1. }
        assert (In c (d :: rest)).
        { rewrite <- L. rewrite (app_removelast_last 0 (l := d :: rest)) at 2
            by discriminate. apply in_or_app. right. now left. }
        rewrite (proj1 (forallb_forall _ _) E c H) in T2. discriminate.
    + intros [_ H]. now rewrite drop_hashes_all.
  - split.
    + destruct t; [discriminate | intros E; discriminate E].
    + intros [H1 H2]. destruct t as [|c t']; [congruence|].
      simpl in H2. apply andb_true_iff in H2. destruct H2 as [H2 _].
      apply N.eqb_eq in H2. subst c. discriminate S.
Qed.

Lemma scan_entry_passed_over (dir : jsstring) (source : Source) (prefix : jsstring)
  (e : Dirent) :
  passed_over e -> scan_entry dir source prefix e = ([], true).
Proof.
  intros [H|(n & text & -> & H)].
  - destruct e; cbn [scan_entry entry_name] in *; now rewrite H.
  - cbn [scan_entry entry_name]. rewrite H.
    now destruct (startsWith (lit ".") n).
Qed.

(** X17. An entry whose name starts with a dot, and an entry that is not a
    directory and whose name does not end in [.md], make no difference to
    the scan wherever they stand in a listing: a hidden file is not read
    and a hidden directory is not entered. *)
Theorem scan_passes_over (dir : jsstring) (source : Source) (prefix : jsstring)
  (before after : list Dirent) (e : Dirent) :
  passed_over e ->
  scan_entries dir source prefix (before ++ e :: after) =
  scan_entries dir source prefix (before ++ after).
Proof.
  intros H. induction before as [|b before IH]; cbn [app scan_entries].
  - now rewrite scan_entry_passed_over.
  - now rewrite IH.
Qed.

Lemma scan_passes_over_witness :
  passed_over hidden_folder /\
  scan_entries (lit "/home/dev/.claude/commands") global []
    (review_pr ++ hidden_folder :: []) =
  scan_entries (lit "/home/dev/.claude/commands") global [] (review_pr ++ []).
Proof.
  assert (H : passed_over hidden_folder) by (left; reflexivity).
  split; [exact H|].
  exact (scan_passes_over (lit "/home/dev/.claude/commands") global []
           review_pr [] hidden_folder H).
Defined.

Lemma scan_entry_well (source : Source) (e : Dirent) :
  forall dir prefix f,
    In f (fst (scan_entry dir source prefix e)) -> well_scanned source prefix f.
Proof.
  induction e as [n|n sub IH|n text] using Dirent_induction; intros dir prefix f.
  - rewrite scan_entry_folder. destruct (startsWith (lit ".") n); intros [].
  - rewrite scan_entry_folder. destruct (startsWith (lit ".") n); [intros []|].
    cbn [fst]. generalize (Path.join [dir; n]). intros dir'.
    induction IH as [|e sub He _ IHs]; cbn [scan_entries]; [intros []|].
    intros Hin.
    assert (G : In f (fst (scan_entry dir' source (prefixed prefix n) e)) \/
                In f (scan_entries dir' source (prefixed prefix n) sub)).
    { destruct (scan_entry dir' source (prefixed prefix n) e) as [found [|]];
        [apply in_app_or in Hin; exact Hin | now left]. }
    destruct G as [G|G]; [|now apply IHs].
    destruct (He _ _ _ G) as (W1 & W2 & x & Hx & W3).
    destruct (prefixed_prefixed prefix n x Hx) as (x' & Hx' & E).
    unfold well_scanned. split_all; [assumption | assumption|].
    exists x'. split; [assumption | congruence].
  - cbn [scan_entry entry_name].
    destruct (startsWith (lit ".") n) eqn:V; [intros []|].
    destruct (endsWith (lit ".md") n) eqn:M; cbn [negb]; [|intros []].
    destruct text as [content|]; [|intros []].
    intros [<-|[]]. unfold well_scanned. cbn. split_all; try reflexivity.
    exists (baseName n). split; [now apply baseName_nonempty | reflexivity].
Qed.

(** X18. Every skill a scan lists is of the source asked for, is described
    by the first line of its own content, and has a name that is not
    empty: the prefix, when there is one, a colon, and something more. *)
Theorem scanned_skills_are_well_formed (dir : jsstring) (source : Source)
  (prefix : jsstring) (env : Env) :
  Forall (well_scanned source prefix) (scanDirectory dir source prefix env).
Proof.
  unfold scanDirectory. destruct (entries env dir) as [l|]; [|constructor].
  apply Forall_forall. intros f.
  induction l as [|e l IH]; cbn [scan_entries]; [intros []|].
  intros Hin.
  assert (G : In f (fst (scan_entry dir source prefix e)) \/
              In f (scan_entries dir source prefix l)).
  { destruct (scan_entry dir source prefix e) as [found [|]];
      [apply in_app_or in Hin; exact Hin | now left]. }
  destruct G as [G|G]; [now apply scan_entry_well with e dir | now apply IH].
Qed.

Section WhateverCaseMapping.
Variable toLowerCase : jsstring -> jsstring.

Lemma api_items_not_enabled (filter : jsstring) (l : list SkillFile) :
  MessageInput.api_items toLowerCase filter (map skill_value l) = Some [].
Proof. induction l as [|f l IH]; [reflexivity|]. simpl. exact IH. Qed.

(** X19. The skills the route finds are never offered: the objects [GET]
    sends have no [enabled] field, which the popover requires to be true,
    so what [fetchSkills] returns for the response of [GET] is what it
    returns when the request fails, built-in commands only. *)
Theorem listed_skills_are_never_offered (filter : jsstring)
  (given_cwd : option jsstring) (env : Env) :
  MessageInput.fetchSkills toLowerCase filter
    (MessageInput.json (body (GET given_cwd env))) =
  MessageInput.fetchSkills toLowerCase filter MessageInput.failed /\
  Forall (fun item => MessageInput.builtIn item = Some true)
    (MessageInput.fetchSkills toLowerCase filter
       (MessageInput.json (body (GET given_cwd env)))).
Proof.
  assert (E : MessageInput.fetchSkills toLowerCase filter
                (MessageInput.json (body (GET given_cwd env))) =
              MessageInput.fetchSkills toLowerCase filter MessageInput.failed).
  { unfold MessageInput.fetchSkills, GET. cbn [body].
    change (Get (Obj [(lit "skills", ?x)]) "skills") with (Some x).
    cbn [truthy]. now rewrite api_items_not_enabled. }
  split; [exact E|]. rewrite E. unfold MessageInput.fetchSkills.
  rewrite app_nil_r. apply Forall_forall. intros item Hin.
  apply In_firstn in Hin.
  apply filter_In in Hin. destruct Hin as [Hin _].
  repeat (destruct Hin as [<-|Hin]; [reflexivity|]). destruct Hin.
Qed.

End WhateverCaseMapping.





(** X23. The line ends of a skill file do not matter to its front matter: a
    file without carriage returns, and the same file with every line feed
    turned into a carriage return and a line feed, give the same name and
    description, unless the file starts with three hyphens, an empty line
    and three hyphens. *)
Theorem line_ends_do_not_matter (content : jsstring) :
  ~ In CR content ->
  startsWith (lit "---" ++ [LF; LF] ++ lit "---") content = false ->
  parseSkillFrontMatter (crlf content) = parseSkillFrontMatter content.
Proof.
  intros Hn Hs. destruct hyphens_clean as [C1 C2].
  assert (F : front_matter (crlf content) = option_map crlf (front_matter content)).
  { unfold front_matter.
    assert (O1 : startsWith (lit "---" ++ [CR; LF]) content = false).
    { destruct content as [|a [|b [|c [|d r]]]]; try reflexivity;
        cbn [app lit map list_ascii_of_string startsWith];
        try (now rewrite !andb_false_r).
      assert ((CR =? d) = false) as ->
        by (apply N.eqb_neq; intros <-; apply Hn; simpl; tauto).
      now rewrite !andb_false_r. }
    rewrite O1.
    destruct (startsWith (lit "---" ++ [LF]) content) eqn:O2.
    - apply startsWith_app in O2. destruct O2 as [r ->].
      rewrite crlf_app. change (crlf (lit "---" ++ [LF])) with (lit "---" ++ [CR; LF]).
      assert (S : startsWith (lit "---" ++ [CR; LF]) ((lit "---" ++ [CR; LF]) ++ crlf r)
                  = true) by (simpl; now rewrite ?N.eqb_refl).
      rewrite S.
      change (skipn 5 ((lit "---" ++ [CR; LF]) ++ crlf r)) with (crlf r).
      change (skipn 4 ((lit "---" ++ [LF]) ++ r)) with r.
      apply front_matter_end_crlf; [| |reflexivity].
      + intros Hin. apply Hn. apply in_or_app. now right.
      + change ((lit "---" ++ [LF]) ++ r) with (lit "---" ++ LF :: r) in Hs.
        change (lit "---" ++ [LF; LF] ++ lit "---")
          with (lit "---" ++ LF :: [LF] ++ lit "---") in Hs.
        simpl in Hs. simpl. exact Hs.
    - assert (S1 : startsWith (lit "---" ++ [CR; LF]) (crlf content) = false).
      { change (lit "---" ++ [CR; LF]) with (lit "---" ++ CR :: LF :: []).
        rewrite (startsWith_then_CR_LF (lit "---") [] content);
          [exact O2 | assumption | assumption | intros [] | intros [] | assumption]. }
      assert (S2 : startsWith (lit "---" ++ [LF]) (crlf content) = false)
        by now apply startsWith_then_LF.
      now rewrite S1, S2. }
  unfold parseSkillFrontMatter. rewrite F.
  destruct (front_matter content) as [g|] eqn:G; [|reflexivity].
  cbn [option_map]. rewrite split_lines_crlf; [reflexivity|].
  (* the front matter is a piece of the content *)
  intros Hin. apply Hn. revert G Hin. unfold front_matter.
  assert (P : forall s group x, front_matter_end group s = Some x ->
              In CR x -> In CR group \/ In CR s).
  { induction s as [|c s IH]; intros group x; cbn [front_matter_end]; [discriminate|].
    destruct (_ || _).
    - intros [= <-] H. change (In CR (rev (c :: group))) in H.
      apply (proj2 (in_rev _ _)) in H.
      destruct H as [->|H]; [right; now left | now left].
    - intros E H. destruct (IH _ _ E H) as [[->|H']|H']; [right; now left | now left|].
      right. now right. }
  destruct (startsWith (lit "---" ++ [CR; LF]) content);
    [|destruct (startsWith (lit "---" ++ [LF]) content); [|discriminate]];
    intros E H; destruct (P _ _ _ E H) as [[]|H'];
    [rewrite <- (firstn_skipn 5 content) | rewrite <- (firstn_skipn 4 content)];
    apply in_or_app; now right.
Qed.

Lemma line_ends_do_not_matter_witness :
  ~ In CR skill_md /\
  startsWith (lit "---" ++ [LF; LF] ++ lit "---") skill_md = false /\
  parseSkillFrontMatter (crlf skill_md) =
  {| meta_name := Some (lit "deploy"); meta_description := Some (lit "Ship it") |} /\
  parseSkillFrontMatter (crlf skill_md) = parseSkillFrontMatter skill_md.
Proof.
  assert (H1 : ~ In CR skill_md).
  { vm_compute. intros H. repeat (destruct H as [H|H]; [discriminate H|]). exact H. }
  assert (H2 : startsWith (lit "---" ++ [LF; LF] ++ lit "---") skill_md = false)
    by reflexivity.
  split_all; [exact H1 | exact H2 | vm_compute; reflexivity |].
  exact (line_ends_do_not_matter skill_md H1 H2).
Defined.

End Route.
